(** * Puzzle Decoder Race: a shallow embedding of [decoder.py]

    The development models the [PuzzleDecoder] class of [src/decoder.py]:
    the fragment store, the single fetch, the batch fetch, the three search
    phases and [solve_puzzle].  The remote service, the random sample of
    phase 1 and the standard output of the process are inputs of the model.
    Network requests issued by the decoder are recorded in a trace so that
    statements about "which identifiers were probed" can be made. *)

From Stdlib Require Import ZArith List Ascii String Lia.
From stdpp Require Import base option list gmap sets strings sorting fin_maps pretty.

#[local] Set Warnings "-clear-no-such-hyp".

Open Scope string_scope.
Open Scope Z_scope.

(** ** Python values

    A [Fragment] is a dataclass: its field annotations ([int], [int], [str])
    are not enforced at run time, so the fields hold whatever the decoded
    JSON held.  Two kinds of JSON scalars are modelled, the two the
    annotations mention: integers (unbounded, as in Python) and strings.
    Other JSON kinds (null, booleans, floats, arrays, nested objects) as
    field values are outside the model. *)

Inductive pyval : Type :=
  | VInt (z : Z)
  | VStr (s : string).

#[global] Instance pyval_eq_dec : EqDecision pyval.
Proof. solve_decision. Defined.

#[global] Instance pyval_countable : Countable pyval :=
  inj_countable'
    (λ v, match v with VInt z => inl z | VStr s => inr s end)
    (λ x, match x with inl z => VInt z | inr s => VStr s end)
    (λ v, match v with VInt _ => eq_refl | VStr _ => eq_refl end).

Definition is_int (v : pyval) : bool :=
  match v with VInt _ => true | VStr _ => false end.

Definition is_str (v : pyval) : bool :=
  match v with VStr _ => true | VInt _ => false end.

(** The exceptions that can escape into the search strategy.
    [UnicodeEncodeError] is what [print] raises when the standard output
    cannot encode the text it is given. *)
Inductive exn : Type :=
  | TypeError
  | ValueError
  | IndexError
  | UnicodeEncodeError.

#[global] Instance exn_eq_dec : EqDecision exn.
Proof. solve_decision. Defined.

(** A pure computation that may raise. *)
Inductive result (A : Type) : Type :=
  | Ok (a : A)
  | Err (e : exn).
Arguments Ok {A} a.
Arguments Err {A} e.

(** ** The dataclass [Fragment] (lines 14-19) *)

Record Fragment : Type := mkFragment {
  id : pyval;
  index : pyval;
  text : pyval
}.

#[global] Instance Fragment_eq_dec : EqDecision Fragment.
Proof. solve_decision. Defined.

(** ** The remote service

    What one [session.get] followed by [response.json()] can produce. *)

Inductive json : Type :=
  | JObject (data : gmap string pyval)   (* a JSON object, decoded to a dict *)
  | JOther.                              (* valid JSON that is not an object *)

Inductive http_outcome : Type :=
  | RequestFails
      (* [session.get] raises: connection error, timeout, ... *)
  | Response (status : Z) (body : option json).
      (* a response arrived; [body = None] when [response.json()] raises
         (not JSON, wrong content type, timeout while reading) *)

(** The service answers a request for an identifier knowing the requests
    that were issued before (oldest first): it may answer the same
    identifier differently at different times. *)
Definition service : Type := list Z → Z → http_outcome.

(** ** The decoder object (lines 22-30)

    [requests], [console], [progress] and [terminal] are not attributes of
    the Python object; they describe the process around it.  [requests]
    records the network requests issued so far (oldest first).  [terminal]
    is the standard output: [terminal line] tells whether it can encode
    [line]; [print] of a line it cannot encode raises [UnicodeEncodeError].
    Of the lines printed, two kinds carry text received from the service
    and are recorded, oldest first: [progress] holds the "Found fragment"
    lines of the three phases, [console] the line of [solve_puzzle] that
    carries its outcome (the message, or the failure).  The other lines
    (phase banners, timing, counts) are made of fixed ASCII text and
    numbers; they are not recorded and are taken to be encodable by every
    standard output.  The [timeout] attribute (a float) only parameterises
    the session; its effect is part of the service's [RequestFails] /
    [body = None] outcomes. *)

Record PuzzleDecoder : Type := mkDecoder {
  base_url : string;
  fragments : gmap pyval Fragment;
  seen_ids : gset Z;
  max_concurrent : Z;
  requests : list Z;
  console : list string;
  progress : list string;
  terminal : string → bool
}.

(** [__init__], in a process whose standard output is [stdout]. *)
Definition init (url : string) (stdout : string → bool) : PuzzleDecoder :=
  {| base_url := url;
     fragments := ∅;
     seen_ids := ∅;
     max_concurrent := 30;
     requests := [];
     console := [];
     progress := [];
     terminal := stdout |}.

Definition set_fragments (fr : gmap pyval Fragment) (d : PuzzleDecoder) : PuzzleDecoder :=
  {| base_url := base_url d; fragments := fr; seen_ids := seen_ids d;
     max_concurrent := max_concurrent d; requests := requests d;
     console := console d; progress := progress d; terminal := terminal d |}.

Definition set_seen_ids (s : gset Z) (d : PuzzleDecoder) : PuzzleDecoder :=
  {| base_url := base_url d; fragments := fragments d; seen_ids := s;
     max_concurrent := max_concurrent d; requests := requests d;
     console := console d; progress := progress d; terminal := terminal d |}.

(** Assignment to the attribute [max_concurrent] after construction: the
    only way the concurrency limit can be configured. *)
Definition set_max_concurrent (n : Z) (d : PuzzleDecoder) : PuzzleDecoder :=
  {| base_url := base_url d; fragments := fragments d; seen_ids := seen_ids d;
     max_concurrent := n; requests := requests d; console := console d;
     progress := progress d; terminal := terminal d |}.

Definition log_request (fragment_id : Z) (d : PuzzleDecoder) : PuzzleDecoder :=
  {| base_url := base_url d; fragments := fragments d; seen_ids := seen_ids d;
     max_concurrent := max_concurrent d;
     requests := requests d ++ [fragment_id]; console := console d;
     progress := progress d; terminal := terminal d |}.

(** The effect of a successful [print] of an outcome line. *)
Definition print (line : string) (d : PuzzleDecoder) : PuzzleDecoder :=
  {| base_url := base_url d; fragments := fragments d; seen_ids := seen_ids d;
     max_concurrent := max_concurrent d; requests := requests d;
     console := console d ++ [line];
     progress := progress d; terminal := terminal d |}.

(** The effect of a successful [print] of a "Found fragment" line. *)
Definition print_progress (line : string) (d : PuzzleDecoder) : PuzzleDecoder :=
  {| base_url := base_url d; fragments := fragments d; seen_ids := seen_ids d;
     max_concurrent := max_concurrent d; requests := requests d;
     console := console d;
     progress := progress d ++ [line]; terminal := terminal d |}.

(** ** Python built-ins used by the decoder *)

(** [range(start, stop)] *)
Definition range (start stop : Z) : list Z :=
  (λ i : nat, start + Z.of_nat i) <$> seq 0 (Z.to_nat (stop - start)).

(** [range(start, stop, step)]: a zero step raises [ValueError]. *)
Definition range_step (start stop step : Z) : result (list Z) :=
  if bool_decide (step = 0) then Err ValueError
  else if bool_decide (0 < step) then
    Ok ((λ k : nat, start + step * Z.of_nat k)
          <$> seq 0 (Z.to_nat ((stop - start + step - 1) `div` step)))
  else
    Ok ((λ k : nat, start + step * Z.of_nat k)
          <$> seq 0 (Z.to_nat ((start - stop - step - 1) `div` (- step)))).

(** [l[a:b]]: negative bounds count from the end, all bounds are clamped. *)
Definition slice_bound {A} (l : list A) (x : Z) : nat :=
  let n := Z.of_nat (length l) in
  Z.to_nat (if bool_decide (x < 0) then Z.max 0 (x + n) else Z.min x n).

Definition py_slice {A} (l : list A) (a b : Z) : list A :=
  take (slice_bound l b - slice_bound l a)%nat (drop (slice_bound l a) l).

(** [x > y] on Python values: defined within a type, [TypeError] across. *)
Definition py_gt (x y : pyval) : result bool :=
  match x, y with
  | VInt a, VInt b => Ok (bool_decide (b < a))
  | VStr a, VStr b => Ok (String.ltb b a)
  | _, _ => Err TypeError
  end.

(** [max(iterable)]: the running maximum is replaced by a strictly greater
    item; an empty iterable raises [ValueError]. *)
Fixpoint py_max_from (cur : pyval) (l : list pyval) : result pyval :=
  match l with
  | [] => Ok cur
  | x :: l' =>
      match py_gt x cur with
      | Ok b => py_max_from (if b then x else cur) l'
      | Err e => Err e
      end
  end.

Definition py_max (l : list pyval) : result pyval :=
  match l with
  | [] => Err ValueError
  | x :: l' => py_max_from x l'
  end.

(** [v + 1]: a string cannot be added to an int. *)
Definition py_succ (v : pyval) : result Z :=
  match v with
  | VInt z => Ok (z + 1)
  | VStr _ => Err TypeError
  end.

(** [str(v)], as an f-string formats a field: the decimal numeral of an int,
    a string as it is. *)
Definition py_str (v : pyval) : string :=
  match v with
  | VInt z => pretty z
  | VStr s => s
  end.

(** [sep.join(items)]: every item must be a [str]. *)
Fixpoint join (sep : string) (items : list string) : string :=
  match items with
  | [] => ""
  | [s] => s
  | s :: rest => s +:+ sep +:+ join sep rest
  end.

Fixpoint strings_of (items : list pyval) : result (list string) :=
  match items with
  | [] => Ok []
  | VStr s :: rest =>
      match strings_of rest with
      | Ok l => Ok (s :: l)
      | Err e => Err e
      end
  | VInt _ :: _ => Err TypeError
  end.

Definition py_join (sep : string) (items : list pyval) : result string :=
  match strings_of items with
  | Ok l => Ok (join sep l)
  | Err e => Err e
  end.

(** [sorted(d.items())]: the items are (key, value) tuples with pairwise
    distinct keys, so only keys are ever compared.  Keys of one type are
    ordered; a list mixing ints and strings raises [TypeError]. *)
Definition key_int (kv : pyval * Fragment) : Z :=
  match kv.1 with VInt z => z | VStr _ => 0 end.

Definition key_str (kv : pyval * Fragment) : string :=
  match kv.1 with VStr s => s | VInt _ => "" end.

Definition int_item_le (a b : pyval * Fragment) : Prop := key_int a ≤ key_int b.

Definition str_item_le (a b : pyval * Fragment) : Prop :=
  String.leb (key_str a) (key_str b) = true.

#[global] Instance int_item_le_dec : RelDecision int_item_le.
Proof. intros a b. unfold int_item_le. apply _. Defined.

#[global] Instance str_item_le_dec : RelDecision str_item_le.
Proof. intros a b. unfold str_item_le. apply _. Defined.

Definition py_sorted (items : list (pyval * Fragment)) : result (list (pyval * Fragment)) :=
  if forallb (λ kv, is_int kv.1) items then Ok (merge_sort int_item_le items)
  else if forallb (λ kv, is_str kv.1) items then Ok (merge_sort str_item_le items)
  else Err TypeError.

(** The keys of the fragment dict.  Python iterates a dict in insertion
    order, the model in the order of the finite map; the functions below
    that consume the keys ([py_max], [py_sorted]) do not depend on it. *)
Definition keys (fr : gmap pyval Fragment) : list pyval := (map_to_list fr).*1.

(** ** [fetch_fragment] (lines 32-51) *)

(** The body of the [try] block on the outcome of the request: every
    exception raised inside it is caught and yields [None]. *)
Definition read_fragment (o : http_outcome) : option Fragment :=
  match o with
  | RequestFails => None
  | Response status body =>
      if bool_decide (status = 200) then
        match body with
        | Some (JObject data) =>
            match data !! "id", data !! "index", data !! "text" with
            | Some i, Some ix, Some t => Some (mkFragment i ix t)
            | _, _, _ => None          (* KeyError, caught *)
            end
        | Some JOther => None          (* subscripting raises TypeError, caught *)
        | None => None                 (* response.json() raises, caught *)
        end
      else None
  end.

Definition fetch_fragment (srv : service) (fragment_id : Z) (d : PuzzleDecoder)
  : option Fragment * PuzzleDecoder :=
  if bool_decide (fragment_id ∈ seen_ids d) then (None, d)
  else
    let d1 := log_request fragment_id d in
    match read_fragment (srv (requests d) fragment_id) with
    | Some fragment => (Some fragment, set_seen_ids ({[fragment_id]} ∪ seen_ids d1) d1)
    | None => (None, d1)
    end.

(** ** [fetch_batch] (lines 53-62)

    The tasks of one batch carry pairwise distinct identifiers
    ([start_id + i]), so the membership test each task makes on [seen_ids]
    is not affected by its siblings, and [gather] returns the results in
    task order: running the tasks one after the other gives the same
    results and the same final [seen_ids] as running them concurrently. *)
Fixpoint gather (srv : service) (ids : list Z) (d : PuzzleDecoder)
  : list (option Fragment) * PuzzleDecoder :=
  match ids with
  | [] => ([], d)
  | fragment_id :: rest =>
      let '(r, d1) := fetch_fragment srv fragment_id d in
      let '(rs, d2) := gather srv rest d1 in
      (r :: rs, d2)
  end.

Definition fetch_batch (srv : service) (start_id batch_size : Z) (d : PuzzleDecoder)
  : list Fragment * PuzzleDecoder :=
  let '(results, d') := gather srv (range start_id (start_id + batch_size)) d in
  (omap (λ r, r) results, d').

(** ** [is_puzzle_complete] (lines 64-74) *)
Definition is_puzzle_complete (fr : gmap pyval Fragment) : result bool :=
  if bool_decide (fr = ∅) then Ok false
  else
    match py_max (keys fr) with
    | Err e => Err e
    | Ok max_index =>
        match py_succ max_index with
        | Err e => Err e
        | Ok stop =>
            Ok (forallb (λ i, bool_decide (is_Some (fr !! VInt i))) (range 0 stop))
        end
    end.

(** ** [get_assembled_message] (lines 76-82) *)
Definition get_assembled_message (fr : gmap pyval Fragment) : result string :=
  match is_puzzle_complete fr with
  | Err e => Err e
  | Ok false => Ok ""
  | Ok true =>
      match py_sorted (map_to_list fr) with
      | Err e => Err e
      | Ok sorted_fragments => py_join " " ((λ kv, text kv.2) <$> sorted_fragments)
      end
  end.

(** ** The search strategy: state and exceptions

    The strategy mutates the decoder and may raise.  A computation takes the
    decoder and ends by returning a value, by raising, or (for the [while]
    loop of phase 3, which is run on a step budget) by exhausting the
    budget; each ending carries the decoder as it is at that point. *)

Inductive outcome (A : Type) : Type :=
  | Ret (a : A) (d : PuzzleDecoder)
  | Raise (e : exn) (d : PuzzleDecoder)
  | OutOfFuel (d : PuzzleDecoder).
Arguments Ret {A} a d.
Arguments Raise {A} e d.
Arguments OutOfFuel {A} d.

Definition M (A : Type) : Type := PuzzleDecoder → outcome A.

#[global] Instance M_ret : MRet M := λ A a d, Ret a d.

#[global] Instance M_bind : MBind M := λ A B f m d,
  match m d with
  | Ret a d' => f a d'
  | Raise e d' => Raise e d'
  | OutOfFuel d' => OutOfFuel d'
  end.

Definition lift {A} (r : result A) : M A := λ d,
  match r with
  | Ok a => Ret a d
  | Err e => Raise e d
  end.

Definition get {A} (f : PuzzleDecoder → A) : M A := λ d, Ret (f d) d.

Definition modify (f : PuzzleDecoder → PuzzleDecoder) : M unit := λ d, Ret tt (f d).

Definition final_state {A} (o : outcome A) : PuzzleDecoder :=
  match o with
  | Ret _ d => d
  | Raise _ d => d
  | OutOfFuel d => d
  end.

(** [self.is_puzzle_complete()] on the current store. *)
Definition complete : M bool := λ d, lift (is_puzzle_complete (fragments d)) d.

(** [print(line)] of a line that carries text received from the service:
    the standard output encodes the line, which is then recorded by
    [record], or [print] raises [UnicodeEncodeError] and nothing is
    written. *)
Definition write (record : string → PuzzleDecoder → PuzzleDecoder) (line : string)
  : M unit := λ d,
  if terminal d line then Ret tt (record line d) else Raise UnicodeEncodeError d.

(** The assignment [self.fragments[fragment.index] = fragment]. *)
Definition store_fragment (d : PuzzleDecoder) (fragment : Fragment) : PuzzleDecoder :=
  set_fragments (<[index fragment := fragment]> (fragments d)) d.

(** What the assignments of the loop
    [for fragment in fragments: self.fragments[fragment.index] = fragment]
    do to the store when the loop runs to its end. *)
Definition store_all (found : list Fragment) (d : PuzzleDecoder) : PuzzleDecoder :=
  foldl store_fragment d found.

(** The line [f"{label}{fragment.index}: '{fragment.text}'"], where [label]
    is "Found fragment " (lines 99 and 151) or "Found missing fragment "
    (line 130). *)
Definition found_line (label : string) (fragment : Fragment) : string :=
  label +:+ py_str (index fragment) +:+ ": '" +:+ py_str (text fragment) +:+ "'".

(** The loop
    [for fragment in fragments:
       self.fragments[fragment.index] = fragment; print(f"...")]
    of the three phases.  Each fragment is stored and then announced; a
    [print] that raises leaves the loop with the fragment stored and the
    rest of the batch dropped.  Phases 1 and 2 guard the body with
    [if fragment:]; an instance of the dataclass defines neither
    [__bool__] nor [__len__] and is always true, so the guard never
    skips. *)
Fixpoint ingest (label : string) (found : list Fragment) : M unit :=
  match found with
  | [] => mret tt
  | fragment :: rest =>
      modify (λ d, store_fragment d fragment);;
      write print_progress (found_line label fragment);;
      ingest label rest
  end.

(** The call [self.fetch_batch(session, batch[0], len(batch))] made by all
    three phases; [batch[0]] raises [IndexError] on an empty batch. *)
Definition fetch_batch_of (srv : service) (batch : list Z) : M (list Fragment) := λ d,
  match batch with
  | [] => Raise IndexError d
  | first :: _ =>
      let '(found, d') := fetch_batch srv first (Z.of_nat (length batch)) d in
      Ret found d'
  end.

(** Whether the enclosing function goes on or has executed [return]. *)
Inductive flow : Type :=
  | Next
  | Return.

(** *** Phase 1 (lines 88-102) *)
Fixpoint discover_batches (srv : service) (random_ids : list Z) (batch_size : Z)
    (starts : list Z) : M flow :=
  match starts with
  | [] => mret Next
  | i :: starts' =>
      let batch := py_slice random_ids i (i + batch_size) in
      found ← fetch_batch_of srv batch;
      ingest "Found fragment " found;;
      c ← complete;
      if (c : bool) then mret Return
      else discover_batches srv random_ids batch_size starts'
  end.

Definition discovering (srv : service) (random_ids : list Z) : M flow :=
  mc ← get max_concurrent;
  let batch_size := Z.min mc (Z.of_nat (length random_ids)) in
  starts ← lift (range_step 0 (Z.of_nat (length random_ids)) batch_size);
  discover_batches srv random_ids batch_size starts.

(** *** Phase 2 (lines 105-130) *)
Fixpoint gap_batches (srv : service) (remaining_ids : list Z) (starts : list Z) : M unit :=
  match starts with
  | [] => mret tt
  | i :: starts' =>
      c ← complete;
      if (c : bool) then mret tt                         (* break *)
      else
        mc ← get max_concurrent;
        let batch := py_slice remaining_ids i (i + mc) in
        found ← fetch_batch_of srv batch;
        ingest "Found missing fragment " found;;
        gap_batches srv remaining_ids starts'
  end.

Definition gap_filling (srv : service) : M unit :=
  fr ← get fragments;
  if bool_decide (fr = ∅) then mret tt
  else
    max_discovered ← lift (py_max (keys fr));
    stop ← lift (py_succ max_discovered);
    let missing_indices :=
      filter (λ i, ¬ is_Some (fr !! VInt i)) (range 0 stop) in
    match missing_indices with
    | [] => mret tt
    | _ :: _ =>
        seen ← get seen_ids;
        let remaining_ids := filter (λ x, x ∉ seen) (range 1 10000) in
        mc ← get max_concurrent;
        starts ← lift (range_step 0 (Z.of_nat (length remaining_ids)) mc);
        gap_batches srv remaining_ids starts
    end.

(** *** Phase 3 (lines 133-155)

    The [while] loop, run for at most [fuel] evaluations of its condition.
    It returns the values of [search_id] and [consecutive_failures] at the
    exit of the loop. *)
Fixpoint extended_search (srv : service) (fuel : nat)
    (search_id consecutive_failures : Z) : M (Z * Z) :=
  match fuel with
  | O => λ d, OutOfFuel d
  | S fuel' =>
      c ← complete;
      if negb (c : bool) && bool_decide (consecutive_failures < 100) then
        mc ← get max_concurrent;
        seen ← get seen_ids;
        let batch_ids :=
          filter (λ x, x ∉ seen) (range search_id (search_id + mc)) in
        match batch_ids with
        | [] => extended_search srv fuel' (search_id + mc) consecutive_failures
        | _ :: _ =>
            found ← fetch_batch_of srv batch_ids;
            match (found : list Fragment) with
            | _ :: _ =>
                ingest "Found fragment " found;;
                extended_search srv fuel' (search_id + mc) 0
            | [] =>
                extended_search srv fuel' (search_id + mc) (consecutive_failures + 1)
            end
        end
      else mret (search_id, consecutive_failures)
  end.

(** *** [smart_search_strategy] (lines 84-155)

    [random_ids] stands for the value of
    [random.sample(range(1, 1000), min(50, 1000))]. *)
Definition smart_search_strategy (srv : service) (random_ids : list Z) (fuel : nat)
  : M unit :=
  fl ← discovering srv random_ids;
  match (fl : flow) with
  | Return => mret tt
  | Next =>
      gap_filling srv;;
      extended_search srv fuel 1 0;;
      mret tt
  end.

(** What [random.sample(range(1, 1000), min(50, 1000))] can return: 50
    pairwise distinct identifiers of the low range. *)
Definition is_sample (random_ids : list Z) : Prop :=
  NoDup random_ids ∧ length random_ids = 50%nat ∧
  Forall (λ x, 1 ≤ x < 1000) random_ids.

(** ** [solve_puzzle] (lines 157-196)

    The function returns a string: the assembled message, or the empty
    string when the puzzle is not complete.  The message line carries text
    received from the service; the failure line is fixed text. *)
Definition solve_puzzle (srv : service) (random_ids : list Z) (fuel : nat) : M string :=
  smart_search_strategy srv random_ids fuel;;
  c ← complete;
  if (c : bool) then
    fr ← get fragments;
    message ← lift (get_assembled_message fr);
    write print ("Message: '" +:+ message +:+ "'");;
    mret message
  else
    modify (print "Failed to complete puzzle");;
    mret "".

(** The test [if message:] of [main] (line 210), the only reading a caller
    has of whether the puzzle was solved. *)
Definition reports_answer (message : string) : bool :=
  negb (bool_decide (message = "")).

(** ** [main] (lines 199-203) and the script body (lines 206-215)

    [main] builds a decoder with the default base URL and returns what
    [solve_puzzle] returns.  The script body prints the final answer when
    the returned string is not empty ([if message:]); when [solve_puzzle]
    or that [print] raises, it prints an error line instead: every
    exception of this model is an [Exception].  An interrupt from the
    keyboard is outside the model. *)
Definition main (srv : service) (stdout : string → bool) (random_ids : list Z)
    (fuel : nat) : outcome string :=
  solve_puzzle srv random_ids fuel (init "http://localhost:8888" stdout).

Inductive closing_line : Type :=
  | FinalAnswer (message : string)
  | NoLine
  | ErrorLine (e : exn).

(** The line [f"\n Final Answer: {message}"]. *)
Definition final_answer_line (message : string) : string :=
  String "010"%char (" Final Answer: " +:+ message).

Definition script (srv : service) (stdout : string → bool) (random_ids : list Z)
    (fuel : nat) : option closing_line :=
  match main srv stdout random_ids fuel with
  | Ret message _ =>
      Some (if reports_answer message then
              if stdout (final_answer_line message) then FinalAnswer message
              else ErrorLine UnicodeEncodeError
            else NoLine)
  | Raise e _ => Some (ErrorLine e)
  | OutOfFuel _ => None
  end.

(** * Vocabulary of the specification *)

(** The store is declared [Dict[int, Fragment]]: every key is an int. *)
Definition int_keyed (fr : gmap pyval Fragment) : Prop :=
  map_Forall (λ k _, is_int k) fr.

(** Every stored payload is a string, as [text: str] declares. *)
Definition str_texts (fr : gmap pyval Fragment) : Prop :=
  map_Forall (λ _ f, is_str (text f)) fr.

(** [M] is the maximum index held by the store. *)
Definition max_index (fr : gmap pyval Fragment) (M : Z) : Prop :=
  is_Some (fr !! VInt M) ∧ ∀ z, is_Some (fr !! VInt z) → z ≤ M.

(** Every integer of [[0, M]] is a key of the store. *)
Definition gapless (fr : gmap pyval Fragment) (M : Z) : Prop :=
  ∀ i, 0 ≤ i ≤ M → is_Some (fr !! VInt i).

(** The completeness invariant of the specification. *)
Definition store_complete (fr : gmap pyval Fragment) : Prop :=
  fr ≠ ∅ ∧ ∃ M, max_index fr M ∧ gapless fr M.

(** The fragment stored under a key carries that key as its index. *)
Definition store_wf (fr : gmap pyval Fragment) : Prop :=
  ∀ k f, fr !! k = Some f → index f = k.

(** The most recently ingested fragment of [found] that carries index [k]. *)
Definition last_with_index (k : pyval) (found : list Fragment) : option Fragment :=
  last (filter (λ f, index f = k) found).

(** ** Sample data used in the examples *)

(** A well-typed fragment whose identifier is [i], at index [ix]. *)
Definition frag (i ix : Z) (t : string) : Fragment :=
  mkFragment (VInt i) (VInt ix) (VStr t).

(** The store holding "A", "B", "C" at indices 0, 1, 2. *)
Definition store_abc : gmap pyval Fragment :=
  {[ VInt 0 := frag 10 0 "A"; VInt 1 := frag 11 1 "B"; VInt 2 := frag 12 2 "C" ]}.

(** The payload stored at index [i], when it is a string. *)
Definition payload_at (fr : gmap pyval Fragment) (i : Z) : string :=
  match fr !! VInt i with
  | Some f => match text f with VStr s => s | VInt _ => "" end
  | None => ""
  end.

(** [ks] lists the indices held by the store in ascending order. *)
Definition indices_held (fr : gmap pyval Fragment) (ks : list Z) : Prop :=
  StronglySorted Z.lt ks ∧ ∀ z, z ∈ ks ↔ is_Some (fr !! VInt z).

(** ** Postconditions of a run

    [post o R E F]: the run ended by returning [a] in a decoder satisfying
    [R a], by raising [e] in a decoder satisfying [E e], or by exhausting
    its budget in a decoder satisfying [F]. *)
Definition post {A} (o : outcome A)
    (R : A → PuzzleDecoder → Prop) (E : exn → PuzzleDecoder → Prop)
    (F : PuzzleDecoder → Prop) : Prop :=
  match o with
  | Ret a d => R a d
  | Raise e d => E e d
  | OutOfFuel d => F d
  end.


(** Every fragment the service delivers has the declared field types. *)
Definition well_typed (f : Fragment) : Prop :=
  is_int (id f) ∧ is_int (index f) ∧ is_str (text f).


(** The standard output can encode every line. *)
Definition shows_all (d : PuzzleDecoder) : Prop :=
  ∀ line, terminal d line = true.

(** A standard output that can encode every line, and one that can encode
    only lines of 7-bit characters. *)
Definition every_line : string → bool := λ _, true.

Definition ascii_only : string → bool := λ line,
  forallb (λ c, bool_decide (nat_of_ascii c < 128)%nat) (list_ascii_of_string line).

(** An invariant of the decoder under which nothing in the strategy can
    raise: keys are ints, payloads are strings, the concurrency limit is
    positive and the standard output can encode every line. *)
Definition safe (P : PuzzleDecoder → Prop) : Prop :=
  ∀ d, P d →
    int_keyed (fragments d) ∧ str_texts (fragments d) ∧ 0 < max_concurrent d
    ∧ shows_all d.

(** [runs_to srv d d']: [d'] is the decoder in which a batch, a phase, the
    whole strategy or [solve_puzzle], started in [d], ends. *)
Inductive runs_to (srv : service) : PuzzleDecoder → PuzzleDecoder → Prop :=
  | run_batch start_id batch_size d :
      runs_to srv d (snd (fetch_batch srv start_id batch_size d))
  | run_discovering random_ids d :
      runs_to srv d (final_state (discovering srv random_ids d))
  | run_gap_filling d :
      runs_to srv d (final_state (gap_filling srv d))
  | run_extended_search fuel search_id consecutive_failures d :
      runs_to srv d
        (final_state (extended_search srv fuel search_id consecutive_failures d))
  | run_strategy random_ids fuel d :
      runs_to srv d (final_state (smart_search_strategy srv random_ids fuel d))
  | run_solve random_ids fuel d :
      runs_to srv d (final_state (solve_puzzle srv random_ids fuel d)).

(** A service on which nothing is found. *)
Definition not_found : service := λ _ _, Response 404 None.

(** The decoder as [main] constructs it, in a process whose standard output
    can encode every line. *)
Definition fresh : PuzzleDecoder := init "http://localhost:8888" every_line.

(** A sample that [random.sample(range(1, 1000), 50)] can return. *)
Definition sample0 : list Z := [5; 900] ++ range 100 148.

(** A success response whose "index" field is a string. *)
Definition ill_typed_data : gmap string pyval :=
  {[ "id" := VInt 1; "index" := VStr "0"; "text" := VStr "x" ]}.

Definition ill_typed : service := λ _ _, Response 200 (Some (JObject ill_typed_data)).

(** A service that has a fragment for every identifier [k] from 1 on, at
    index [k]: no fragment with index 0 is ever delivered. *)
Definition echo : service := λ _ k,
  if bool_decide (1 ≤ k) then
    Response 200
      (Some (JObject {[ "id" := VInt k; "index" := VInt k; "text" := VStr "x" ]}))
  else Response 404 None.

(** Phase 3, started with the given loop variables, comes to an end
    (by leaving the loop or by raising) within some number of evaluations
    of the loop condition. *)
Definition extended_search_ends (srv : service) (search_id consecutive_failures : Z)
    (d : PuzzleDecoder) : Prop :=
  ∃ fuel,
    match extended_search srv fuel search_id consecutive_failures d with
    | OutOfFuel _ => False
    | _ => True
    end.

(** The number of loop iterations phase 3 needs at most on a service that
    delivers nothing more: one per remaining failure up to the ceiling, one
    per window that can consist of seen identifiers only (they all lie below
    [B]), and the final evaluation of the loop condition. *)
Definition silent_budget (search_id consecutive_failures B mc : Z) : nat :=
  (Z.to_nat (100 - consecutive_failures)
   + Z.to_nat ((B - search_id + mc - 1) `div` mc) + 1)%nat.

(** Every key of the store is an integer index that is at least 1. *)
Definition no_index_below_one (fr : gmap pyval Fragment) : Prop :=
  ∀ k f, fr !! k = Some f → ∃ z, k = VInt z ∧ 1 ≤ z.

(** The value a run returned, if it returned. *)
Definition returned {A} (o : outcome A) : option A :=
  match o with
  | Ret a _ => Some a
  | _ => None
  end.

(** The run neither returned nor raised within its budget. *)
Definition out_of_fuel {A} (o : outcome A) : Prop :=
  match o with
  | OutOfFuel _ => True
  | _ => False
  end.

(** The decoder holds a well-typed store and a positive concurrency limit. *)
Definition typed_decoder (d : PuzzleDecoder) : Prop :=
  int_keyed (fragments d) ∧ str_texts (fragments d) ∧ 0 < max_concurrent d.

(** A service whose every fragment sits at index 0 and has an empty text. *)
Definition blank : service := λ _ k,
  Response 200
    (Some (JObject {[ "id" := VInt k; "index" := VInt 0; "text" := VStr "" ]})).

(** What the ingestion loop leaves when every [print] succeeds. *)
Definition ingested (label : string) (found : list Fragment) (d : PuzzleDecoder)
  : PuzzleDecoder :=
  foldl (λ d1 f, print_progress (found_line label f) (store_fragment d1 f)) d found.

(** Between [d] and [d'] nothing happened but requests. *)
Definition idle (d d' : PuzzleDecoder) : Prop :=
  fragments d' = fragments d ∧ seen_ids d' = seen_ids d
  ∧ max_concurrent d' = max_concurrent d ∧ console d' = console d
  ∧ progress d' = progress d ∧ terminal d' = terminal d.

(** From the decoder [d] on the service delivers nothing: whatever requests
    follow those issued so far, no answer reads as a fragment. *)
Definition quiet_from (srv : service) (d : PuzzleDecoder) : Prop :=
  ∀ later k, read_fragment (srv (requests d ++ later)%list k) = None.

(** A service that answers its very first request with a fragment of
    index 1 and every later request with "not found", and the decoder that
    has made that first request, for identifier 7, and stored the
    fragment. *)
Definition first_only : service := λ history k,
  if bool_decide (history = []) then
    Response 200
      (Some (JObject {[ "id" := VInt k; "index" := VInt 1; "text" := VStr "late" ]}))
  else Response 404 None.

Definition after_first : PuzzleDecoder :=
  store_fragment (snd (fetch_fragment first_only 7 fresh)) (frag 7 1 "late").


(** The service delivers the fragment [f] for some request. *)
Definition delivered (srv : service) (f : Fragment) : Prop :=
  ∃ history k, read_fragment (srv history k) = Some f.

(** ** Services with a fixed catalogue *)

(** The service delivers for identifier [k] what the catalogue holds for
    [k], at every request. *)
Definition serves (srv : service) (catalog : Z → option Fragment) : Prop :=
  ∀ history k, read_fragment (srv history k) = catalog k.

(** A catalogue of two fragments: [f0] under identifier [i0] and [f1] under
    identifier [i1]. *)
Definition two_fragments (i0 i1 : Z) (f0 f1 : Fragment) : Z → option Fragment :=
  λ k, if bool_decide (k = i0) then Some f0
       else if bool_decide (k = i1) then Some f1
       else None.

(** The store that holds [f0] at index 0 when [i0] has been seen and [f1] at
    index 1 when [i1] has been seen. *)
Definition store_of (i0 i1 : Z) (f0 f1 : Fragment) (seen : gset Z)
  : gmap pyval Fragment :=
  (if decide (i0 ∈ seen) then {[ VInt 0 := f0 ]} else ∅)
  ∪ (if decide (i1 ∈ seen) then {[ VInt 1 := f1 ]} else ∅).

(** One probe: fetch the batch, then store what was found. *)
Definition probe (label : string) (srv : service) (start_id batch_size : Z)
    (d : PuzzleDecoder) : PuzzleDecoder :=
  ingested label (fst (fetch_batch srv start_id batch_size d))
           (snd (fetch_batch srv start_id batch_size d)).

(** The success response that carries the fields of [f]. *)
Definition response_of (f : Fragment) : http_outcome :=
  Response 200
    (Some (JObject {[ "id" := id f; "index" := index f; "text" := text f ]})).

(** The service of the end-to-end scenario: "Hello" at index 0 under
    identifier 5, "World" at index 1 under identifier 9, nothing else. *)
Definition hello_world : service := λ _ k,
  if bool_decide (k = 5) then response_of (frag 5 0 "Hello")
  else if bool_decide (k = 9) then response_of (frag 9 1 "World")
  else Response 404 None.

(** The store holds what the seen set says was delivered. *)
Definition mirrors (i0 i1 : Z) (f0 f1 : Fragment) (d : PuzzleDecoder) : Prop :=
  fragments d = store_of i0 i1 f0 f1 (seen_ids d).

(** The decoder between two probes of a run on the two-fragment catalogue
    when the fragment of index 0 has the smaller identifier: the store is in
    step with the seen set, only the two identifiers can be seen, and index
    0 is never held without index 1. *)
Definition steady (i0 i1 : Z) (f0 f1 : Fragment) (d : PuzzleDecoder) : Prop :=
  mirrors i0 i1 f0 f1 d
  ∧ max_concurrent d = 30
  ∧ seen_ids d ⊆ {[i0; i1]}
  ∧ (i0 ∈ seen_ids d → i1 ∈ seen_ids d)
  ∧ shows_all d.

(** The same two fragments, the second one under an identifier that the
    first batch of [sample0] does not reach. *)
Definition hello_world_apart : service := λ _ k,
  if bool_decide (k = 5) then response_of (frag 5 0 "Hello")
  else if bool_decide (k = 40) then response_of (frag 40 1 "World") else Response 404 None.

(** Every request issued so far was for an identifier from 1 upward, and the
    concurrency limit is positive. *)
Definition positive_requests (d : PuzzleDecoder) : Prop :=
  Forall (λ k, 1 ≤ k) (requests d) ∧ 0 < max_concurrent d.

(** The requests [new], issued after those of [d] and leading to [d'],
    respect the seen set: the seen set only grew; no identifier seen in [d]
    was requested; a request at which the service delivered a fragment was
    the last request of its identifier and put it in the seen set; and
    every identifier that joined the seen set did so at such a request. *)
Definition dedupes (srv : service) (d d' : PuzzleDecoder) (new : list Z) : Prop :=
  requests d' = (requests d ++ new)%list
  ∧ seen_ids d ⊆ seen_ids d'
  ∧ (∀ before k after, new = (before ++ k :: after)%list →
       (k ∉ seen_ids d)
       ∧ (is_Some (read_fragment (srv (requests d ++ before)%list k)) →
          (k ∉ after) ∧ k ∈ seen_ids d'))
  ∧ (∀ k, k ∈ seen_ids d' →
       k ∈ seen_ids d
       ∨ ∃ before after,
           new = (before ++ k :: after)%list
           ∧ is_Some (read_fragment (srv (requests d ++ before)%list k))).

(** A service that holds index 1 under identifier 5 and index 0 under
    identifier 50. *)
Definition late_zero : service := λ _ k,
  if bool_decide (k = 5) then response_of (frag 5 1 "World")
  else if bool_decide (k = 50) then response_of (frag 50 0 "Hello")
  else Response 404 None.
(** * Properties *)

(** ** Python built-ins *)

#[local] Instance VInt_inj : Inj (=) (=) VInt.
Proof. by intros a b [= ->]. Qed.

Lemma elem_of_range (x start stop : Z) : x ∈ range start stop ↔ start ≤ x < stop.
Proof.
  unfold range. rewrite list_elem_of_fmap. split.
  - intros (i & -> & Hi). apply elem_of_seq in Hi. lia.
  - intros H. exists (Z.to_nat (x - start)). split; [lia|].
    apply elem_of_seq. lia.
Qed.

Lemma length_range (start stop : Z) : length (range start stop) = Z.to_nat (stop - start).
Proof. unfold range. by rewrite length_fmap, length_seq. Qed.

Lemma range_nil (start stop : Z) : stop ≤ start → range start stop = [].
Proof. intros H. unfold range. by replace (Z.to_nat (stop - start)) with 0%nat by lia. Qed.

Lemma range_cons (start stop : Z) :
  start < stop → range start stop = start :: range (start + 1) stop.
Proof.
  intros H. unfold range.
  replace (Z.to_nat (stop - start)) with (S (Z.to_nat (stop - (start + 1)))) by lia.
  cbn [seq fmap list_fmap]. f_equal; [lia|].
  rewrite <- fmap_S_seq, <- list_fmap_compose.
  apply list_fmap_ext. intros _ i _. cbn. lia.
Qed.

Lemma NoDup_range (start stop : Z) : NoDup (range start stop).
Proof.
  unfold range. apply NoDup_fmap_2; [|apply NoDup_seq].
  intros i j. lia.
Qed.

Lemma py_max_from_ints (c : Z) (zs : list Z) :
  py_max_from (VInt c) (VInt <$> zs) = Ok (VInt (foldl Z.max c zs)).
Proof.
  revert c. induction zs as [|z zs IH]; intros c; [done|].
  cbn. rewrite <- IH. f_equal. case_bool_decide; f_equal; lia.
Qed.

Lemma foldl_max_spec (c : Z) (zs : list Z) :
  foldl Z.max c zs ∈ c :: zs ∧ Forall (λ z, z ≤ foldl Z.max c zs) (c :: zs).
Proof.
  revert c. induction zs as [|z zs IH]; intros c; cbn.
  - split; [apply list_elem_of_here|]. repeat constructor. lia.
  - destruct (IH (Z.max c z)) as [Hin Hall]. split.
    + apply elem_of_cons in Hin as [Hin|Hin].
      * rewrite Hin. destruct (Z.max_spec c z) as [[_ ->]|[_ ->]].
        -- apply list_elem_of_further, list_elem_of_here.
        -- apply list_elem_of_here.
      * by do 2 apply list_elem_of_further.
    + apply Forall_cons in Hall as [Hc Hall].
      repeat (apply Forall_cons; split); [lia|lia|done].
Qed.

(** A list of Python values that are all ints is the image of a list of
    integers. *)
Lemma all_ints_fmap (l : list pyval) :
  Forall (λ v, is_int v) l → ∃ zs, l = VInt <$> zs.
Proof.
  induction 1 as [|v l Hv _ [zs ->]]; [by exists []|].
  destruct v as [z|]; [|done]. by exists (z :: zs).
Qed.

(** A mixed list has no maximum, whatever the order of the items. *)
Lemma py_max_from_str_int (s : string) (l : list pyval) :
  Exists (λ v, is_int v) l → py_max_from (VStr s) l = Err TypeError.
Proof.
  revert s. induction l as [|v l IH]; intros s H; [by apply Exists_nil in H|].
  destruct v as [z|t]; [done|]. cbn.
  apply Exists_cons in H as [H|H]; [done|]. destruct (String.ltb s t); by apply IH.
Qed.

Lemma py_max_from_int_str (z : Z) (l : list pyval) :
  Exists (λ v, is_str v) l → py_max_from (VInt z) l = Err TypeError.
Proof.
  revert z. induction l as [|v l IH]; intros z H; [by apply Exists_nil in H|].
  destruct v as [y|t]; [|done]. cbn.
  apply Exists_cons in H as [H|H]; [done|]. case_bool_decide; by apply IH.
Qed.

Lemma py_max_from_strs (s : string) (l : list pyval) :
  Forall (λ v, is_str v) l → ∃ t, py_max_from (VStr s) l = Ok (VStr t).
Proof.
  revert s. induction l as [|v l IH]; intros s H; [by exists s|].
  apply Forall_cons in H as [Hv H]. destruct v as [|t]; [done|]. cbn.
  destruct (String.ltb s t); by apply IH.
Qed.

(** [max] does not depend on the order in which the keys are visited: on
    ints it is the greatest of them, on a mixed list it raises. *)
Lemma py_max_ints_Permutation (zs zs' : list Z) :
  zs ≡ₚ zs' → py_max (VInt <$> zs) = py_max (VInt <$> zs').
Proof.
  intros Hp. destruct zs as [|z zs], zs' as [|z' zs'].
  - done.
  - by apply Permutation_nil_l in Hp.
  - by apply Permutation_nil_r in Hp.
  - cbn [fmap list_fmap py_max].
    change (map VInt zs) with (VInt <$> zs). change (map VInt zs') with (VInt <$> zs').
    rewrite !py_max_from_ints. do 2 f_equal.
    destruct (foldl_max_spec z zs) as [Hin Hall].
    destruct (foldl_max_spec z' zs') as [Hin' Hall'].
    rewrite Forall_forall in Hall, Hall'.
    rewrite Hp in Hin. rewrite <- Hp in Hin'.
    specialize (Hall _ Hin'). specialize (Hall' _ Hin). lia.
Qed.

Lemma py_max_mixed (l : list pyval) :
  Exists (λ v, is_int v) l → Exists (λ v, is_str v) l → py_max l = Err TypeError.
Proof.
  destruct l as [|[z|s] l]; intros Hi Hs.
  - by apply Exists_nil in Hi.
  - apply Exists_cons in Hs as [Hs|Hs]; [done|]. by apply py_max_from_int_str.
  - apply Exists_cons in Hi as [Hi|Hi]; [done|]. by apply py_max_from_str_int.
Qed.

(** ** The completeness check *)

Lemma keys_elem_of (fr : gmap pyval Fragment) (k : pyval) :
  k ∈ keys fr ↔ is_Some (fr !! k).
Proof.
  unfold keys. rewrite list_elem_of_fmap. split.
  - intros ([k' f] & -> & H). apply elem_of_map_to_list in H. by exists f.
  - intros [f H]. exists (k, f). split; [done|]. by apply elem_of_map_to_list.
Qed.

Lemma keys_nil (fr : gmap pyval Fragment) : keys fr = [] → fr = ∅.
Proof.
  unfold keys. intros H. apply fmap_nil_inv in H. by apply map_to_list_empty_iff.
Qed.

Lemma int_keyed_keys (fr : gmap pyval Fragment) :
  int_keyed fr → ∃ zs, keys fr = VInt <$> zs.
Proof.
  intros H. apply all_ints_fmap, Forall_forall. intros k Hk.
  apply keys_elem_of in Hk as [f Hf]. exact (H k f Hf).
Qed.

(** On a non-empty store with int keys the check finds the maximum index
    [M] and tests every integer of [range(M + 1)]. *)
Lemma is_puzzle_complete_int_keyed (fr : gmap pyval Fragment) :
  int_keyed fr → fr ≠ ∅ →
  ∃ M, max_index fr M ∧
       is_puzzle_complete fr
       = Ok (forallb (λ i, bool_decide (is_Some (fr !! VInt i))) (range 0 (M + 1))).
Proof.
  intros Hint Hne. unfold is_puzzle_complete.
  rewrite bool_decide_eq_false_2 by done.
  destruct (int_keyed_keys fr Hint) as [zs Hzs].
  destruct zs as [|z zs].
  { exfalso. apply Hne. by apply keys_nil. }
  rewrite Hzs. cbn [fmap list_fmap py_max]. change (map VInt zs) with (VInt <$> zs).
  rewrite py_max_from_ints. cbn [py_succ].
  exists (foldl Z.max z zs). split; [|done].
  destruct (foldl_max_spec z zs) as [Hin Hall]. split.
  - apply keys_elem_of. rewrite Hzs. by apply list_elem_of_fmap_2.
  - intros y Hy. apply keys_elem_of in Hy. rewrite Hzs in Hy.
    apply list_elem_of_fmap in Hy as (y' & [= ->] & Hy').
    rewrite Forall_forall in Hall. by apply Hall.
Qed.

Lemma max_index_unique (fr : gmap pyval Fragment) (M N : Z) :
  max_index fr M → max_index fr N → M = N.
Proof. intros [HM1 HM2] [HN1 HN2]. specialize (HM2 N HN1). specialize (HN2 M HM1). lia. Qed.

Lemma forallb_range_gapless (fr : gmap pyval Fragment) (M : Z) :
  forallb (λ i, bool_decide (is_Some (fr !! VInt i))) (range 0 (M + 1)) = true
  ↔ gapless fr M.
Proof.
  rewrite forallb_forall. unfold gapless. split.
  - intros H i Hi. eapply bool_decide_eq_true_1, H.
    apply list_elem_of_In, elem_of_range. lia.
  - intros H i Hi. apply bool_decide_eq_true_2, H.
    apply list_elem_of_In, elem_of_range in Hi. lia.
Qed.

Lemma is_puzzle_complete_iff (fr : gmap pyval Fragment) :
  int_keyed fr → (is_puzzle_complete fr = Ok true ↔ store_complete fr).
Proof.
  intros Hint. unfold store_complete. destruct (decide (fr = ∅)) as [->|Hne].
  { unfold is_puzzle_complete. rewrite bool_decide_eq_true_2 by done.
    split; [done|]. by intros [? _]. }
  destruct (is_puzzle_complete_int_keyed fr Hint Hne) as (M & HM & ->).
  split.
  - intros [= H]. split; [done|]. exists M. split; [done|].
    by apply forallb_range_gapless.
  - intros (_ & N & HN & Hgap). f_equal.
    rewrite (max_index_unique _ _ _ HM HN). by apply forallb_range_gapless.
Qed.

Lemma is_puzzle_complete_empty : is_puzzle_complete ∅ = Ok false.
Proof. unfold is_puzzle_complete. by rewrite bool_decide_eq_true_2. Qed.

(** On a store with int keys the check never raises. *)
Lemma is_puzzle_complete_total (fr : gmap pyval Fragment) :
  int_keyed fr → ∃ b, is_puzzle_complete fr = Ok b.
Proof.
  intros Hint. destruct (decide (fr = ∅)) as [->|Hne].
  { exists false. unfold is_puzzle_complete. by rewrite bool_decide_eq_true_2. }
  destruct (is_puzzle_complete_int_keyed fr Hint Hne) as (M & _ & ->). eauto.
Qed.

Lemma py_max_from_str_result (s : string) (l : list pyval) (v : pyval) :
  py_max_from (VStr s) l = Ok v → is_str v.
Proof.
  revert s. induction l as [|x l IH]; intros s; cbn.
  - by intros [= <-].
  - destruct x as [|t]; [done|]. cbn. destruct (String.ltb s t); apply IH.
Qed.

Lemma py_max_from_int_result (z : Z) (l : list pyval) (v : pyval) :
  py_max_from (VInt z) l = Ok v → Forall (λ x, is_int x) l.
Proof.
  revert z. induction l as [|x l IH]; intros z; cbn; [by constructor|].
  destruct x as [y|]; [|done]. cbn. intros H. constructor; [done|].
  destruct (bool_decide (z < y)); eapply IH, H.
Qed.

(** If the check returns at all, every key of the store is an int. *)
Lemma is_puzzle_complete_Ok_int_keyed (fr : gmap pyval Fragment) (b : bool) :
  is_puzzle_complete fr = Ok b → int_keyed fr.
Proof.
  unfold is_puzzle_complete. case_bool_decide as Hfr.
  { intros _. subst fr. apply map_Forall_empty. }
  destruct (keys fr) as [|k l] eqn:Hkeys; [done|]. cbn [py_max].
  destruct (py_max_from k l) as [m|] eqn:Hmax; [|done].
  destruct m as [M|]; [|done]. intros _.
  assert (Forall (λ x, is_int x) (k :: l)) as Hall.
  { destruct k as [z|s].
    - constructor; [done|]. by eapply py_max_from_int_result.
    - by apply py_max_from_str_result in Hmax. }
  intros k' f Hf. rewrite Forall_forall in Hall. apply Hall.
  rewrite <- Hkeys. apply keys_elem_of. by exists f.
Qed.

(** ** Ingestion into the store *)

Lemma fragments_store_all_snoc (found : list Fragment) (f : Fragment) (d : PuzzleDecoder) :
  fragments (store_all (found ++ [f]) d)
  = <[index f := f]> (fragments (store_all found d)).
Proof. unfold store_all. by rewrite foldl_snoc. Qed.

Lemma last_with_index_snoc (k : pyval) (found : list Fragment) (f : Fragment) :
  last_with_index k (found ++ [f])
  = if decide (index f = k) then Some f else last_with_index k found.
Proof.
  unfold last_with_index. rewrite filter_app, filter_cons, filter_nil.
  destruct (decide (index f = k)).
  - by rewrite last_snoc.
  - by rewrite app_nil_r.
Qed.

(** Last write wins. *)
Lemma store_all_lookup (found : list Fragment) (d : PuzzleDecoder) (k : pyval) :
  fragments (store_all found d) !! k
  = from_option Some (fragments d !! k) (last_with_index k found).
Proof.
  induction found as [|f found IH] using rev_ind; [done|].
  rewrite fragments_store_all_snoc, last_with_index_snoc, lookup_insert.
  destruct (decide (index f = k)); [done|]. exact IH.
Qed.

Lemma last_with_index_Some (k : pyval) (found : list Fragment) (f : Fragment) :
  last_with_index k found = Some f → f ∈ found ∧ index f = k.
Proof.
  unfold last_with_index. intros H. apply last_Some_elem_of in H.
  by apply list_elem_of_filter in H as [? ?].
Qed.

Lemma last_with_index_None (k : pyval) (found : list Fragment) :
  last_with_index k found = None ↔ k ∉ index <$> found.
Proof.
  unfold last_with_index. rewrite last_None. split.
  - intros H Hk. apply list_elem_of_fmap in Hk as (f & -> & Hf).
    assert (f ∈ filter (λ f0, index f0 = index f) found) as Hin
      by by apply list_elem_of_filter.
    rewrite H in Hin. by apply not_elem_of_nil in Hin.
  - intros H. induction found as [|f found IH]; [done|].
    rewrite fmap_cons, not_elem_of_cons in H. destruct H as [H1 H2].
    rewrite filter_cons, decide_False by done. by apply IH.
Qed.

Lemma store_all_is_Some (found : list Fragment) (d : PuzzleDecoder) (k : pyval) :
  is_Some (fragments (store_all found d) !! k)
  ↔ k ∈ index <$> found ∨ is_Some (fragments d !! k).
Proof.
  rewrite store_all_lookup.
  destruct (last_with_index k found) as [f|] eqn:Hl; cbn.
  - apply last_with_index_Some in Hl as [Hin <-]. split; [|by eauto].
    intros _. left. by apply list_elem_of_fmap_2.
  - apply last_with_index_None in Hl. split; [by right|]. by intros [?|?].
Qed.

Lemma store_all_wf (found : list Fragment) (d : PuzzleDecoder) :
  store_wf (fragments d) → store_wf (fragments (store_all found d)).
Proof.
  intros Hwf k f. rewrite store_all_lookup.
  destruct (last_with_index k found) as [g|] eqn:Hl; cbn.
  - intros [= <-]. by apply last_with_index_Some in Hl as [_ ?].
  - apply Hwf.
Qed.

(** In a well-formed store no two stored fragments share an index. *)
Lemma store_wf_NoDup_index (fr : gmap pyval Fragment) :
  store_wf fr → NoDup (index <$> (map_to_list fr).*2).
Proof.
  intros Hwf.
  assert (index <$> (map_to_list fr).*2 = (map_to_list fr).*1) as ->.
  { rewrite <- list_fmap_compose. apply list_fmap_ext.
    intros i [k f] Hkf. cbn. apply Hwf.
    apply elem_of_map_to_list. by eapply list_elem_of_lookup_2. }
  apply NoDup_fst_map_to_list.
Qed.

(** A store whose keys are exactly the integers of [ks]. *)
Lemma int_keyed_of_keys (fr : gmap pyval Fragment) (ks : list Z) :
  (∀ k, is_Some (fr !! k) ↔ k ∈ VInt <$> ks) → int_keyed fr.
Proof.
  intros H k f Hf. assert (k ∈ VInt <$> ks) as Hk by (apply H; by exists f).
  by apply list_elem_of_fmap in Hk as (z & -> & _).
Qed.

Lemma store_all_keys_perm (found : list Fragment) (d : PuzzleDecoder) (ks : list pyval) :
  fragments d = ∅ → index <$> found ≡ₚ ks →
  ∀ k, is_Some (fragments (store_all found d) !! k) ↔ k ∈ ks.
Proof.
  intros Hd Hp k. rewrite store_all_is_Some, Hd, lookup_empty, Hp.
  split; [|by left]. intros [?|[? ?]]; done.
Qed.

(** ** Assembly of the message *)

#[local] Instance int_item_le_trans : Transitive int_item_le.
Proof. intros a b c. unfold int_item_le. lia. Qed.

#[local] Instance int_item_le_total : Total int_item_le.
Proof. intros a b. unfold int_item_le. lia. Qed.

#[local] Instance Z_lt_antisymm : AntiSymm (=) Z.lt.
Proof. intros a b. lia. Qed.

Lemma StronglySorted_lt_NoDup (ks : list Z) : StronglySorted Z.lt ks → NoDup ks.
Proof.
  induction 1 as [|k ks _ IH Hk]; constructor; [|done].
  intros Hin. rewrite Forall_forall in Hk. specialize (Hk k Hin). lia.
Qed.

Lemma StronglySorted_le_lt (ks : list Z) :
  StronglySorted Z.le ks → NoDup ks → StronglySorted Z.lt ks.
Proof.
  induction 1 as [|k ks _ IH Hk]; intros Hnd; constructor.
  - apply IH. by apply NoDup_cons in Hnd as [_ ?].
  - apply NoDup_cons in Hnd as [Hnotin _].
    rewrite Forall_forall in Hk |- *. intros z Hz.
    specialize (Hk z Hz). assert (z ≠ k) by (by intros ->). lia.
Qed.

Lemma StronglySorted_range (start stop : Z) : StronglySorted Z.lt (range start stop).
Proof.
  remember (Z.to_nat (stop - start)) as n eqn:Hn. revert start Hn.
  induction n as [|n IH]; intros start Hn.
  - rewrite range_nil by lia. constructor.
  - rewrite range_cons by lia. constructor; [apply IH; lia|].
    apply Forall_forall. intros z Hz. apply elem_of_range in Hz. lia.
Qed.

(** The ascending list of the indices held is unique. *)
Lemma indices_held_unique (fr : gmap pyval Fragment) (ks ks' : list Z) :
  indices_held fr ks → indices_held fr ks' → ks = ks'.
Proof.
  intros [Hs Hk] [Hs' Hk']. apply (StronglySorted_unique Z.lt); [done..|].
  apply NoDup_Permutation; [by apply StronglySorted_lt_NoDup..|].
  intros z. by rewrite Hk, Hk'.
Qed.

Lemma indices_held_of_keys (fr : gmap pyval Fragment) (ks : list Z) :
  (∀ k, is_Some (fr !! k) ↔ k ∈ VInt <$> ks) → StronglySorted Z.lt ks →
  indices_held fr ks.
Proof.
  intros Hk Hs. split; [done|]. intros z. rewrite Hk. split.
  - by apply list_elem_of_fmap_2.
  - intros Hz. by apply list_elem_of_fmap in Hz as (z' & [= ->] & ?).
Qed.

(** The items of an int-keyed store, sorted the way [sorted] sorts them,
    carry the indices held in ascending order. *)
Lemma key_int_items (fr : gmap pyval Fragment) (items : list (pyval * Fragment)) :
  int_keyed fr → items ≡ₚ map_to_list fr → VInt <$> (key_int <$> items) = items.*1.
Proof.
  intros Hint Hp. rewrite <- list_fmap_compose. apply list_fmap_ext.
  intros i [k f] Hi. cbn. unfold key_int. cbn.
  assert ((k, f) ∈ map_to_list fr) as Hin
    by (rewrite <- Hp; by eapply list_elem_of_lookup_2).
  apply elem_of_map_to_list in Hin. specialize (Hint k f Hin).
  by destruct k.
Qed.

Lemma sorted_indices_held (fr : gmap pyval Fragment) :
  int_keyed fr →
  indices_held fr (key_int <$> merge_sort int_item_le (map_to_list fr)).
Proof.
  intros Hint. set (items := merge_sort int_item_le (map_to_list fr)).
  assert (items ≡ₚ map_to_list fr) as Hp by apply merge_sort_Permutation.
  pose proof (key_int_items fr items Hint Hp) as Hkeys.
  assert (NoDup (key_int <$> items)) as Hnd.
  { apply (NoDup_fmap_1 VInt). rewrite Hkeys, Hp. apply NoDup_fst_map_to_list. }
  split.
  - apply StronglySorted_le_lt; [|done].
    eapply StronglySorted_fmap; cycle 1.
    + apply (StronglySorted_merge_sort int_item_le); apply _.
    + by intros a b.
  - intros z. rewrite <- keys_elem_of. unfold keys. rewrite <- Hp, <- Hkeys.
    split; [apply list_elem_of_fmap_2|].
    intros Hz. by apply list_elem_of_fmap in Hz as (z' & [= ->] & ?).
Qed.

Lemma py_sorted_int_keyed (fr : gmap pyval Fragment) :
  int_keyed fr →
  py_sorted (map_to_list fr) = Ok (merge_sort int_item_le (map_to_list fr)).
Proof.
  intros Hint. unfold py_sorted.
  assert (forallb (λ kv, is_int kv.1) (map_to_list fr) = true) as ->; [|done].
  apply forallb_forall. intros [k f] Hin. cbn.
  apply list_elem_of_In, elem_of_map_to_list in Hin.
  apply Is_true_true. exact (Hint k f Hin).
Qed.

Lemma py_join_payloads (fr : gmap pyval Fragment) (items : list (pyval * Fragment)) :
  int_keyed fr → str_texts fr → items ⊆ map_to_list fr →
  py_join " " ((λ kv, text kv.2) <$> items)
  = Ok (join " " (payload_at fr <$> (key_int <$> items))).
Proof.
  intros Hint Hstr Hsub. unfold py_join.
  assert (strings_of ((λ kv, text kv.2) <$> items)
          = Ok (payload_at fr <$> (key_int <$> items))) as ->; [|done].
  induction items as [|[k f] items IH]; [done|].
  assert (fr !! k = Some f) as Hkf.
  { apply elem_of_map_to_list, Hsub, list_elem_of_here. }
  pose proof (Hint k f Hkf) as Hk. pose proof (Hstr k f Hkf) as Ht. cbn in Hk, Ht.
  destruct k as [z|]; [|done].
  cbn. destruct (text f) as [|s] eqn:Htext; [done|].
  rewrite IH by (intros x Hx; apply Hsub; by apply list_elem_of_further).
  unfold payload_at at 2. cbn. by rewrite Hkf, Htext.
Qed.

(** The message assembled from a complete, well-typed store. *)
Lemma get_assembled_message_complete (fr : gmap pyval Fragment) :
  int_keyed fr → str_texts fr → is_puzzle_complete fr = Ok true →
  ∃ ks, indices_held fr ks ∧
        get_assembled_message fr = Ok (join " " (payload_at fr <$> ks)).
Proof.
  intros Hint Hstr Hc.
  exists (key_int <$> merge_sort int_item_le (map_to_list fr)).
  split; [by apply sorted_indices_held|].
  unfold get_assembled_message. rewrite Hc, py_sorted_int_keyed by done.
  apply py_join_payloads; [done..|].
  intros x Hx. by rewrite merge_sort_Permutation in Hx.
Qed.

Lemma get_assembled_message_keys (fr : gmap pyval Fragment) (ks : list Z) :
  int_keyed fr → str_texts fr → is_puzzle_complete fr = Ok true →
  indices_held fr ks →
  get_assembled_message fr = Ok (join " " (payload_at fr <$> ks)).
Proof.
  intros Hint Hstr Hc Hks.
  destruct (get_assembled_message_complete fr Hint Hstr Hc) as (ks' & Hks' & ->).
  by rewrite (indices_held_unique fr ks ks').
Qed.

Lemma store_all_elem (found : list Fragment) (d : PuzzleDecoder) (k : pyval) (f : Fragment) :
  fragments (store_all found d) !! k = Some f → f ∈ found ∨ fragments d !! k = Some f.
Proof.
  rewrite store_all_lookup. destruct (last_with_index k found) as [g|] eqn:Hl; cbn.
  - intros [= <-]. left. by apply last_with_index_Some in Hl as [? _].
  - by right.
Qed.

Lemma NoDup_index_inj (found : list Fragment) (f g : Fragment) :
  NoDup (index <$> found) → f ∈ found → g ∈ found → index f = index g → f = g.
Proof.
  induction found as [|h found IH]; intros Hnd Hf Hg Heq.
  { by apply not_elem_of_nil in Hf. }
  rewrite fmap_cons in Hnd. apply NoDup_cons in Hnd as [Hh Hnd].
  apply elem_of_cons in Hf as [->|Hf]; apply elem_of_cons in Hg as [->|Hg].
  - done.
  - exfalso. apply Hh. rewrite Heq. by apply list_elem_of_fmap_2.
  - exfalso. apply Hh. rewrite <- Heq. by apply list_elem_of_fmap_2.
  - by apply IH.
Qed.

(** When the ingested fragments carry pairwise distinct indices, each of
    them ends up in the store, whatever the order of ingestion. *)
Lemma store_all_lookup_NoDup (found : list Fragment) (d : PuzzleDecoder) (f : Fragment) :
  NoDup (index <$> found) → f ∈ found →
  fragments (store_all found d) !! index f = Some f.
Proof.
  intros Hnd Hf. rewrite store_all_lookup.
  destruct (last_with_index (index f) found) as [g|] eqn:Hl; cbn.
  - apply last_with_index_Some in Hl as [Hg Heq].
    f_equal. by apply (NoDup_index_inj found).
  - apply last_with_index_None in Hl. exfalso. apply Hl.
    by apply list_elem_of_fmap_2.
Qed.

Lemma complete_of_keys_012 (fr : gmap pyval Fragment) :
  (∀ k, is_Some (fr !! k) ↔ k ∈ [VInt 0; VInt 1; VInt 2]) →
  is_puzzle_complete fr = Ok true.
Proof.
  intros Hk.
  apply is_puzzle_complete_iff; [by apply (int_keyed_of_keys _ [0; 1; 2])|].
  split.
  - intros Hfr. specialize (Hk (VInt 0)). rewrite Hfr, lookup_empty in Hk.
    destruct (proj2 Hk) as [? ?]; [set_solver|done].
  - exists 2. split; [split|].
    + apply Hk. set_solver.
    + intros z Hz. apply Hk in Hz. set_solver by lia.
    + intros i Hi. apply Hk.
      assert (i = 0 ∨ i = 1 ∨ i = 2) as [->|[->| ->]] by lia; set_solver.
Qed.

Lemma incomplete_of_keys_02 (fr : gmap pyval Fragment) :
  (∀ k, is_Some (fr !! k) ↔ k ∈ [VInt 0; VInt 2]) →
  is_puzzle_complete fr = Ok false.
Proof.
  intros Hk.
  assert (int_keyed fr) as Hint by by apply (int_keyed_of_keys _ [0; 2]).
  destruct (is_puzzle_complete_total _ Hint) as [[|] Hb]; [|done].
  exfalso. apply is_puzzle_complete_iff in Hb as (_ & M & [HM1 HM2] & Hgap); [|done].
  assert (2 ≤ M) as HM by (apply HM2, Hk; set_solver).
  assert (is_Some (fr !! VInt 1)) as H1 by (apply Hgap; lia).
  apply Hk in H1. set_solver.
Qed.

Lemma complete_singleton (z : Z) (f : Fragment) :
  z ≤ 0 → is_puzzle_complete {[VInt z := f]} = Ok true.
Proof.
  intros Hz. apply is_puzzle_complete_iff.
  { by apply map_Forall_singleton. }
  split; [apply map_non_empty_singleton|].
  exists z. split; [split|].
  - rewrite lookup_singleton_eq. eauto.
  - intros y [g Hg]. apply lookup_singleton_Some in Hg as [[= ->] _]. lia.
  - intros i Hi. assert (i = z) as -> by lia. rewrite lookup_singleton_eq. eauto.
Qed.

Lemma assembled_singleton (z : Z) (f : Fragment) (t : string) :
  z ≤ 0 → text f = VStr t → get_assembled_message {[VInt z := f]} = Ok t.
Proof.
  intros Hz Ht.
  rewrite (get_assembled_message_keys _ [z]).
  - cbn. unfold payload_at. by rewrite lookup_singleton_eq, Ht.
  - by apply map_Forall_singleton.
  - apply map_Forall_singleton. by rewrite Ht.
  - by apply complete_singleton.
  - apply indices_held_of_keys; [|repeat constructor].
    intros k. change (VInt <$> [z]) with [VInt z].
    rewrite list_elem_of_singleton. split.
    + intros [g Hg]. by apply lookup_singleton_Some in Hg as [<- _].
    + intros ->. rewrite lookup_singleton_eq. eauto.
Qed.

(** ** The store: claims *)

(** C2.  Whatever the store (of declared type [Dict[int, Fragment]]),
    [is_puzzle_complete] returns, and it returns [True] exactly when the
    store is non-empty and every integer from 0 to the maximum index held is
    a key.  Fragments with indices 0, 1, 2 ingested in any order give a
    complete store; fragments with indices 0 and 2 give an incomplete one. *)
Theorem is_puzzle_complete_spec :
  (∀ fr : gmap pyval Fragment, int_keyed fr →
     (∃ b, is_puzzle_complete fr = Ok b) ∧
     (is_puzzle_complete fr = Ok true
      ↔ fr ≠ ∅ ∧ ∃ M, max_index fr M ∧ ∀ i, 0 ≤ i ≤ M → is_Some (fr !! VInt i)))
  ∧ (∀ (found : list Fragment) (d : PuzzleDecoder),
       fragments d = ∅ → index <$> found ≡ₚ [VInt 0; VInt 1; VInt 2] →
       is_puzzle_complete (fragments (store_all found d)) = Ok true)
  ∧ (∀ (found : list Fragment) (d : PuzzleDecoder),
       fragments d = ∅ → index <$> found ≡ₚ [VInt 0; VInt 2] →
       is_puzzle_complete (fragments (store_all found d)) = Ok false).
Proof.
  split; [|split].
  - intros fr Hint. split; [by apply is_puzzle_complete_total|].
    by apply is_puzzle_complete_iff.
  - intros found d Hd Hp. by apply complete_of_keys_012, store_all_keys_perm.
  - intros found d Hd Hp. by apply incomplete_of_keys_02, store_all_keys_perm.
Qed.

Lemma is_puzzle_complete_spec_witness :
  (∃ b, is_puzzle_complete store_abc = Ok b) ∧
  (is_puzzle_complete store_abc = Ok true
   ↔ store_abc ≠ ∅ ∧
     ∃ M, max_index store_abc M ∧ ∀ i, 0 ≤ i ≤ M → is_Some (store_abc !! VInt i)).
Proof.
  apply (proj1 is_puzzle_complete_spec store_abc).
  apply map_Forall_to_list. vm_compute. repeat constructor.
Defined.

(** C4.  Ingesting any sequence of fetched fragments into a store in which
    every fragment sits under its own index leaves such a store: no two
    stored fragments share an index, and each key holds the most recently
    ingested fragment carrying that index (or what it held before, when no
    ingested fragment carries it). *)
Theorem store_all_last_write_wins (found : list Fragment) (d : PuzzleDecoder) :
  store_wf (fragments d) →
  store_wf (fragments (store_all found d))
  ∧ NoDup (index <$> (map_to_list (fragments (store_all found d))).*2)
  ∧ ∀ k, fragments (store_all found d) !! k
         = match last_with_index k found with
           | Some f => Some f
           | None => fragments d !! k
           end.
Proof.
  intros Hwf. pose proof (store_all_wf found d Hwf) as Hwf'.
  split; [done|]. split; [by apply store_wf_NoDup_index|].
  intros k. rewrite store_all_lookup. by destruct (last_with_index k found).
Qed.

Lemma store_all_last_write_wins_witness :
  let found := [frag 5 0 "old"; frag 9 1 "World"; frag 7 0 "Hello"] in
  let d := init "http://localhost:8888" every_line in
  store_wf (fragments (store_all found d))
  ∧ NoDup (index <$> (map_to_list (fragments (store_all found d))).*2)
  ∧ ∀ k, fragments (store_all found d) !! k
         = match last_with_index k found with
           | Some f => Some f
           | None => fragments d !! k
           end.
Proof.
  apply (store_all_last_write_wins
           [frag 5 0 "old"; frag 9 1 "World"; frag 7 0 "Hello"]
           (init "http://localhost:8888" every_line)).
  intros k f H. cbn in H. by rewrite lookup_empty in H.
Defined.

(** C3.  On a complete store (keys ints, payloads strings)
    [get_assembled_message] returns the payloads taken in ascending index
    order and joined with one space; on an incomplete store it returns the
    empty string.  Texts "A", "B", "C" at indices 0, 1, 2 assemble to
    "A B C" whatever the order of ingestion, and a store holding only
    index 0 assembles to that fragment's text alone. *)
Theorem get_assembled_message_spec :
  (∀ fr : gmap pyval Fragment, int_keyed fr → str_texts fr →
     (store_complete fr →
      ∃ ks, indices_held fr ks ∧
            get_assembled_message fr = Ok (join " " (payload_at fr <$> ks)))
     ∧ (¬ store_complete fr → get_assembled_message fr = Ok ""))
  ∧ (∀ (found : list Fragment) (d : PuzzleDecoder) (ia ib ic : pyval),
       fragments d = ∅ →
       found ≡ₚ [mkFragment ia (VInt 0) (VStr "A");
                 mkFragment ib (VInt 1) (VStr "B");
                 mkFragment ic (VInt 2) (VStr "C")] →
       get_assembled_message (fragments (store_all found d)) = Ok "A B C")
  ∧ (∀ (f : Fragment) (t : string),
       text f = VStr t → get_assembled_message {[VInt 0 := f]} = Ok t).
Proof.
  split; [|split].
  - intros fr Hint Hstr. split.
    + intros Hc. apply is_puzzle_complete_iff in Hc; [|done].
      by apply get_assembled_message_complete.
    + intros Hc. destruct (is_puzzle_complete_total fr Hint) as [[|] Hb].
      * by apply is_puzzle_complete_iff in Hb.
      * unfold get_assembled_message. by rewrite Hb.
  - intros found d ia ib ic Hd Hp.
    set (fr := fragments (store_all found d)).
    assert (index <$> found ≡ₚ [VInt 0; VInt 1; VInt 2]) as Hpi by by rewrite Hp.
    pose proof (store_all_keys_perm found d _ Hd Hpi) as Hk. fold fr in Hk.
    assert (NoDup (index <$> found)) as Hnd.
    { rewrite Hpi. apply (NoDup_fmap_2 VInt [0; 1; 2]). apply (NoDup_range 0 3). }
    assert (∀ f, f ∈ found → fr !! index f = Some f) as Hget
      by (intros f Hf; by apply store_all_lookup_NoDup).
    assert (fr !! VInt 0 = Some (mkFragment ia (VInt 0) (VStr "A"))) as H0
      by (apply (Hget (mkFragment ia (VInt 0) (VStr "A"))); rewrite Hp; set_solver).
    assert (fr !! VInt 1 = Some (mkFragment ib (VInt 1) (VStr "B"))) as H1
      by (apply (Hget (mkFragment ib (VInt 1) (VStr "B"))); rewrite Hp; set_solver).
    assert (fr !! VInt 2 = Some (mkFragment ic (VInt 2) (VStr "C"))) as H2
      by (apply (Hget (mkFragment ic (VInt 2) (VStr "C"))); rewrite Hp; set_solver).
    rewrite (get_assembled_message_keys fr [0; 1; 2]).
    + cbn. unfold payload_at. by rewrite H0, H1, H2.
    + by apply (int_keyed_of_keys _ [0; 1; 2]).
    + intros k f Hf. apply store_all_elem in Hf as [Hf|Hf].
      * rewrite Hp in Hf. apply list_elem_of_In in Hf. cbn in Hf.
        by destruct Hf as [<-|[<-|[<-|[]]]].
      * by rewrite Hd, lookup_empty in Hf.
    + by apply complete_of_keys_012.
    + apply indices_held_of_keys; [done|]. apply (StronglySorted_range 0 3).
  - intros f t Ht. by apply assembled_singleton.
Qed.

Lemma get_assembled_message_spec_witness :
  (store_complete store_abc →
   ∃ ks, indices_held store_abc ks ∧
         get_assembled_message store_abc = Ok (join " " (payload_at store_abc <$> ks)))
  ∧ (¬ store_complete store_abc → get_assembled_message store_abc = Ok "").
Proof.
  apply (proj1 get_assembled_message_spec store_abc).
  - apply map_Forall_to_list. vm_compute. repeat constructor.
  - apply map_Forall_to_list. vm_compute. repeat constructor.
Defined.

(** C10.  The index delivered by the service is stored as it comes, without
    a test that it is non-negative.  A non-empty store whose maximum index
    is negative counts as complete, and its message is the join of its
    payloads in ascending index order; a store holding a single fragment at
    index -1 is complete and assembles to that fragment's text. *)
Theorem negative_index_counts_as_complete :
  (∀ (i ix t : pyval),
     read_fragment
       (Response 200 (Some (JObject {[ "id" := i; "index" := ix; "text" := t ]})))
     = Some (mkFragment i ix t))
  ∧ (∀ (fr : gmap pyval Fragment) (M : Z),
       int_keyed fr → max_index fr M → M < 0 →
       is_puzzle_complete fr = Ok true
       ∧ (str_texts fr →
          ∃ ks, indices_held fr ks ∧
                get_assembled_message fr = Ok (join " " (payload_at fr <$> ks))))
  ∧ (∀ (f : Fragment) (t : string),
       text f = VStr t →
       is_puzzle_complete {[VInt (-1) := f]} = Ok true
       ∧ get_assembled_message {[VInt (-1) := f]} = Ok t).
Proof.
  split; [|split].
  - intros i ix t. unfold read_fragment. cbn. by simplify_map_eq.
  - intros fr M Hint HM Hneg.
    assert (is_puzzle_complete fr = Ok true) as Hc.
    { apply is_puzzle_complete_iff; [done|]. split.
      - intros ->. destruct HM as [[? H] _]. by rewrite lookup_empty in H.
      - exists M. split; [done|]. intros i Hi. lia. }
    split; [done|]. intros Hstr. by apply get_assembled_message_complete.
  - intros f t Ht. split; [by apply complete_singleton|by apply assembled_singleton].
Qed.

Lemma negative_index_counts_as_complete_witness :
  is_puzzle_complete {[ VInt (-3) := frag 7 (-3) "x"; VInt (-1) := frag 8 (-1) "y" ]}
  = Ok true
  ∧ (str_texts {[ VInt (-3) := frag 7 (-3) "x"; VInt (-1) := frag 8 (-1) "y" ]} →
     ∃ ks,
       indices_held {[ VInt (-3) := frag 7 (-3) "x"; VInt (-1) := frag 8 (-1) "y" ]} ks ∧
       get_assembled_message
         {[ VInt (-3) := frag 7 (-3) "x"; VInt (-1) := frag 8 (-1) "y" ]}
       = Ok (join " "
               (payload_at
                  {[ VInt (-3) := frag 7 (-3) "x"; VInt (-1) := frag 8 (-1) "y" ]}
                  <$> ks))).
Proof.
  apply (proj1 (proj2 negative_index_counts_as_complete) _ (-1)).
  - apply map_Forall_to_list. vm_compute. repeat constructor.
  - split.
    + by exists (frag 8 (-1) "y").
    + intros z [f Hf].
      apply lookup_insert_Some in Hf as [[[= <-] _]|[_ Hf]]; [lia|].
      apply lookup_singleton_Some in Hf as [[= <-] _]. lia.
  - lia.
Defined.

(** ** A single fetch *)

Lemma fetch_fragment_seen (srv : service) (k : Z) (d : PuzzleDecoder) :
  k ∈ seen_ids d → fetch_fragment srv k d = (None, d).
Proof. intros H. unfold fetch_fragment. by rewrite bool_decide_eq_true_2. Qed.

Lemma fetch_fragment_unseen (srv : service) (k : Z) (d : PuzzleDecoder) :
  k ∉ seen_ids d →
  fetch_fragment srv k d
  = match read_fragment (srv (requests d) k) with
    | Some f => (Some f, set_seen_ids ({[k]} ∪ seen_ids d) (log_request k d))
    | None => (None, log_request k d)
    end.
Proof. intros H. unfold fetch_fragment. by rewrite bool_decide_eq_false_2. Qed.

(** What a fetch leaves untouched, and how it changes the rest. *)
Lemma fetch_fragment_frame (srv : service) (k : Z) (d : PuzzleDecoder) :
  let d' := (fetch_fragment srv k d).2 in
  fragments d' = fragments d ∧ max_concurrent d' = max_concurrent d ∧
  console d' = console d ∧ base_url d' = base_url d.
Proof.
  unfold fetch_fragment. case_bool_decide; [done|].
  by destruct (read_fragment _).
Qed.

Lemma fetch_fragment_requests (srv : service) (k : Z) (d : PuzzleDecoder) :
  requests ((fetch_fragment srv k d).2)
  = (requests d ++ (if decide (k ∈ seen_ids d) then [] else [k]))%list.
Proof.
  unfold fetch_fragment. case_bool_decide as Hk.
  - rewrite decide_True by done. cbn. by rewrite app_nil_r.
  - rewrite decide_False by done. by destruct (read_fragment _).
Qed.

Lemma fetch_fragment_seen_ids (srv : service) (k : Z) (d : PuzzleDecoder) :
  seen_ids ((fetch_fragment srv k d).2)
  = match (fetch_fragment srv k d).1 with
    | Some _ => {[k]} ∪ seen_ids d
    | None => seen_ids d
    end.
Proof.
  unfold fetch_fragment. case_bool_decide; [done|].
  by destruct (read_fragment _).
Qed.

Lemma fetch_fragment_Some (srv : service) (k : Z) (d : PuzzleDecoder) (f : Fragment) :
  fst (fetch_fragment srv k d) = Some f →
  (k ∉ seen_ids d) ∧ read_fragment (srv (requests d) k) = Some f.
Proof.
  unfold fetch_fragment. case_bool_decide; [done|].
  destruct (read_fragment _); [|done]. by intros [= ->].
Qed.

(** ** A batch *)

Lemma filter_ext_in {A} (P Q : A → Prop) `{!∀ x, Decision (P x)} `{!∀ x, Decision (Q x)}
    (l : list A) :
  (∀ x, x ∈ l → (P x ↔ Q x)) → filter P l = filter Q l.
Proof.
  induction l as [|a l IH]; intros Hext; [done|].
  rewrite !filter_cons, IH by (intros x Hx; apply Hext; by right).
  destruct (decide (P a)) as [HP|HP].
  - rewrite decide_True; [done|]. apply Hext; [by left|done].
  - rewrite decide_False; [done|]. intros HQ. apply HP, Hext; [by left|done].
Qed.

Lemma gather_frame (srv : service) (ids : list Z) (d : PuzzleDecoder) :
  let d' := (gather srv ids d).2 in
  fragments d' = fragments d ∧ max_concurrent d' = max_concurrent d ∧
  console d' = console d ∧ base_url d' = base_url d.
Proof.
  revert d. induction ids as [|k ids IH]; intros d; [done|]. cbn.
  destruct (fetch_fragment srv k d) as [r d1] eqn:Hf.
  specialize (IH d1). destruct (gather srv ids d1) as [rs d2]. cbn in *.
  pose proof (fetch_fragment_frame srv k d) as H. rewrite Hf in H. cbn in H.
  destruct IH as (-> & -> & -> & ->). done.
Qed.

(** A batch of pairwise distinct identifiers requests exactly those of its
    identifiers that were not seen when the batch started, in order. *)
Lemma gather_requests (srv : service) (ids : list Z) (d : PuzzleDecoder) :
  NoDup ids →
  requests ((gather srv ids d).2)
  = (requests d ++ filter (λ x, x ∉ seen_ids d) ids)%list.
Proof.
  revert d. induction ids as [|k ids IH]; intros d Hnd.
  { cbn. by rewrite app_nil_r. }
  apply NoDup_cons in Hnd as [Hk Hnd]. rewrite filter_cons. cbn [gather].
  destruct (fetch_fragment srv k d) as [r d1] eqn:Hf.
  specialize (IH d1 Hnd). destruct (gather srv ids d1) as [rs d2]. cbn [snd] in *.
  rewrite IH.
  pose proof (fetch_fragment_requests srv k d) as Hr.
  pose proof (fetch_fragment_seen_ids srv k d) as Hs.
  rewrite Hf in Hr, Hs. cbn [fst snd] in Hr, Hs. rewrite Hr.
  assert (filter (λ x, x ∉ seen_ids d1) ids = filter (λ x, x ∉ seen_ids d) ids) as ->.
  { apply filter_ext_in. intros x Hx. rewrite Hs.
    destruct r; [|done]. set_solver. }
  destruct (decide (k ∈ seen_ids d)).
  - rewrite decide_False by (by intros ?). by rewrite app_nil_r.
  - rewrite decide_True by done. by rewrite <- app_assoc.
Qed.

Lemma gather_seen_ids (srv : service) (ids : list Z) (d : PuzzleDecoder) :
  seen_ids d ⊆ seen_ids ((gather srv ids d).2) ∧
  seen_ids ((gather srv ids d).2) ⊆ seen_ids d ∪ list_to_set ids.
Proof.
  revert d. induction ids as [|k ids IH]; intros d; [set_solver|]. cbn.
  destruct (fetch_fragment srv k d) as [r d1] eqn:Hf.
  specialize (IH d1). destruct (gather srv ids d1) as [rs d2]. cbn in *.
  pose proof (fetch_fragment_seen_ids srv k d) as Hs.
  rewrite Hf in Hs. cbn in Hs. destruct r; set_solver.
Qed.

(** ** Reasoning about runs *)

Lemma post_bind {A B} (m : M A) (f : A → M B) (d : PuzzleDecoder)
    (R' : A → PuzzleDecoder → Prop) (R : B → PuzzleDecoder → Prop)
    (E : exn → PuzzleDecoder → Prop) (F : PuzzleDecoder → Prop) :
  post (m d) R' E F →
  (∀ a d', R' a d' → post (f a d') R E F) →
  post ((m ≫= f) d) R E F.
Proof.
  unfold mbind, M_bind. intros Hm Hf. destruct (m d) as [a d'|e d'|d']; cbn in *; auto.
Qed.

Lemma post_mono {A} (o : outcome A)
    (R R' : A → PuzzleDecoder → Prop) (E E' : exn → PuzzleDecoder → Prop)
    (F F' : PuzzleDecoder → Prop) :
  post o R E F →
  (∀ a d, R a d → R' a d) → (∀ e d, E e d → E' e d) → (∀ d, F d → F' d) →
  post o R' E' F'.
Proof. destruct o; cbn; auto. Qed.

Lemma post_lift {A} (r : result A) (d : PuzzleDecoder) :
  post (lift r d) (λ a d', d' = d ∧ r = Ok a) (λ e d', d' = d ∧ r = Err e) (λ _, False).
Proof. by destruct r. Qed.

Lemma post_complete (d : PuzzleDecoder) :
  post (complete d)
       (λ b d', d' = d ∧ is_puzzle_complete (fragments d) = Ok b)
       (λ e d', d' = d ∧ is_puzzle_complete (fragments d) = Err e)
       (λ _, False).
Proof. unfold complete. apply post_lift. Qed.

(** Slices taken at the loop indices are never empty. *)
Lemma range_step_bounds (n step : Z) (starts : list Z) :
  range_step 0 n step = Ok starts → 0 < step → Forall (λ i, 0 ≤ i < n) starts.
Proof.
  unfold range_step. intros H Hstep.
  rewrite bool_decide_eq_false_2 in H by lia.
  rewrite bool_decide_eq_true_2 in H by lia. injection H as <-.
  apply Forall_forall. intros i Hi.
  apply list_elem_of_fmap in Hi as (k & -> & Hk). apply elem_of_seq in Hk.
  assert (0 ≤ Z.of_nat k) by lia.
  destruct (decide (n ≤ 0)) as [Hn|Hn].
  { assert ((n - 0 + step - 1) `div` step < 1); [|lia].
    apply Z.div_lt_upper_bound; lia. }
  assert (Z.of_nat k < (n - 0 + step - 1) `div` step) as Hlt by lia.
  split; [lia|].
  assert (Z.of_nat k + 1 ≤ (n - 0 + step - 1) `div` step) as Hle by lia.
  assert (step * (Z.of_nat k + 1) ≤ n - 0 + step - 1); [|lia].
  etransitivity; [|apply (Z.mul_div_le _ step); lia].
  apply Z.mul_le_mono_nonneg_l; lia.
Qed.

Lemma range_step_zero (start stop : Z) : range_step start stop 0 = Err ValueError.
Proof. done. Qed.

Lemma range_step_negative (n step : Z) :
  0 ≤ n → step < 0 → range_step 0 n step = Ok [].
Proof.
  intros Hn Hstep. unfold range_step.
  rewrite bool_decide_eq_false_2 by lia. rewrite bool_decide_eq_false_2 by lia.
  replace (Z.to_nat ((0 - n - step - 1) `div` (- step))) with 0%nat; [done|].
  assert ((0 - n - step - 1) `div` (- step) < 1); [|lia].
  apply Z.div_lt_upper_bound; lia.
Qed.

Lemma range_step_Ok (n step : Z) :
  step ≠ 0 → ∃ starts, range_step 0 n step = Ok starts.
Proof.
  intros H. unfold range_step. rewrite bool_decide_eq_false_2 by done.
  case_bool_decide; eauto.
Qed.

Lemma py_slice_nonempty {A} (l : list A) (i width : Z) :
  0 ≤ i < Z.of_nat (length l) → 0 < width → py_slice l i (i + width) ≠ [].
Proof.
  intros Hi Hw. unfold py_slice, slice_bound.
  rewrite !bool_decide_eq_false_2 by lia.
  intros H. apply (f_equal length) in H. rewrite length_take, length_drop in H.
  cbn in H. lia.
Qed.

Lemma fetch_batch_of_nil (srv : service) (d : PuzzleDecoder) :
  fetch_batch_of srv [] d = Raise IndexError d.
Proof. done. Qed.

Lemma fetch_batch_of_cons (srv : service) (first : Z) (rest : list Z) (d : PuzzleDecoder) :
  fetch_batch_of srv (first :: rest) d
  = Ret (fst (fetch_batch srv first (Z.of_nat (length (first :: rest))) d))
        (snd (fetch_batch srv first (Z.of_nat (length (first :: rest))) d)).
Proof. unfold fetch_batch_of. by destruct (fetch_batch _ _ _ _). Qed.

Lemma fetch_batch_unfold (srv : service) (start n : Z) (d : PuzzleDecoder) :
  fetch_batch srv start n d
  = (omap (λ r, r) (fst (gather srv (range start (start + n)) d)),
     snd (gather srv (range start (start + n)) d)).
Proof. unfold fetch_batch. by destruct (gather _ _ _). Qed.

Lemma py_max_keys_int_keyed (fr : gmap pyval Fragment) :
  int_keyed fr → fr ≠ ∅ → ∃ M, py_max (keys fr) = Ok (VInt M).
Proof.
  intros Hint Hne. destruct (int_keyed_keys fr Hint) as [zs Hzs].
  destruct zs as [|z zs].
  { exfalso. apply Hne. by apply keys_nil. }
  rewrite Hzs. cbn [fmap list_fmap py_max]. change (map VInt zs) with (VInt <$> zs).
  rewrite py_max_from_ints. eauto.
Qed.

Lemma get_assembled_message_total (fr : gmap pyval Fragment) :
  int_keyed fr → str_texts fr → ∃ s, get_assembled_message fr = Ok s.
Proof.
  intros Hint Hstr. destruct (is_puzzle_complete_total fr Hint) as [[|] Hb].
  - destruct (get_assembled_message_complete fr Hint Hstr Hb) as (ks & _ & ->). eauto.
  - unfold get_assembled_message. rewrite Hb. eauto.
Qed.

(** ** Invariants of the search

    A property [P] of the decoder that every fetch and every store of a
    delivered fragment preserves is preserved by the whole search; when [P]
    is [safe], the search does not raise. *)

Section invariant.
Context (srv : service) (P : PuzzleDecoder → Prop) (Q : Fragment → Prop).
Hypothesis fetch_P : ∀ k d, P d →
  P (snd (fetch_fragment srv k d)) ∧
  ∀ f, fst (fetch_fragment srv k d) = Some f → Q f.
Hypothesis store_P : ∀ d f, P d → Q f → P (store_fragment d f).
Hypothesis progress_P : ∀ line d, P d → P (print_progress line d).

Lemma gather_inv (ids : list Z) (d : PuzzleDecoder) :
  P d →
  P (snd (gather srv ids d)) ∧
  Forall (λ r, ∀ f, r = Some f → Q f) (fst (gather srv ids d)).
Proof.
  revert d. induction ids as [|k ids IH]; intros d Hd; [by split|].
  cbn [gather]. destruct (fetch_P k d Hd) as [HP HQ].
  destruct (fetch_fragment srv k d) as [r d1]. cbn [fst snd] in *.
  destruct (IH d1 HP) as [HP' HQ'].
  destruct (gather srv ids d1) as [rs d2]. cbn [fst snd] in *.
  split; [done|]. by constructor.
Qed.

Lemma fetch_batch_inv (start n : Z) (d : PuzzleDecoder) :
  P d →
  P (snd (fetch_batch srv start n d)) ∧ Forall Q (fst (fetch_batch srv start n d)).
Proof.
  intros Hd. rewrite fetch_batch_unfold. cbn [fst snd].
  destruct (gather_inv (range start (start + n)) d Hd) as [HP HQ].
  split; [done|]. apply Forall_forall. intros f Hf.
  apply list_elem_of_omap in Hf as (r & Hr & ->).
  rewrite Forall_forall in HQ. by apply (HQ (Some f)).
Qed.

Lemma store_all_inv (found : list Fragment) (d : PuzzleDecoder) :
  P d → Forall Q found → P (store_all found d).
Proof.
  revert d. induction found as [|f found IH]; intros d Hd HQ; [done|].
  apply Forall_cons in HQ as [Hf HQ]. cbn. apply IH; [|done]. by apply store_P.
Qed.

(** The ingestion loop: it raises only when the standard output cannot
    encode a line. *)
Lemma ingest_inv (label : string) (found : list Fragment) (d : PuzzleDecoder) :
  P d → Forall Q found →
  post (ingest label found d)
       (λ _ d', P d') (λ _ d', P d' ∧ ¬ safe P) (λ _, False).
Proof.
  revert d. induction found as [|f found IH]; intros d Hd HQ; [done|].
  apply Forall_cons in HQ as [Hf HQ].
  cbn [ingest]. unfold mbind, M_bind. unfold modify at 1. unfold write at 1.
  pose proof (store_P d f Hd Hf) as Hd1.
  destruct (terminal (store_fragment d f) (found_line label f)) eqn:Ht.
  - apply IH; [by apply progress_P|done].
  - cbn. split; [done|]. intros Hs. destruct (Hs _ Hd1) as (_ & _ & _ & Hall).
    by rewrite Hall in Ht.
Qed.

(** One probe: fetch the batch. *)
Lemma probe_inv (batch : list Z) (d : PuzzleDecoder) :
  P d →
  post (fetch_batch_of srv batch d)
       (λ found d', P d' ∧ Forall Q found)
       (λ _ d', P d' ∧ batch = [])
       (λ _, False).
Proof.
  intros Hd. destruct batch as [|first rest]; [done|].
  rewrite fetch_batch_of_cons. cbn [post].
  by apply fetch_batch_inv.
Qed.

Lemma complete_raises_unsafe (d : PuzzleDecoder) (e : exn) :
  P d → is_puzzle_complete (fragments d) = Err e → ¬ safe P.
Proof.
  intros Hd He Hsafe. destruct (Hsafe d Hd) as (Hint & _).
  destruct (is_puzzle_complete_total _ Hint) as [b Hb]. congruence.
Qed.

Lemma discover_batches_inv (random_ids : list Z) (batch_size : Z)
    (starts : list Z) (d : PuzzleDecoder) :
  P d →
  post (discover_batches srv random_ids batch_size starts d)
       (λ fl d', P d' ∧
          (fl = Return → is_puzzle_complete (fragments d') = Ok true))
       (λ _ d', P d' ∧
          ¬ (safe P ∧
             Forall (λ i, py_slice random_ids i (i + batch_size) ≠ []) starts))
       (λ _, False).
Proof.
  revert d. induction starts as [|i starts IH]; intros d Hd; [by split|].
  cbn [discover_batches]. unfold mbind, M_bind.
  pose proof (probe_inv (py_slice random_ids i (i + batch_size)) d Hd) as Hprobe.
  destruct (fetch_batch_of _ _ d) as [found d1|e d1|d1]; cbn [post] in Hprobe.
  - destruct Hprobe as [Hd1 HQ].
    pose proof (ingest_inv "Found fragment " found d1 Hd1 HQ) as Hin.
    destruct (ingest _ found d1) as [[] d2|e d2|d2]; cbn [post] in Hin.
    + unfold complete at 1, lift.
      destruct (is_puzzle_complete (fragments d2)) as [c|e] eqn:Hc.
      * destruct c; [by split|].
        eapply post_mono; [by apply IH|done| |done].
        intros e d' [Hd' Hbad]. split; [done|]. intros [Hs Hall].
        apply Hbad. split; [done|]. by apply Forall_cons in Hall as [_ ?].
      * cbn. split; [done|]. intros [Hs _].
        by apply (complete_raises_unsafe _ _ Hin Hc).
    + cbn. destruct Hin as [? Hbad]. split; [done|]. by intros [? _].
    + done.
  - destruct Hprobe as [Hd1 Hnil]. cbn. split; [done|]. intros [_ Hall].
    by apply Forall_cons in Hall as [? _].
  - done.
Qed.

Lemma discovering_inv (random_ids : list Z) (d : PuzzleDecoder) :
  P d →
  post (discovering srv random_ids d)
       (λ fl d', P d' ∧
          (fl = Return → is_puzzle_complete (fragments d') = Ok true))
       (λ _ d', P d' ∧ ¬ (safe P ∧ random_ids ≠ []))
       (λ _, False).
Proof.
  intros Hd. unfold discovering, mbind, M_bind, get, lift.
  set (n := Z.of_nat (length random_ids)).
  set (bs := Z.min (max_concurrent d) n).
  destruct (range_step 0 n bs) as [starts|e] eqn:Hstarts.
  - eapply post_mono; [by apply discover_batches_inv|done| |done].
    intros e d' [Hd' Hbad]. split; [done|]. intros [Hs Hne].
    apply Hbad. split; [done|].
    destruct (Hs d Hd) as (_ & _ & Hmc & _).
    assert (0 < n) by (subst n; destruct random_ids; [done|cbn; lia]).
    assert (0 < bs) by lia.
    eapply Forall_impl; [by eapply range_step_bounds|].
    intros i Hi. cbn in Hi. by apply py_slice_nonempty.
  - cbn. split; [done|]. intros [Hs Hne].
    destruct (Hs d Hd) as (_ & _ & Hmc & _).
    assert (0 < n) by (subst n; destruct random_ids; [done|cbn; lia]).
    destruct (range_step_Ok n bs) as [? ?]; [lia|congruence].
Qed.

Lemma gap_batches_inv (remaining_ids : list Z) (starts : list Z) (d : PuzzleDecoder) :
  P d →
  post (gap_batches srv remaining_ids starts d)
       (λ _ d', P d')
       (λ _ d', P d' ∧
          ¬ (safe P ∧
             Forall (λ i, 0 ≤ i < Z.of_nat (length remaining_ids)) starts))
       (λ _, False).
Proof.
  revert d. induction starts as [|i starts IH]; intros d Hd; [done|].
  cbn [gap_batches]. unfold mbind, M_bind. unfold complete at 1, lift.
  destruct (is_puzzle_complete (fragments d)) as [c|e] eqn:Hc.
  - destruct c; [done|]. unfold get at 1.
    pose proof (probe_inv
                  (py_slice remaining_ids i (i + max_concurrent d)) d Hd) as Hprobe.
    destruct (fetch_batch_of _ _ d) as [found d1|e d1|d1]; cbn [post] in Hprobe.
    + destruct Hprobe as [Hd1 HQ].
      pose proof (ingest_inv "Found missing fragment " found d1 Hd1 HQ) as Hin.
      destruct (ingest _ found d1) as [[] d2|e d2|d2]; cbn [post] in Hin.
      * eapply post_mono; [by apply IH|done| |done].
        intros e d' [Hd' Hbad]. split; [done|]. intros [Hs Hall].
        apply Hbad. split; [done|]. by apply Forall_cons in Hall as [_ ?].
      * cbn. destruct Hin as [? Hbad]. split; [done|]. by intros [? _].
      * done.
    + destruct Hprobe as [Hd1 Hnil]. cbn. split; [done|]. intros [Hs Hall].
      apply Forall_cons in Hall as [Hi _]. destruct (Hs d Hd) as (_ & _ & Hmc & _).
      by apply (py_slice_nonempty remaining_ids i (max_concurrent d)).
    + done.
  - cbn. split; [done|]. intros [Hs _]. by apply (complete_raises_unsafe _ _ Hd Hc).
Qed.

Lemma gap_filling_inv (d : PuzzleDecoder) :
  P d →
  post (gap_filling srv d) (λ _ d', P d') (λ _ d', P d' ∧ ¬ safe P) (λ _, False).
Proof.
  intros Hd. unfold gap_filling, mbind, M_bind, get, lift.
  case_bool_decide as Hfr; [done|].
  destruct (py_max (keys (fragments d))) as [m|e] eqn:Hmax; cycle 1.
  { cbn. split; [done|]. intros Hs. destruct (Hs d Hd) as (Hint & _).
    destruct (py_max_keys_int_keyed _ Hint Hfr) as [M HM]. congruence. }
  destruct (py_succ m) as [stop|e] eqn:Hstop; cycle 1.
  { cbn. split; [done|]. intros Hs. destruct (Hs d Hd) as (Hint & _).
    destruct (py_max_keys_int_keyed _ Hint Hfr) as [M HM].
    rewrite HM in Hmax. by injection Hmax as <-. }
  destruct (filter _ (range 0 stop)) as [|missing rest]; [done|].
  set (remaining_ids := filter (λ x, x ∉ seen_ids d) (range 1 10000)).
  destruct (range_step 0 (Z.of_nat (length remaining_ids)) (max_concurrent d))
    as [starts|e] eqn:Hstarts.
  - eapply post_mono; [by apply gap_batches_inv|done| |done].
    intros e d' [Hd' Hbad]. split; [done|]. intros Hs. apply Hbad. split; [done|].
    destruct (Hs d Hd) as (_ & _ & Hmc & _). by eapply range_step_bounds.
  - cbn. split; [done|]. intros Hs. destruct (Hs d Hd) as (_ & _ & Hmc & _).
    destruct (range_step_Ok (Z.of_nat (length remaining_ids)) (max_concurrent d))
      as [? ?]; [lia|congruence].
Qed.

Lemma extended_search_inv (fuel : nat) (search_id consecutive_failures : Z)
    (d : PuzzleDecoder) :
  P d →
  post (extended_search srv fuel search_id consecutive_failures d)
       (λ _ d', P d') (λ _ d', P d' ∧ ¬ safe P) P.
Proof.
  revert search_id consecutive_failures d.
  induction fuel as [|fuel IH]; intros search_id cf d Hd; [done|].
  cbn [extended_search]. unfold mbind, M_bind. unfold complete at 1, lift.
  destruct (is_puzzle_complete (fragments d)) as [c|e] eqn:Hc; cycle 1.
  { cbn. split; [done|]. by apply (complete_raises_unsafe _ _ Hd Hc). }
  destruct (negb c && bool_decide (cf < 100)); [|done].
  unfold get at 1 2.
  destruct (filter _ (range search_id (search_id + max_concurrent d)))
    as [|first rest] eqn:Hbatch; [by apply IH|].
  pose proof (probe_inv (first :: rest) d Hd) as Hprobe.
  destruct (fetch_batch_of _ _ d) as [found d1|e d1|d1]; cbn [post] in Hprobe.
  - destruct Hprobe as [Hd1 HQ]. destruct found as [|f found]; [by apply IH|].
    pose proof (ingest_inv "Found fragment " (f :: found) d1 Hd1 HQ) as Hin.
    destruct (ingest _ (f :: found) d1) as [[] d2|e d2|d2]; cbn [post] in Hin.
    + by apply IH.
    + done.
    + done.
  - by destruct Hprobe as [_ ?].
  - done.
Qed.

Lemma smart_search_strategy_inv (random_ids : list Z) (fuel : nat) (d : PuzzleDecoder) :
  P d →
  post (smart_search_strategy srv random_ids fuel d)
       (λ _ d', P d')
       (λ _ d', P d' ∧ ¬ (safe P ∧ random_ids ≠ []))
       P.
Proof.
  intros Hd. unfold smart_search_strategy, mbind, M_bind.
  pose proof (discovering_inv random_ids d Hd) as H1.
  destruct (discovering srv random_ids d) as [fl d1|e d1|d1]; cbn [post] in H1;
    [|done..].
  destruct H1 as [H1 _]. destruct fl; [|done].
  pose proof (gap_filling_inv d1 H1) as H2.
  destruct (gap_filling srv d1) as [[] d2|e d2|d2]; cbn [post] in H2; [| |done].
  - pose proof (extended_search_inv fuel 1 0 d2 H2) as H3.
    destruct (extended_search srv fuel 1 0 d2) as [r d3|e d3|d3]; cbn [post] in H3.
    + done.
    + cbn. destruct H3 as [? Hbad]. split; [done|]. by intros [? _].
    + done.
  - cbn. destruct H2 as [? Hbad]. split; [done|]. by intros [? _].
Qed.

Hypothesis print_P : ∀ line d, P d → P (print line d).

Lemma solve_puzzle_inv (random_ids : list Z) (fuel : nat) (d : PuzzleDecoder) :
  P d →
  post (solve_puzzle srv random_ids fuel d)
       (λ _ d', P d')
       (λ _ d', P d' ∧ ¬ (safe P ∧ random_ids ≠ []))
       P.
Proof.
  intros Hd. unfold solve_puzzle, mbind, M_bind.
  pose proof (smart_search_strategy_inv random_ids fuel d Hd) as H1.
  destruct (smart_search_strategy srv random_ids fuel d) as [[] d1|e d1|d1];
    cbn [post] in H1; [|done..].
  unfold complete at 1, lift.
  destruct (is_puzzle_complete (fragments d1)) as [c|e] eqn:Hc; cycle 1.
  { cbn. split; [done|]. intros [Hs _]. by apply (complete_raises_unsafe _ _ H1 Hc). }
  destruct c.
  - unfold get at 1.
    destruct (get_assembled_message (fragments d1)) as [message|e] eqn:Hmsg; cbn.
    + unfold write. destruct (terminal d1 _) eqn:Ht; cbn.
      * by apply print_P.
      * split; [done|]. intros [Hs _]. destruct (Hs d1 H1) as (_ & _ & _ & Hall).
        by rewrite Hall in Ht.
    + split; [done|]. intros [Hs _]. destruct (Hs d1 H1) as (Hint & Hstr & _).
      destruct (get_assembled_message_total _ Hint Hstr) as [? ?]. congruence.
  - cbn. by apply print_P.
Qed.
End invariant.

Lemma final_state_inv {A} (o : outcome A) (P : PuzzleDecoder → Prop) (X : Prop) :
  post o (λ _ d, P d) (λ _ d, P d ∧ X) P → P (final_state o).
Proof. destruct o; cbn; [done| |done]. by intros [? _]. Qed.

Lemma final_state_inv' {A} (o : outcome A) (P : PuzzleDecoder → Prop) (X : Prop) :
  post o (λ _ d, P d) (λ _ d, P d ∧ X) (λ _, False) → P (final_state o).
Proof. destruct o; cbn; [done| |done]. by intros [? _]. Qed.

(** Any property that every fetch, every store of a delivered fragment and
    every successful [print] preserves holds where a batch, a phase or a
    whole run ends, however it ends. *)
Lemma runs_to_inv (srv : service) (P : PuzzleDecoder → Prop) (Q : Fragment → Prop)
    (d d' : PuzzleDecoder) :
  (∀ k d1, P d1 →
     P (snd (fetch_fragment srv k d1)) ∧
     ∀ f, fst (fetch_fragment srv k d1) = Some f → Q f) →
  (∀ d1 f, P d1 → Q f → P (store_fragment d1 f)) →
  (∀ line d1, P d1 → P (print line d1) ∧ P (print_progress line d1)) →
  runs_to srv d d' → P d → P d'.
Proof.
  intros Hfetch Hstore Hprint Hrun H0.
  assert (∀ line d1, P d1 → P (print_progress line d1)) as Hprogress
    by (intros line d1 H1; by apply Hprint).
  assert (∀ line d1, P d1 → P (print line d1)) as Hline
    by (intros line d1 H1; by apply Hprint).
  destruct Hrun.
  - by apply (fetch_batch_inv srv P Q).
  - apply (final_state_inv' _ _ True). eapply post_mono;
      [by apply (discovering_inv srv P Q)|..|done]; by intros ?? [? _].
  - eapply final_state_inv'. by apply (gap_filling_inv srv P Q).
  - eapply final_state_inv. by apply (extended_search_inv srv P Q).
  - eapply final_state_inv. by apply (smart_search_strategy_inv srv P Q).
  - eapply final_state_inv. by apply (solve_puzzle_inv srv P Q).
Qed.

(** ** The seen set *)

(** C5 (the code on probes that find nothing).  A fetch that completes
    without a fragment does not put its identifier in the seen set, and the
    identifier is dispatched again later.  On a service that answers "not
    found" to everything, identifier 5 is requested by the first batch of
    phase 1 and stays out of the set; the whole run requests 5, ..., 34 and
    128, ..., 147 in phase 1 and then 1, ..., 3000 in phase 3, so every
    identifier from 5 to 34 is requested twice, and the seen set is empty
    at the end although 3050 requests were issued. *)
Theorem failed_probes_are_dispatched_again :
  fst (fetch_fragment not_found 5 fresh) = None
  ∧ requests (snd (fetch_fragment not_found 5 fresh)) = [5]
  ∧ (5 ∉ seen_ids (snd (fetch_fragment not_found 5 fresh)))
  ∧ returned (solve_puzzle not_found sample0 101 fresh) = Some ""
  ∧ requests (final_state (solve_puzzle not_found sample0 101 fresh))
    = (range 5 35 ++ range 128 148 ++ range 1 3001)%list
  ∧ count_occ Z.eq_dec (requests (final_state (solve_puzzle not_found sample0 101 fresh))) 5
    = 2%nat
  ∧ seen_ids (final_state (solve_puzzle not_found sample0 101 fresh)) = ∅.
Proof.
  split; [done|]. split; [done|]. split; [set_solver|].
  assert (requests (final_state (solve_puzzle not_found sample0 101 fresh))
          = (range 5 35 ++ range 128 148 ++ range 1 3001)%list) as Hreq
    by by vm_compute.
  rewrite Hreq. split; [by vm_compute|]. split; [done|].
  split; by vm_compute.
Qed.

(** ** Which identifiers a batch probes *)

(** The call [fetch_batch(session, batch[0], len(batch))] requests the
    unseen identifiers of the contiguous range that starts at [batch[0]] and
    has the length of the batch. *)
Lemma fetch_batch_requests (srv : service) (start_id batch_size : Z) (d : PuzzleDecoder) :
  requests (snd (fetch_batch srv start_id batch_size d))
  = (requests d
     ++ filter (λ x, x ∉ seen_ids d) (range start_id (start_id + batch_size)))%list.
Proof. rewrite fetch_batch_unfold. cbn [snd]. apply gather_requests, NoDup_range. Qed.

Lemma fetch_batch_of_requests (srv : service) (first : Z) (rest : list Z) (d : PuzzleDecoder) :
  requests (final_state (fetch_batch_of srv (first :: rest) d))
  = (requests d
     ++ filter (λ x, x ∉ seen_ids d)
          (range first (first + Z.of_nat (length (first :: rest)))))%list.
Proof. rewrite fetch_batch_of_cons. cbn [final_state]. apply fetch_batch_requests. Qed.

Lemma sample0_is_sample : is_sample sample0.
Proof.
  split; [|split].
  - apply (bool_decide_unpack _). by vm_compute.
  - done.
  - apply (bool_decide_unpack _). by vm_compute.
Qed.

(** C1 (the code at a sample that is not contiguous).  With the sample
    [5, 900, 100, 101, ..., 147] and a service on which nothing is found,
    phase 1 requests 5, 6, ..., 34 and then 128, ..., 147: identifier 900 of
    the sample is never probed, and identifier 6, which is not in the
    sample, is. *)
Theorem discovering_probes_contiguous_ranges :
  is_sample sample0
  ∧ requests (final_state (discovering not_found sample0 fresh))
    = (range 5 35 ++ range 128 148)%list
  ∧ 900 ∈ sample0
  ∧ (900 ∉ requests (final_state (discovering not_found sample0 fresh)))
  ∧ (6 ∉ sample0)
  ∧ 6 ∈ requests (final_state (discovering not_found sample0 fresh)).
Proof.
  split; [apply sample0_is_sample|].
  assert (requests (final_state (discovering not_found sample0 fresh))
          = (range 5 35 ++ range 128 148)%list) as Hreq by by vm_compute.
  rewrite Hreq. split; [done|].
  repeat split; apply (bool_decide_unpack _); by vm_compute.
Qed.

(** ** Responses with ill-typed fields *)

(** Every failure inside the [try] block yields [None]. *)
Lemma read_fragment_failures :
  read_fragment RequestFails = None
  ∧ (∀ status body, status ≠ 200 → read_fragment (Response status body) = None)
  ∧ read_fragment (Response 200 None) = None
  ∧ read_fragment (Response 200 (Some JOther)) = None
  ∧ (∀ data : gmap string pyval,
       data !! "id" = None ∨ data !! "index" = None ∨ data !! "text" = None →
       read_fragment (Response 200 (Some (JObject data))) = None).
Proof.
  repeat split.
  - intros status body Hs. unfold read_fragment. by rewrite bool_decide_eq_false_2.
  - intros data H. cbn.
    destruct (data !! "id"), (data !! "index"), (data !! "text"); naive_solver.
Qed.

(** A fetch that yields [None] changes neither the store nor the seen set. *)
Lemma fetch_fragment_None (srv : service) (k : Z) (d : PuzzleDecoder) :
  read_fragment (srv (requests d) k) = None →
  fst (fetch_fragment srv k d) = None
  ∧ fragments (snd (fetch_fragment srv k d)) = fragments d
  ∧ seen_ids (snd (fetch_fragment srv k d)) = seen_ids d.
Proof.
  intros H. unfold fetch_fragment. case_bool_decide; [done|]. by rewrite H.
Qed.

(** C6 (the code on a success response with an ill-typed field).  The
    response [{"id": 1, "index": "0", "text": "x"}] with status 200 is not
    turned into [None]: the fetch returns a fragment whose index is the
    string "0" and marks the identifier as seen; on the store that holds it
    the completeness check raises [TypeError], and so does [solve_puzzle]. *)
Theorem ill_typed_response_is_not_absent :
  fst (fetch_fragment ill_typed 1 fresh) = Some (mkFragment (VInt 1) (VStr "0") (VStr "x"))
  ∧ 1 ∈ seen_ids (snd (fetch_fragment ill_typed 1 fresh))
  ∧ is_puzzle_complete {[ VStr "0" := mkFragment (VInt 1) (VStr "0") (VStr "x") ]}
    = Err TypeError
  ∧ ∃ d', solve_puzzle ill_typed sample0 0 fresh = Raise TypeError d'.
Proof.
  split; [by vm_compute|]. split; [|split].
  - cbn. set_solver.
  - by vm_compute.
  - eexists. by vm_compute.
Qed.

(** ** The standard output and the ingestion loop *)

Lemma fetch_fragment_output (srv : service) (k : Z) (d : PuzzleDecoder) :
  terminal (snd (fetch_fragment srv k d)) = terminal d
  ∧ progress (snd (fetch_fragment srv k d)) = progress d.
Proof.
  unfold fetch_fragment. case_bool_decide; [done|]. by destruct (read_fragment _).
Qed.

Lemma gather_output (srv : service) (ids : list Z) (d : PuzzleDecoder) :
  terminal (snd (gather srv ids d)) = terminal d
  ∧ progress (snd (gather srv ids d)) = progress d.
Proof.
  revert d. induction ids as [|k ids IH]; intros d; [done|]. cbn [gather].
  pose proof (fetch_fragment_output srv k d) as H.
  destruct (fetch_fragment srv k d) as [r d1]. cbn [snd] in H.
  specialize (IH d1). destruct (gather srv ids d1) as [rs d2]. cbn [snd] in *.
  destruct IH as [-> ->]. exact H.
Qed.

Lemma fetch_batch_output (srv : service) (start n : Z) (d : PuzzleDecoder) :
  terminal (snd (fetch_batch srv start n d)) = terminal d
  ∧ progress (snd (fetch_batch srv start n d)) = progress d.
Proof. rewrite fetch_batch_unfold. cbn [snd]. apply gather_output. Qed.

Lemma store_all_frame (found : list Fragment) (d : PuzzleDecoder) :
  seen_ids (store_all found d) = seen_ids d
  ∧ max_concurrent (store_all found d) = max_concurrent d
  ∧ requests (store_all found d) = requests d
  ∧ console (store_all found d) = console d.
Proof.
  revert d. induction found as [|f found IH]; intros d; [done|].
  change (store_all (f :: found) d) with (store_all found (store_fragment d f)).
  destruct (IH (store_fragment d f)) as (-> & -> & -> & ->). done.
Qed.

Lemma store_all_fragments_ext (found : list Fragment) (d1 d2 : PuzzleDecoder) :
  fragments d1 = fragments d2 →
  fragments (store_all found d1) = fragments (store_all found d2).
Proof. intros H. apply map_eq. intros k. by rewrite !store_all_lookup, H. Qed.

(** When every line is printed, the loop stores what [store_all] stores,
    appends one line per fragment and changes nothing else. *)
Lemma ingested_frame (label : string) (found : list Fragment) (d : PuzzleDecoder) :
  fragments (ingested label found d) = fragments (store_all found d)
  ∧ seen_ids (ingested label found d) = seen_ids d
  ∧ max_concurrent (ingested label found d) = max_concurrent d
  ∧ requests (ingested label found d) = requests d
  ∧ console (ingested label found d) = console d
  ∧ terminal (ingested label found d) = terminal d
  ∧ progress (ingested label found d)
    = (progress d ++ (found_line label <$> found))%list.
Proof.
  revert d. induction found as [|f found IH]; intros d.
  { cbn. by rewrite app_nil_r. }
  change (ingested label (f :: found) d)
    with (ingested label found (print_progress (found_line label f) (store_fragment d f))).
  change (store_all (f :: found) d) with (store_all found (store_fragment d f)).
  destruct (IH (print_progress (found_line label f) (store_fragment d f)))
    as (-> & -> & -> & -> & -> & -> & ->).
  split; [by apply store_all_fragments_ext|].
  repeat split. cbn. by rewrite <- app_assoc.
Qed.

Lemma ingest_shows_all (label : string) (found : list Fragment) (d : PuzzleDecoder) :
  shows_all d → ingest label found d = Ret tt (ingested label found d).
Proof.
  revert d. induction found as [|f found IH]; intros d Hd; [done|].
  cbn [ingest]. unfold mbind, M_bind. unfold modify at 1. unfold write at 1.
  change (terminal (store_fragment d f)) with (terminal d). rewrite Hd.
  apply IH. intros line. apply Hd.
Qed.

Lemma ingest_Ret (label : string) (found : list Fragment) (d d' : PuzzleDecoder) :
  ingest label found d = Ret tt d' → d' = ingested label found d.
Proof.
  revert d. induction found as [|f found IH]; intros d; [by intros [= <-]|].
  cbn [ingest]. unfold mbind, M_bind. unfold modify at 1. unfold write at 1.
  destruct (terminal _ _); [apply IH|done].
Qed.

(** ** Phase 3: exit condition and termination *)

(** The loop condition: a complete store, or a counter that has reached
    the ceiling, ends the loop at once. *)
Lemma extended_search_leave (srv : service) (fuel : nat) (search_id cf : Z)
    (d : PuzzleDecoder) :
  is_puzzle_complete (fragments d) = Ok true
  ∨ (is_puzzle_complete (fragments d) = Ok false ∧ 100 ≤ cf) →
  extended_search srv (S fuel) search_id cf d = Ret (search_id, cf) d.
Proof.
  intros H. cbn [extended_search]. unfold mbind, M_bind, complete, lift.
  destruct H as [->|[-> H]]; [done|]. cbn [negb andb].
  by rewrite bool_decide_eq_false_2 by lia.
Qed.

(** One turn of the loop: a window of seen identifiers leaves the counter
    as it is, a window that yields nothing increments it, and a window that
    yields a fragment resets it. *)
Lemma extended_search_turn (srv : service) (fuel : nat) (search_id cf : Z)
    (d : PuzzleDecoder) :
  is_puzzle_complete (fragments d) = Ok false → cf < 100 →
  extended_search srv (S fuel) search_id cf d
  = match filter (λ x, x ∉ seen_ids d)
            (range search_id (search_id + max_concurrent d)) with
    | [] => extended_search srv fuel (search_id + max_concurrent d) cf d
    | batch_ids =>
        match fetch_batch_of srv batch_ids d with
        | Ret [] d1 =>
            extended_search srv fuel (search_id + max_concurrent d) (cf + 1) d1
        | Ret found d1 =>
            match ingest "Found fragment " found d1 with
            | Ret _ d2 =>
                extended_search srv fuel (search_id + max_concurrent d) 0 d2
            | Raise e d2 => Raise e d2
            | OutOfFuel d2 => OutOfFuel d2
            end
        | Raise e d1 => Raise e d1
        | OutOfFuel d1 => OutOfFuel d1
        end
    end.
Proof.
  intros Hc Hcf. cbn [extended_search]. unfold mbind, M_bind, complete, lift, get.
  rewrite Hc. cbn [negb andb]. rewrite bool_decide_eq_true_2 by done.
  destruct (filter _ _) as [|first rest]; [done|].
  destruct (fetch_batch_of srv (first :: rest) d) as [[|f found] d1|e d1|d1]; done.
Qed.

Lemma extended_search_exit (srv : service) (fuel : nat) (search_id cf : Z)
    (d : PuzzleDecoder) (r : Z * Z) (d' : PuzzleDecoder) :
  extended_search srv fuel search_id cf d = Ret r d' → cf ≤ 100 →
  is_puzzle_complete (fragments d') = Ok true
  ∨ (is_puzzle_complete (fragments d') = Ok false ∧ snd r = 100).
Proof.
  revert search_id cf d. induction fuel as [|fuel IH]; intros search_id cf d; [done|].
  cbn [extended_search]. unfold mbind, M_bind. unfold complete at 1, lift.
  destruct (is_puzzle_complete (fragments d)) as [c|e] eqn:Hc; [|done].
  destruct (negb c && bool_decide (cf < 100)) eqn:Hcond; cycle 1.
  { intros [= <- <-] Hcf. cbn. destruct c; [by left|right]. split; [done|].
    cbn in Hcond. apply bool_decide_eq_false in Hcond. lia. }
  apply andb_true_iff in Hcond as [_ Hlt]. apply bool_decide_eq_true in Hlt.
  unfold get at 1 2.
  destruct (filter _ (range search_id (search_id + max_concurrent d)))
    as [|first rest]; [intros H _; eapply IH; [exact H|lia]|].
  destruct (fetch_batch_of srv (first :: rest) d) as [found d1|e d1|d1]; [|done..].
  destruct found as [|f found].
  - intros H _. eapply IH; [exact H|lia].
  - destruct (ingest _ (f :: found) d1) as [[] d2|e d2|d2]; [|done..].
    intros H _. eapply IH; [exact H|lia].
Qed.

(** With a limit that is not positive every window is empty: the loop
    moves [search_id] and does nothing else, for ever. *)
Lemma extended_search_nonpositive_limit (srv : service) (fuel : nat) (search_id cf : Z)
    (d : PuzzleDecoder) :
  max_concurrent d ≤ 0 → is_puzzle_complete (fragments d) = Ok false → cf < 100 →
  extended_search srv fuel search_id cf d = OutOfFuel d.
Proof.
  intros Hmc Hc Hcf. revert search_id.
  induction fuel as [|fuel IH]; intros search_id; [done|].
  rewrite extended_search_turn by done.
  rewrite range_nil by lia. apply IH.
Qed.

(** *** A service that has gone quiet *)

Lemma idle_refl (d : PuzzleDecoder) : idle d d.
Proof. by repeat split. Qed.

Lemma idle_trans (d1 d2 d3 : PuzzleDecoder) : idle d1 d2 → idle d2 d3 → idle d1 d3.
Proof.
  intros (? & ? & ? & ? & ? & ?) (? & ? & ? & ? & ? & ?).
  repeat split; etransitivity; eassumption.
Qed.

Lemma gather_quiet (srv : service) (ids : list Z) (d : PuzzleDecoder) :
  quiet_from srv d →
  omap (λ r, r) (fst (gather srv ids d)) = []
  ∧ idle d (snd (gather srv ids d))
  ∧ quiet_from srv (snd (gather srv ids d)).
Proof.
  revert d. induction ids as [|k ids IH]; intros d Hq.
  { split; [done|]. split; [apply idle_refl|done]. }
  cbn [gather].
  assert (∃ d1, fetch_fragment srv k d = (None, d1) ∧ idle d d1 ∧ quiet_from srv d1)
    as (d1 & -> & Hidle & Hq1).
  { destruct (decide (k ∈ seen_ids d)) as [Hk|Hk].
    - rewrite fetch_fragment_seen by done. exists d.
      split; [done|]. split; [apply idle_refl|done].
    - rewrite fetch_fragment_unseen by done.
      pose proof (Hq [] k) as Hnone. rewrite app_nil_r in Hnone. rewrite Hnone.
      exists (log_request k d). split; [done|]. split; [by repeat split|].
      intros later k'. cbn [log_request requests]. rewrite <- app_assoc. apply Hq. }
  destruct (IH d1 Hq1) as (Hnil & Hidle' & Hq').
  destruct (gather srv ids d1) as [rs d2]. cbn [fst snd] in *.
  split; [done|]. split; [by eapply idle_trans|done].
Qed.

Lemma fetch_batch_of_quiet (srv : service) (first : Z) (rest : list Z) (d : PuzzleDecoder) :
  quiet_from srv d →
  ∃ d', fetch_batch_of srv (first :: rest) d = Ret [] d'
        ∧ idle d d' ∧ quiet_from srv d'.
Proof.
  intros Hq. rewrite fetch_batch_of_cons, fetch_batch_unfold. cbn [fst snd].
  set (ids := range first (first + Z.of_nat (length (first :: rest)))).
  destruct (gather_quiet srv ids d Hq) as (-> & Hidle & Hq'). eauto.
Qed.

Lemma extended_search_quiet (srv : service) (B : Z) (fuel : nat) :
  ∀ (search_id cf : Z) (d : PuzzleDecoder),
    quiet_from srv d → int_keyed (fragments d) → 0 < max_concurrent d →
    (∀ x, x ∈ seen_ids d → x < B) →
    (silent_budget search_id cf B (max_concurrent d) ≤ fuel)%nat →
    ∃ r d', extended_search srv fuel search_id cf d = Ret r d' ∧ idle d d'.
Proof.
  induction fuel as [|fuel IH]; intros search_id cf d Hq Hint Hmc HB Hfuel.
  { unfold silent_budget in Hfuel. lia. }
  cbn [extended_search]. unfold mbind, M_bind. unfold complete at 1, lift.
  destruct (is_puzzle_complete_total _ Hint) as [c Hc]. rewrite Hc.
  destruct (negb c && bool_decide (cf < 100)) eqn:Hcond;
    [|eexists _, _; split; [done|apply idle_refl]].
  apply andb_true_iff in Hcond as [_ Hlt]. apply bool_decide_eq_true in Hlt.
  unfold get at 1 2. set (mc := max_concurrent d) in *.
  destruct (filter _ (range search_id (search_id + mc))) as [|first rest] eqn:Hbatch.
  - (* every identifier of the window is seen: the window lies below [B] *)
    assert (search_id < B) as Hlow.
    { apply HB. destruct (decide (search_id ∈ seen_ids d)) as [|Hn]; [done|].
      exfalso. eapply (filter_nil_not_elem_of _ _ search_id); [exact Hbatch|done|].
      apply elem_of_range. lia. }
    apply IH; [done..|]. fold mc. unfold silent_budget in *.
    replace (B - (search_id + mc) + mc - 1)
      with (B - search_id + mc - 1 + (-1) * mc) by lia.
    rewrite Z.div_add by lia.
    assert (1 ≤ (B - search_id + mc - 1) `div` mc) by (apply Z.div_le_lower_bound; lia).
    lia.
  - destruct (fetch_batch_of_quiet srv first rest d Hq) as (d1 & -> & Hidle & Hq1).
    pose proof Hidle as (Hfr & Hseen & Hmc1 & _).
    destruct (IH (search_id + mc) (cf + 1) d1) as (r & d' & Hrun & Hidle').
    + done.
    + by rewrite Hfr.
    + by rewrite Hmc1.
    + intros x. rewrite Hseen. apply HB.
    + rewrite Hmc1. fold mc. unfold silent_budget in *.
      assert ((B - (search_id + mc) + mc - 1) `div` mc
              ≤ (B - search_id + mc - 1) `div` mc) by (apply Z.div_le_mono; lia).
      lia.
    + exists r, d'. split; [done|]. by eapply idle_trans.
Qed.



(** ** A service on which phase 3 never ends *)

Lemma read_fragment_echo (history : list Z) (k : Z) :
  1 ≤ k → read_fragment (echo history k) = Some (frag k k "x").
Proof. intros Hk. unfold echo. by rewrite bool_decide_eq_true_2. Qed.

Lemma read_fragment_echo_Some (history : list Z) (k : Z) (f : Fragment) :
  read_fragment (echo history k) = Some f → f = frag k k "x" ∧ 1 ≤ k.
Proof.
  unfold echo. case_bool_decide; [|done]. by intros [= <-].
Qed.

Lemma incomplete_without_zero (fr : gmap pyval Fragment) :
  no_index_below_one fr → is_puzzle_complete fr = Ok false.
Proof.
  intros Hinv.
  assert (int_keyed fr) as Hint.
  { intros k f Hf. by destruct (Hinv k f Hf) as (z & -> & _). }
  destruct (is_puzzle_complete_total _ Hint) as [[|] Hb]; [|done].
  exfalso. apply is_puzzle_complete_iff in Hb as (_ & M & [[f HM1] HM2] & Hgap); [|done].
  destruct (Hinv _ _ HM1) as (z & [= <-] & Hz).
  destruct (Hgap 0) as [g Hg]; [lia|].
  destruct (Hinv _ _ Hg) as (z & [= <-] & ?). lia.
Qed.

Lemma gather_echo (ids : list Z) (d : PuzzleDecoder) :
  Forall (λ k, 1 ≤ k) ids →
  Forall (λ r, ∀ f, r = Some f → ∃ z, index f = VInt z ∧ 1 ≤ z)
         (fst (gather echo ids d)).
Proof.
  revert d. induction ids as [|k ids IH]; intros d Hids; [by constructor|].
  apply Forall_cons in Hids as [Hk Hids]. cbn [gather].
  destruct (fetch_fragment echo k d) as [r d1] eqn:Hf.
  specialize (IH d1 Hids). destruct (gather echo ids d1) as [rs d2]. cbn [fst] in *.
  constructor; [|done]. intros f ->.
  assert (fst (fetch_fragment echo k d) = Some f) as Hsome by by rewrite Hf.
  apply fetch_fragment_Some in Hsome as [_ Hr].
  apply read_fragment_echo_Some in Hr as [-> _]. by exists k.
Qed.

Lemma store_all_no_index_below_one (found : list Fragment) (d : PuzzleDecoder) :
  no_index_below_one (fragments d) →
  Forall (λ f, ∃ z, index f = VInt z ∧ 1 ≤ z) found →
  no_index_below_one (fragments (store_all found d)).
Proof.
  intros Hinv Hfound k f Hf. rewrite store_all_lookup in Hf.
  destruct (last_with_index k found) as [g|] eqn:Hl; cbn in Hf.
  - apply last_with_index_Some in Hl as [Hg <-].
    rewrite Forall_forall in Hfound. by apply Hfound.
  - by apply (Hinv k f).
Qed.

(** On [echo] a probe of a window whose first identifier is unseen finds at
    least one fragment, and only fragments with index at least 1. *)
Lemma fetch_batch_of_echo (first : Z) (rest : list Z) (d : PuzzleDecoder) :
  1 ≤ first → first ∉ seen_ids d →
  ∃ f found d', fetch_batch_of echo (first :: rest) d = Ret (f :: found) d'
                ∧ Forall (λ g, ∃ z, index g = VInt z ∧ 1 ≤ z) (f :: found)
                ∧ fragments d' = fragments d
                ∧ max_concurrent d' = max_concurrent d
                ∧ terminal d' = terminal d.
Proof.
  intros H1 Hunseen. rewrite fetch_batch_of_cons, fetch_batch_unfold. cbn [fst snd].
  set (ids := range first (first + Z.of_nat (length (first :: rest)))).
  destruct (gather_frame echo ids d) as (Hfr & Hmc & _).
  destruct (gather_output echo ids d) as (Hterm & _).
  assert (Forall (λ g, ∃ z, index g = VInt z ∧ 1 ≤ z)
                 (omap (λ r, r) (fst (gather echo ids d)))) as Hall.
  { apply Forall_forall. intros g Hg. apply list_elem_of_omap in Hg as (r & Hr & ->).
    assert (Forall (λ k, 1 ≤ k) ids) as Hids.
    { apply Forall_forall. intros k Hk. apply elem_of_range in Hk. lia. }
    pose proof (gather_echo ids d Hids) as Hge. rewrite Forall_forall in Hge.
    by apply (Hge (Some g)). }
  destruct (omap (λ r, r) (fst (gather echo ids d))) as [|f found] eqn:Hfound.
  - exfalso. subst ids. rewrite range_cons in Hfound by (cbn [length]; lia).
    cbn [gather] in Hfound. rewrite fetch_fragment_unseen in Hfound by done.
    rewrite read_fragment_echo in Hfound by done.
    clear -Hfound. revert Hfound. by destruct (gather echo _ _).
  - eauto 10.
Qed.

Lemma extended_search_echo (fuel : nat) :
  ∀ (search_id : Z) (d : PuzzleDecoder),
    1 ≤ search_id → 0 < max_concurrent d → shows_all d →
    no_index_below_one (fragments d) →
    ∃ d', extended_search echo fuel search_id 0 d = OutOfFuel d'.
Proof.
  induction fuel as [|fuel IH]; intros search_id d Hsid Hmc Hout Hinv; [by eexists|].
  rewrite extended_search_turn by (by apply incomplete_without_zero || lia).
  destruct (filter _ (range search_id (search_id + max_concurrent d)))
    as [|first rest] eqn:Hbatch.
  - apply IH; [lia|done..].
  - assert (first ∈ filter (λ x, x ∉ seen_ids d)
                       (range search_id (search_id + max_concurrent d))) as Hin
      by (rewrite Hbatch; apply list_elem_of_here).
    apply list_elem_of_filter in Hin as [Hunseen Hrange].
    apply elem_of_range in Hrange.
    destruct (fetch_batch_of_echo first rest d)
      as (f & found & d1 & -> & Hall & Hfr & Hmc1 & Hterm); [lia|done|].
    assert (shows_all d1) as Hout1 by (intros line; rewrite Hterm; apply Hout).
    rewrite ingest_shows_all by done.
    destruct (ingested_frame "Found fragment " (f :: found) d1)
      as (Hfr2 & _ & Hmc2 & _ & _ & Hterm2 & _).
    apply IH; [lia| | |].
    + by rewrite Hmc2, Hmc1.
    + intros line. rewrite Hterm2. apply Hout1.
    + rewrite Hfr2. apply store_all_no_index_below_one; [by rewrite Hfr|done].
Qed.

Lemma store_fragment_typed (d : PuzzleDecoder) (f : Fragment) :
  typed_decoder d → well_typed f → typed_decoder (store_fragment d f).
Proof.
  intros (Hint & Hstr & Hmc) (_ & Hix & Htx). split; [|split; [|done]].
  - by apply map_Forall_insert_2.
  - by apply map_Forall_insert_2.
Qed.

Lemma fetch_fragment_typed (srv : service) (k : Z) (d : PuzzleDecoder) :
  typed_decoder d → typed_decoder (snd (fetch_fragment srv k d)).
Proof.
  unfold typed_decoder.
  destruct (fetch_fragment_frame srv k d) as (-> & -> & _). done.
Qed.

Lemma fetch_fragment_shows_all (srv : service) (k : Z) (d : PuzzleDecoder) :
  shows_all d → shows_all (snd (fetch_fragment srv k d)).
Proof.
  intros Hd line. destruct (fetch_fragment_output srv k d) as [-> _]. apply Hd.
Qed.

(** On [echo] the whole search keeps a store without index 0 and never
    leaves phase 3. *)
Lemma smart_search_strategy_echo (random_ids : list Z) (fuel : nat) (d : PuzzleDecoder) :
  random_ids ≠ [] → typed_decoder d → shows_all d →
  no_index_below_one (fragments d) →
  ∃ d', smart_search_strategy echo random_ids fuel d = OutOfFuel d'.
Proof.
  intros Hne Htyped Hout Hinv.
  set (P := λ d', (typed_decoder d' ∧ shows_all d')
                  ∧ no_index_below_one (fragments d')).
  set (Q := λ f, well_typed f ∧ ∃ z, index f = VInt z ∧ 1 ≤ z).
  assert (∀ k d1, P d1 →
            P (snd (fetch_fragment echo k d1)) ∧
            ∀ f, fst (fetch_fragment echo k d1) = Some f → Q f) as Hfetch.
  { intros k d1 [[Ht Ho] Hi]. split.
    - split; [split; [by apply fetch_fragment_typed|by apply fetch_fragment_shows_all]|].
      by destruct (fetch_fragment_frame echo k d1) as (-> & _).
    - intros f Hf. apply fetch_fragment_Some in Hf as [_ Hf].
      apply read_fragment_echo_Some in Hf as [-> Hk]. split; [done|by exists k]. }
  assert (∀ d1 f, P d1 → Q f → P (store_fragment d1 f)) as Hstore.
  { intros d1 f [[Ht Ho] Hi] [Hw Hix].
    split; [split; [by apply store_fragment_typed|exact Ho]|].
    apply (store_all_no_index_below_one [f] d1); [done|by constructor]. }
  assert (∀ line d1, P d1 → P (print_progress line d1)) as Hprogress
    by (intros line d1 H1; exact H1).
  assert (safe P) as Hsafe.
  { intros d1 [[(? & ? & ?) ?] _]. done. }
  assert (P d) as Hd by done.
  unfold smart_search_strategy, mbind, M_bind.
  pose proof (discovering_inv echo P Q Hfetch Hstore Hprogress random_ids d Hd) as H1.
  destruct (discovering echo random_ids d) as [fl d1|e d1|d1]; cbn [post] in H1.
  - destruct H1 as [[[Ht1 Ho1] Hi1] Hret]. destruct fl; cycle 1.
    { specialize (Hret eq_refl). by rewrite (incomplete_without_zero _ Hi1) in Hret. }
    pose proof (gap_filling_inv echo P Q Hfetch Hstore Hprogress d1
                  (conj (conj Ht1 Ho1) Hi1)) as H2.
    destruct (gap_filling echo d1) as [[] d2|e d2|d2]; cbn [post] in H2.
    + destruct H2 as [[(_ & _ & Hmc2) Ho2] Hi2].
      destruct (extended_search_echo fuel 1 d2) as [d3 ->]; [lia|done..|by eexists].
    + by destruct H2 as [_ ?].
    + done.
  - destruct H1 as [_ Hbad]. by destruct Hbad.
  - done.
Qed.

(** C7 (as the code has it).  The loop of phase 3 is left exactly when the
    store is complete or the failure counter has reached 100: in either
    case the loop ends at once, with nothing requested; otherwise it takes
    one more turn, in which a window of seen identifiers leaves the counter
    unchanged, a window that yields nothing increments it and a window
    that yields a fragment resets it to zero; and when the loop has been
    left, the store is complete or the counter is 100.  With a positive
    concurrency limit, if from some point on the service delivers no
    fragment, the loop is left within [silent_budget] evaluations of its
    condition (at most one window per failure still allowed, plus the
    windows consisting of seen identifiers only), with the store as it
    was.  With a limit that is not positive and an incomplete store the
    loop never ends. *)
Theorem extended_search_ends_on_quiet_service :
  (∀ (srv : service) (fuel : nat) (search_id cf : Z) (d : PuzzleDecoder),
     is_puzzle_complete (fragments d) = Ok true
     ∨ (is_puzzle_complete (fragments d) = Ok false ∧ 100 ≤ cf) →
     extended_search srv (S fuel) search_id cf d = Ret (search_id, cf) d)
  ∧ (∀ (srv : service) (fuel : nat) (search_id cf : Z) (d : PuzzleDecoder),
       is_puzzle_complete (fragments d) = Ok false → cf < 100 →
       extended_search srv (S fuel) search_id cf d
       = match filter (λ x, x ∉ seen_ids d)
                 (range search_id (search_id + max_concurrent d)) with
         | [] => extended_search srv fuel (search_id + max_concurrent d) cf d
         | batch_ids =>
             match fetch_batch_of srv batch_ids d with
             | Ret [] d1 =>
                 extended_search srv fuel (search_id + max_concurrent d) (cf + 1) d1
             | Ret found d1 =>
                 match ingest "Found fragment " found d1 with
                 | Ret _ d2 =>
                     extended_search srv fuel (search_id + max_concurrent d) 0 d2
                 | Raise e d2 => Raise e d2
                 | OutOfFuel d2 => OutOfFuel d2
                 end
             | Raise e d1 => Raise e d1
             | OutOfFuel d1 => OutOfFuel d1
             end
         end)
  ∧ (∀ (srv : service) (fuel : nat) (search_id cf : Z) (d : PuzzleDecoder)
       (r : Z * Z) (d' : PuzzleDecoder),
       extended_search srv fuel search_id cf d = Ret r d' → cf ≤ 100 →
       is_puzzle_complete (fragments d') = Ok true
       ∨ (is_puzzle_complete (fragments d') = Ok false ∧ snd r = 100))
  ∧ (∀ (srv : service) (search_id cf B : Z) (d : PuzzleDecoder),
       quiet_from srv d → int_keyed (fragments d) → 0 < max_concurrent d →
       cf ≤ 100 → (∀ x, x ∈ seen_ids d → x < B) →
       ∃ r d',
         extended_search srv (silent_budget search_id cf B (max_concurrent d))
           search_id cf d = Ret r d'
         ∧ idle d d'
         ∧ (is_puzzle_complete (fragments d') = Ok true
            ∨ (is_puzzle_complete (fragments d') = Ok false ∧ snd r = 100)))
  ∧ (∀ (srv : service) (fuel : nat) (search_id cf : Z) (d : PuzzleDecoder),
       max_concurrent d ≤ 0 → is_puzzle_complete (fragments d) = Ok false →
       cf < 100 →
       extended_search srv fuel search_id cf d = OutOfFuel d).
Proof.
  split; [|split; [|split; [|split]]].
  - intros srv fuel search_id cf d. apply extended_search_leave.
  - intros srv fuel search_id cf d. apply extended_search_turn.
  - intros srv fuel search_id cf d r d'. apply extended_search_exit.
  - intros srv search_id cf B d Hq Hint Hmc Hcf HB.
    destruct (extended_search_quiet srv B _ search_id cf d Hq Hint Hmc HB (le_n _))
      as (r & d' & Hrun & Hidle).
    exists r, d'. split; [done|]. split; [done|].
    by eapply extended_search_exit.
  - intros srv fuel search_id cf d. apply extended_search_nonpositive_limit.
Qed.

Lemma extended_search_ends_on_quiet_service_witness :
  ∃ r d',
    extended_search first_only (silent_budget 1 0 8 (max_concurrent after_first))
      1 0 after_first = Ret r d'
    ∧ idle after_first d'
    ∧ (is_puzzle_complete (fragments d') = Ok true
       ∨ (is_puzzle_complete (fragments d') = Ok false ∧ snd r = 100)).
Proof.
  apply (proj1 (proj2 (proj2 (proj2 extended_search_ends_on_quiet_service)))
           first_only 1 0 8 after_first).
  - intros later k. change (requests after_first) with [7]. reflexivity.
  - apply map_Forall_to_list. vm_compute. repeat constructor.
  - reflexivity.
  - lia.
  - intros x Hx. change (seen_ids after_first) with ({[7]} ∪ ∅ : gset Z) in Hx.
    apply elem_of_union in Hx as [Hx|Hx]; [|by apply not_elem_of_empty in Hx].
    apply elem_of_singleton in Hx. lia.
Defined.

(** C7, the part the code does not have: phase 3 does not end for every
    service.  On [echo], which keeps delivering fragments but none with
    index 0, every window resets the counter; the loop started by a fresh
    decoder never ends, and neither does the whole search. *)
Lemma extended_search_never_ends_on_echo :
  ¬ extended_search_ends echo 1 0 fresh
  ∧ ¬ ∃ fuel, ¬ out_of_fuel (smart_search_strategy echo sample0 fuel fresh).
Proof.
  assert (typed_decoder fresh) as Ht.
  { split; [apply map_Forall_empty|]. split; [apply map_Forall_empty|done]. }
  assert (shows_all fresh) as Ho by done.
  assert (no_index_below_one (fragments fresh)) as Hi.
  { intros k f Hf. cbn in Hf. by rewrite lookup_empty in Hf. }
  split.
  - intros [fuel H].
    destruct (extended_search_echo fuel 1 fresh) as [d' Hd']; [lia|done..|].
    by rewrite Hd' in H.
  - intros [fuel H]. apply H.
    assert (sample0 ≠ []) as Hne by discriminate.
    destruct (smart_search_strategy_echo sample0 fuel fresh Hne Ht Ho Hi) as [d' Hd'].
    rewrite Hd'. exact I.
Qed.

(** ** [solve_puzzle] *)

(** The search prints none of the outcome lines. *)
Lemma smart_search_strategy_console (srv : service) (random_ids : list Z) (fuel : nat)
    (d : PuzzleDecoder) :
  console (final_state (smart_search_strategy srv random_ids fuel d)) = console d.
Proof.
  apply (final_state_inv _ (λ d', console d' = console d)
           (¬ (safe (λ d', console d' = console d) ∧ random_ids ≠ []))).
  apply (smart_search_strategy_inv srv _ (λ _, True)); [| | |done].
  - intros k d1 H1. split; [|done].
    by destruct (fetch_fragment_frame srv k d1) as (_ & _ & -> & _).
  - by intros d1 f H1 _.
  - by intros line d1 H1.
Qed.




Lemma solve_puzzle_returns (srv : service) (random_ids : list Z) (fuel : nat)
    (d : PuzzleDecoder) (message : string) (d' : PuzzleDecoder) :
  solve_puzzle srv random_ids fuel d = Ret message d' →
  (is_puzzle_complete (fragments d') = Ok false ∧ message = ""
   ∧ console d' = (console d ++ ["Failed to complete puzzle"])%list)
  ∨ (is_puzzle_complete (fragments d') = Ok true
     ∧ get_assembled_message (fragments d') = Ok message
     ∧ console d' = (console d ++ ["Message: '" +:+ message +:+ "'"])%list).
Proof.
  unfold solve_puzzle, mbind, M_bind.
  pose proof (smart_search_strategy_console srv random_ids fuel d) as Hcon.
  destruct (smart_search_strategy srv random_ids fuel d) as [[] d1|e d1|d1]; [|done..].
  cbn [final_state] in Hcon. unfold complete at 1, lift.
  destruct (is_puzzle_complete (fragments d1)) as [c|e] eqn:Hc; [|done].
  destruct c.
  - unfold get at 1.
    destruct (get_assembled_message (fragments d1)) as [m|e] eqn:Hm; [|done].
    cbn. unfold write. destruct (terminal d1 _); [|done].
    intros [= <- <-]. right. cbn. by rewrite Hcon.
  - cbn. intros [= <- <-]. left. cbn. by rewrite Hcon.
Qed.







(** ** Configuration *)

(** A limit of 0 makes [range(0, len(random_ids), batch_size)] raise before
    anything else happens. *)
Lemma solve_puzzle_zero_limit (srv : service) (random_ids : list Z) (fuel : nat)
    (d : PuzzleDecoder) :
  max_concurrent d = 0 → solve_puzzle srv random_ids fuel d = Raise ValueError d.
Proof.
  intros Hmc.
  unfold solve_puzzle, smart_search_strategy, discovering, mbind, M_bind, get, lift.
  rewrite Hmc. by replace (Z.min 0 (Z.of_nat (length random_ids))) with 0 by lia.
Qed.

(** With a negative limit every window of phase 3 is empty: the loop moves
    [search_id] and does nothing else. *)
Lemma extended_search_negative_limit (srv : service) (fuel : nat) (search_id cf : Z)
    (d : PuzzleDecoder) :
  max_concurrent d < 0 → fragments d = ∅ → cf < 100 →
  extended_search srv fuel search_id cf d = OutOfFuel d.
Proof.
  intros Hmc Hfr Hcf. apply extended_search_nonpositive_limit; [lia| |done].
  rewrite Hfr. apply is_puzzle_complete_empty.
Qed.

Lemma solve_puzzle_negative_limit (srv : service) (random_ids : list Z) (fuel : nat)
    (d : PuzzleDecoder) :
  max_concurrent d < 0 → fragments d = ∅ →
  solve_puzzle srv random_ids fuel d = OutOfFuel d.
Proof.
  intros Hmc Hfr.
  unfold solve_puzzle, smart_search_strategy, discovering, mbind, M_bind, get, lift.
  rewrite range_step_negative by lia. cbn [discover_batches]. unfold mret, M_ret.
  unfold gap_filling, mbind, M_bind, get.
  rewrite Hfr, bool_decide_eq_true_2 by done. unfold mret, M_ret.
  by rewrite extended_search_negative_limit.
Qed.

(** C9 (as the code has it).  Nothing validates the configuration.  The
    constructor accepts any base URL and itself sets the concurrency limit
    to 30.  If the limit is then set to 0, [solve_puzzle] raises
    [ValueError] with the decoder untouched, so before any request; if it is
    set to a negative value, [solve_puzzle] raises nothing and requests
    nothing: phase 3 runs on without ever probing. *)
Theorem configuration_is_not_validated :
  (∀ (url : string) (stdout : string → bool),
     max_concurrent (init url stdout) = 30 ∧ requests (init url stdout) = [])
  ∧ (∀ (srv : service) (random_ids : list Z) (fuel : nat) (d : PuzzleDecoder),
       max_concurrent d = 0 →
       solve_puzzle srv random_ids fuel d = Raise ValueError d)
  ∧ (∀ (srv : service) (random_ids : list Z) (fuel : nat) (d : PuzzleDecoder),
       max_concurrent d < 0 → fragments d = ∅ →
       solve_puzzle srv random_ids fuel d = OutOfFuel d).
Proof.
  split; [done|]. split.
  - intros srv random_ids fuel d. apply solve_puzzle_zero_limit.
  - intros srv random_ids fuel d. apply solve_puzzle_negative_limit.
Qed.

Lemma configuration_is_not_validated_witness :
  solve_puzzle not_found sample0 1000 (set_max_concurrent 0 fresh)
  = Raise ValueError (set_max_concurrent 0 fresh)
  ∧ solve_puzzle not_found sample0 1000 (set_max_concurrent (-5) fresh)
    = OutOfFuel (set_max_concurrent (-5) fresh).
Proof.
  split.
  - apply (proj1 (proj2 configuration_is_not_validated)). reflexivity.
  - apply (proj2 (proj2 configuration_is_not_validated)); [reflexivity|reflexivity].
Defined.

(** C9, the part the code does not have: a non-positive limit is not
    rejected.  With the limit set to -1, [solve_puzzle] never raises,
    however long it is run. *)
Lemma negative_limit_is_never_rejected :
  ¬ ∃ fuel e d',
      solve_puzzle not_found sample0 fuel (set_max_concurrent (-1) fresh) = Raise e d'.
Proof.
  intros (fuel & e & d' & H).
  rewrite solve_puzzle_negative_limit in H; [done|reflexivity|reflexivity].
Qed.


(** * Further properties of the decoder *)

(** ** [fetch_fragment]: when a fetch delivers *)

Lemma read_fragment_Some (o : http_outcome) (f : Fragment) :
  read_fragment o = Some f
  ↔ ∃ data, o = Response 200 (Some (JObject data))
            ∧ data !! "id" = Some (id f)
            ∧ data !! "index" = Some (index f)
            ∧ data !! "text" = Some (text f).
Proof.
  split.
  - destruct o as [|status [[data|]|]]; cbn; try done;
      case_bool_decide as Hs; try done. subst status.
    destruct (data !! "id") as [i|] eqn:Hi; [|done].
    destruct (data !! "index") as [ix|] eqn:Hix; [|done].
    destruct (data !! "text") as [t|] eqn:Ht; [|done].
    intros [= <-]. by exists data.
  - intros (data & -> & Hi & Hix & Ht). cbn. rewrite Hi, Hix, Ht. by destruct f.
Qed.

(** X1.  A fetch of an unseen identifier issues exactly one request and never
    touches the store.  It delivers a fragment exactly when the response has
    status 200 and its body is a JSON object with the fields "id", "index"
    and "text" (further fields are ignored): the fragment carries those
    three values and the identifier joins the seen set.  In every other case
    it delivers nothing and the seen set stays as it was. *)
Theorem fetch_fragment_delivers_iff (srv : service) (k : Z) (d : PuzzleDecoder) :
  k ∉ seen_ids d →
  requests (snd (fetch_fragment srv k d)) = (requests d ++ [k])%list
  ∧ fragments (snd (fetch_fragment srv k d)) = fragments d
  ∧ (∀ f, fst (fetch_fragment srv k d) = Some f
          ↔ ∃ data, srv (requests d) k = Response 200 (Some (JObject data))
                    ∧ data !! "id" = Some (id f)
                    ∧ data !! "index" = Some (index f)
                    ∧ data !! "text" = Some (text f))
  ∧ seen_ids (snd (fetch_fragment srv k d))
    = match fst (fetch_fragment srv k d) with
      | Some _ => {[k]} ∪ seen_ids d
      | None => seen_ids d
      end.
Proof.
  intros Hk. rewrite fetch_fragment_requests, decide_False by done.
  split; [done|]. split; [by destruct (fetch_fragment_frame srv k d)|].
  split; [|apply fetch_fragment_seen_ids].
  intros f. rewrite <- read_fragment_Some, fetch_fragment_unseen by done.
  by destruct (read_fragment _).
Qed.

Lemma fetch_fragment_delivers_iff_witness :
  requests (snd (fetch_fragment blank 7 fresh)) = (requests fresh ++ [7])%list
  ∧ fragments (snd (fetch_fragment blank 7 fresh)) = fragments fresh
  ∧ (∀ f, fst (fetch_fragment blank 7 fresh) = Some f
          ↔ ∃ data, blank (requests fresh) 7 = Response 200 (Some (JObject data))
                    ∧ data !! "id" = Some (id f)
                    ∧ data !! "index" = Some (index f)
                    ∧ data !! "text" = Some (text f))
  ∧ seen_ids (snd (fetch_fragment blank 7 fresh))
    = match fst (fetch_fragment blank 7 fresh) with
      | Some _ => {[7]} ∪ seen_ids fresh
      | None => seen_ids fresh
      end.
Proof.
  apply (fetch_fragment_delivers_iff blank 7 fresh).
  cbn. apply not_elem_of_empty.
Defined.

(** ** [fetch_batch]: what a batch does *)

Lemma gather_count (srv : service) (ids : list Z) (d : PuzzleDecoder) :
  length (omap (λ r, r) (fst (gather srv ids d)))
  = size (seen_ids (snd (gather srv ids d)) ∖ seen_ids d).
Proof.
  revert d. induction ids as [|k ids IH]; intros d.
  { cbn. by rewrite difference_diag_L, size_empty. }
  cbn [gather].
  pose proof (fetch_fragment_seen_ids srv k d) as Hseen.
  pose proof (fetch_fragment_Some srv k d) as Hsome.
  destruct (fetch_fragment srv k d) as [r d1]. cbn [fst snd] in *.
  specialize (IH d1). pose proof (gather_seen_ids srv ids d1) as [Hsub _].
  destruct (gather srv ids d1) as [rs d2]. cbn [fst snd] in *.
  destruct r as [f|].
  - destruct (Hsome f eq_refl) as [Hk _]. cbn. rewrite IH, Hseen.
    assert (seen_ids d2 ∖ seen_ids d
            = {[k]} ∪ seen_ids d2 ∖ ({[k]} ∪ seen_ids d)) as ->.
    { apply set_eq. intros x. rewrite Hseen in Hsub.
      destruct (decide (x = k)) as [->|]; set_solver. }
    rewrite (size_union (C:=gset Z) {[k]} (seen_ids d2 ∖ ({[k]} ∪ seen_ids d)))
      by set_solver.
    by rewrite size_singleton.
  - cbn. by rewrite IH, Hseen.
Qed.

Lemma gather_delivered (srv : service) (ids : list Z) (d : PuzzleDecoder) :
  Forall (λ r, ∀ f, r = Some f →
                    ∃ history k, k ∈ ids ∧ read_fragment (srv history k) = Some f)
         (fst (gather srv ids d)).
Proof.
  revert d. induction ids as [|k ids IH]; intros d; [by constructor|].
  cbn [gather]. pose proof (fetch_fragment_Some srv k d) as Hsome.
  destruct (fetch_fragment srv k d) as [r d1]. cbn [fst snd] in *.
  specialize (IH d1). destruct (gather srv ids d1) as [rs d2]. cbn [fst snd] in *.
  constructor.
  - intros f ->. destruct (Hsome f eq_refl) as [_ Hr].
    exists (requests d), k. split; [apply list_elem_of_here|done].
  - eapply Forall_impl; [exact IH|]. intros r' Hr f Hf.
    destruct (Hr f Hf) as (h & i & Hi & Hread). exists h, i.
    split; [by apply list_elem_of_further|done].
Qed.

(** X2.  [fetch_batch(session, start_id, batch_size)] requests the identifiers
    of [range(start_id, start_id + batch_size)] that are not yet seen, in
    ascending order, and leaves the store alone.  It returns one fragment
    per identifier that it adds to the seen set, each of them delivered by
    the service for an identifier of that range, and it adds no identifier
    from outside the range. *)
Theorem fetch_batch_effect (srv : service) (start_id batch_size : Z) (d : PuzzleDecoder) :
  requests (snd (fetch_batch srv start_id batch_size d))
  = (requests d
     ++ filter (λ x, x ∉ seen_ids d) (range start_id (start_id + batch_size)))%list
  ∧ fragments (snd (fetch_batch srv start_id batch_size d)) = fragments d
  ∧ seen_ids d ⊆ seen_ids (snd (fetch_batch srv start_id batch_size d))
  ∧ seen_ids (snd (fetch_batch srv start_id batch_size d))
    ⊆ seen_ids d ∪ list_to_set (range start_id (start_id + batch_size))
  ∧ length (fst (fetch_batch srv start_id batch_size d))
    = size (seen_ids (snd (fetch_batch srv start_id batch_size d)) ∖ seen_ids d)
  ∧ Forall (λ f, ∃ history k,
                   start_id ≤ k < start_id + batch_size
                   ∧ read_fragment (srv history k) = Some f)
           (fst (fetch_batch srv start_id batch_size d)).
Proof.
  split; [apply fetch_batch_requests|].
  rewrite fetch_batch_unfold. cbn [fst snd].
  set (ids := range start_id (start_id + batch_size)).
  split; [by destruct (gather_frame srv ids d)|].
  split; [apply gather_seen_ids|]. split; [apply gather_seen_ids|].
  split; [apply gather_count|].
  apply Forall_forall. intros f Hf. apply list_elem_of_omap in Hf as (r & Hr & ->).
  pose proof (gather_delivered srv ids d) as Hall. rewrite Forall_forall in Hall.
  destruct (Hall _ Hr f eq_refl) as (h & k & Hk & Hread).
  exists h, k. split; [by apply elem_of_range in Hk|done].
Qed.

(** ** [is_puzzle_complete]: errors, and what the answer depends on *)


Lemma is_puzzle_complete_not_int_keyed (fr : gmap pyval Fragment) :
  ¬ int_keyed fr → is_puzzle_complete fr = Err TypeError.
Proof.
  intros Hn. unfold is_puzzle_complete.
  case_bool_decide as Hfr.
  { exfalso. apply Hn. subst fr. apply map_Forall_empty. }
  assert (Exists (λ v, is_str v) (keys fr)) as Hstr.
  { destruct (decide (Exists (λ v, is_str v) (keys fr))) as [H|H]; [done|].
    exfalso. apply Hn. intros k f Hf.
    assert (k ∈ keys fr) as Hk by (apply keys_elem_of; by exists f).
    destruct k as [z|s]; [done|]. exfalso. apply H, Exists_exists.
    by exists (VStr s). }
  destruct (decide (Exists (λ v, is_int v) (keys fr))) as [Hint|Hint].
  - by rewrite py_max_mixed.
  - assert (Forall (λ v, is_str v) (keys fr)) as Hall.
    { apply Forall_forall. intros k Hk. destruct k as [z|s]; [|done].
      exfalso. apply Hint, Exists_exists. by exists (VInt z). }
    destruct (keys fr) as [|[z|s] l]; [by apply Exists_nil in Hstr| |].
    + by apply Forall_cons in Hall as [? _].
    + apply Forall_cons in Hall as [_ Hall]. cbn [py_max].
      by destruct (py_max_from_strs s l Hall) as [t ->].
Qed.

(** X3.  A fragment stored under a string index makes the completeness
    check raise: on a store that holds a key of type [str],
    [is_puzzle_complete] raises [TypeError], whatever else the store
    holds. *)
Theorem is_puzzle_complete_raises_on_str_key (fr : gmap pyval Fragment) (s : string) :
  is_Some (fr !! VStr s) → is_puzzle_complete fr = Err TypeError.
Proof.
  intros [f Hf]. apply is_puzzle_complete_not_int_keyed.
  intros Hint. exact (Hint _ _ Hf).
Qed.

Lemma is_puzzle_complete_raises_on_str_key_witness :
  is_puzzle_complete (<[VStr "0" := mkFragment (VInt 1) (VStr "0") (VStr "x")]> store_abc)
  = Err TypeError.
Proof.
  apply (is_puzzle_complete_raises_on_str_key _ "0").
  eexists. by vm_compute.
Defined.






(** X5.  Storing a fragment at index [i] into a complete store whose maximum
    index is [M] leaves the store complete when [i] is at most
    [max(M + 1, 0)], and makes it incomplete when [i] lies further out:
    completeness can be lost by finding one more fragment. *)
Theorem complete_after_store (fr : gmap pyval Fragment) (M i : Z) (f : Fragment) :
  int_keyed fr → is_puzzle_complete fr = Ok true → max_index fr M →
  is_puzzle_complete (<[VInt i := f]> fr) = Ok (bool_decide (i ≤ Z.max (M + 1) 0)).
Proof.
  intros Hint Hc [HM1 HM2].
  apply is_puzzle_complete_iff in Hc as (_ & M0 & HM0 & Hgap); [|done].
  rewrite (max_index_unique fr M0 M HM0 (conj HM1 HM2)) in Hgap. clear M0 HM0.
  assert (int_keyed (<[VInt i := f]> fr)) as Hint' by by apply map_Forall_insert_2.
  assert (∀ z, is_Some (<[VInt i := f]> fr !! VInt z) ↔ z = i ∨ is_Some (fr !! VInt z))
    as Hkeys.
  { intros z. rewrite lookup_insert_is_Some. split.
    - intros [[= ->]|[_ ?]]; [by left|by right].
    - intros [->|?]; [by left|].
      destruct (decide (VInt i = VInt z)); [by left|by right]. }
  destruct (is_puzzle_complete_total _ Hint') as [b Hb]. rewrite Hb. f_equal.
  destruct b; symmetry.
  - apply bool_decide_eq_true.
    apply is_puzzle_complete_iff in Hb as (_ & M' & [HM'1 HM'2] & Hgap'); [|done].
    destruct (decide (i ≤ Z.max (M + 1) 0)) as [|Hfar]; [done|]. exfalso.
    assert (i ≤ M') as Hi by (apply HM'2, Hkeys; by left).
    destruct (Hgap' (Z.max (M + 1) 0)) as [g Hg]; [lia|].
    assert (is_Some (<[VInt i := f]> fr !! VInt (Z.max (M + 1) 0))) as Hj by eauto.
    apply Hkeys in Hj as [Hj|Hj]; [lia|]. specialize (HM2 _ Hj). lia.
  - apply bool_decide_eq_false. intros Hnear.
    assert (is_puzzle_complete (<[VInt i := f]> fr) = Ok true) as Hb'; [|congruence].
    apply is_puzzle_complete_iff; [done|]. split; [apply insert_non_empty|].
    exists (Z.max M i). split; [split|].
    + apply Hkeys. destruct (Z.max_spec M i) as [[_ ->]|[_ ->]]; [by left|by right].
    + intros z Hz. apply Hkeys in Hz as [->|Hz]; [lia|].
      specialize (HM2 _ Hz). lia.
    + intros j Hj. apply Hkeys.
      destruct (decide (j = i)) as [|Hne]; [by left|right].
      apply Hgap. lia.
Qed.

Lemma complete_after_store_witness :
  is_puzzle_complete (<[VInt 4 := frag 44 4 "E"]> store_abc)
  = Ok (bool_decide (4 ≤ Z.max (2 + 1) 0)).
Proof.
  apply (complete_after_store store_abc 2 4 (frag 44 4 "E")).
  - apply map_Forall_to_list. vm_compute. repeat constructor.
  - by vm_compute.
  - split; [by exists (frag 12 2 "C")|].
    intros z [g Hg]. unfold store_abc in Hg.
    repeat (apply lookup_insert_Some in Hg as [[[= <-] _]|[_ Hg]]; [lia|]).
    apply lookup_singleton_Some in Hg as [[= <-] _]. lia.
Defined.

(** ** [get_assembled_message]: errors and the gapless case *)

Lemma strings_of_spec (items : list pyval) :
  match strings_of items with
  | Ok _ => Forall (λ v, is_str v) items
  | Err e => e = TypeError ∧ Exists (λ v, is_int v) items
  end.
Proof.
  induction items as [|[z|s] items IH]; cbn.
  - constructor.
  - split; [done|]. by left.
  - destruct (strings_of items) as [l|e].
    + by constructor.
    + destruct IH as [-> IH]. split; [done|]. by right.
Qed.

Lemma str_texts_sorted (fr : gmap pyval Fragment) (items : list (pyval * Fragment)) :
  items ≡ₚ map_to_list fr →
  Forall (λ v, is_str v) ((λ kv, text kv.2) <$> items) ↔ str_texts fr.
Proof.
  intros Hp. unfold str_texts. rewrite map_Forall_to_list, <- Hp, Forall_fmap.
  split; intros H; eapply Forall_impl; try exact H; by intros [k f].
Qed.

Lemma get_assembled_message_int_payload (fr : gmap pyval Fragment) (k : pyval)
    (f : Fragment) (z : Z) :
  int_keyed fr → is_puzzle_complete fr = Ok true →
  fr !! k = Some f → text f = VInt z →
  get_assembled_message fr = Err TypeError.
Proof.
  intros Hint Hb Hf Htext. unfold get_assembled_message. rewrite Hb.
  rewrite py_sorted_int_keyed by done. unfold py_join.
  pose proof (strings_of_spec
                ((λ kv, text kv.2) <$> merge_sort int_item_le (map_to_list fr))) as Hs.
  pose proof (str_texts_sorted fr (merge_sort int_item_le (map_to_list fr))
                (merge_sort_Permutation _ _)) as Hiff.
  destruct (strings_of _) as [l|e'].
  - exfalso. apply Hiff in Hs. specialize (Hs k f Hf). cbn in Hs.
    by rewrite Htext in Hs.
  - by destruct Hs as [-> _].
Qed.

(** X6.  [get_assembled_message] raises [TypeError] on a store that holds a
    key of type [str], and on a complete store with int keys in which some
    payload is an int.  On an incomplete store it returns the empty string
    whatever the payloads are. *)
Theorem get_assembled_message_raises_on_ill_typed_store (fr : gmap pyval Fragment) :
  (∀ s, is_Some (fr !! VStr s) → get_assembled_message fr = Err TypeError)
  ∧ (∀ k f z, int_keyed fr → is_puzzle_complete fr = Ok true →
              fr !! k = Some f → text f = VInt z →
              get_assembled_message fr = Err TypeError)
  ∧ (is_puzzle_complete fr = Ok false → get_assembled_message fr = Ok "").
Proof.
  split; [|split].
  - intros s [f Hf]. unfold get_assembled_message.
    rewrite is_puzzle_complete_not_int_keyed; [done|].
    intros Hint. exact (Hint _ _ Hf).
  - intros k f z. apply get_assembled_message_int_payload.
  - unfold get_assembled_message. by intros ->.
Qed.

Lemma get_assembled_message_raises_on_ill_typed_store_witness :
  get_assembled_message (<[VInt 1 := mkFragment (VInt 11) (VInt 1) (VInt 7)]> store_abc)
  = Err TypeError
  ∧ get_assembled_message (<[VInt 5 := frag 15 5 "F"]> store_abc) = Ok "".
Proof.
  split.
  - apply (proj1 (proj2 (get_assembled_message_raises_on_ill_typed_store _))
             (VInt 1) (mkFragment (VInt 11) (VInt 1) (VInt 7)) 7).
    + apply map_Forall_to_list. vm_compute. repeat constructor.
    + by vm_compute.
    + by vm_compute.
    + reflexivity.
  - apply (proj2 (proj2 (get_assembled_message_raises_on_ill_typed_store _))).
    by vm_compute.
Defined.

(** X7.  When the store holds exactly the indices 0, 1, ..., M, with string
    payloads, the assembled message is the payload at 0, a space, the
    payload at 1, and so on up to the payload at M. *)
Theorem get_assembled_message_gapless (fr : gmap pyval Fragment) (M : Z) :
  0 ≤ M → str_texts fr →
  (∀ k, is_Some (fr !! k) ↔ ∃ z, k = VInt z ∧ 0 ≤ z ≤ M) →
  get_assembled_message fr = Ok (join " " (payload_at fr <$> range 0 (M + 1))).
Proof.
  intros HM Hstr Hkeys.
  assert (∀ k, is_Some (fr !! k) ↔ k ∈ VInt <$> range 0 (M + 1)) as Hk.
  { intros k. rewrite Hkeys, list_elem_of_fmap. split.
    - intros (z & -> & Hz). exists z. split; [done|]. apply elem_of_range. lia.
    - intros (z & -> & Hz). exists z. split; [done|]. apply elem_of_range in Hz. lia. }
  assert (int_keyed fr) as Hint by by apply (int_keyed_of_keys _ (range 0 (M + 1))).
  apply get_assembled_message_keys; [done..| |].
  - apply is_puzzle_complete_iff; [done|]. split.
    + intros ->. destruct (proj2 (Hkeys (VInt 0))) as [g Hg]; [exists 0; split; [done|lia]|].
      by rewrite lookup_empty in Hg.
    + exists M. split; [split|].
      * apply Hkeys. exists M. split; [done|lia].
      * intros z Hz. apply Hkeys in Hz as (z' & [= <-] & ?). lia.
      * intros i Hi. apply Hkeys. by exists i.
  - apply indices_held_of_keys; [done|apply StronglySorted_range].
Qed.

Lemma get_assembled_message_gapless_witness :
  get_assembled_message store_abc
  = Ok (join " " (payload_at store_abc <$> range 0 (2 + 1))).
Proof.
  apply (get_assembled_message_gapless store_abc 2).
  - lia.
  - apply map_Forall_to_list. vm_compute. repeat constructor.
  - intros k. split.
    + intros [g Hg]. unfold store_abc in Hg.
      repeat (apply lookup_insert_Some in Hg as [[<- _]|[_ Hg]];
              [eexists; split; [reflexivity|lia]|]).
      apply lookup_singleton_Some in Hg as [<- _]. eexists; split; [reflexivity|lia].
    + intros (z & -> & Hz).
      assert (z = 0 ∨ z = 1 ∨ z = 2) as [->|[->| ->]] by lia; by eexists.
Defined.

(** ** What a run keeps *)

(** A property kept by every fetch, every store of a delivered fragment and
    every print is kept by batches, phases, the strategy and [solve_puzzle]. *)
(** X8.  Whatever the service does and however a batch, a phase or a whole run
    ends (by returning, by raising or still running), every fragment in the
    store afterwards either was there before under the same key, or was
    delivered by the service and sits under its own index: the decoder
    never invents or misfiles a fragment. *)
Theorem stored_fragments_were_delivered (srv : service) (d d' : PuzzleDecoder) :
  runs_to srv d d' →
  ∀ k f, fragments d' !! k = Some f →
         fragments d !! k = Some f ∨ (index f = k ∧ delivered srv f).
Proof.
  intros Hrun.
  apply (runs_to_inv srv
           (λ d1, ∀ k f, fragments d1 !! k = Some f →
                         fragments d !! k = Some f ∨ (index f = k ∧ delivered srv f))
           (delivered srv) d d'); [| | |done|by left].
  - intros i d1 H1. split.
    + by destruct (fetch_fragment_frame srv i d1) as (-> & _).
    + intros f Hf. apply fetch_fragment_Some in Hf as [_ Hf].
      by exists (requests d1), i.
  - intros d1 g H1 Hg k f. cbn. rewrite lookup_insert.
    destruct (decide (index g = k)) as [<-|]; [|apply H1].
    intros [= <-]. by right.
  - by intros line d1 H1.
Qed.

Lemma stored_fragments_were_delivered_witness :
  fragments fresh !! VInt 1 = Some (frag 9 1 "World")
  ∨ (index (frag 9 1 "World") = VInt 1 ∧ delivered hello_world (frag 9 1 "World")).
Proof.
  apply (stored_fragments_were_delivered hello_world fresh
           (final_state (solve_puzzle hello_world sample0 2 fresh))).
  - apply run_solve.
  - by vm_compute.
Defined.

(** X9.  A batch, a phase or a whole run never changes the base URL or the
    concurrency limit and never removes an index from the store. *)
Theorem runs_keep_configuration_and_keys (srv : service) (d d' : PuzzleDecoder) :
  runs_to srv d d' →
  base_url d' = base_url d
  ∧ max_concurrent d' = max_concurrent d
  ∧ dom (fragments d) ⊆ dom (fragments d').
Proof.
  intros Hrun.
  apply (runs_to_inv srv
           (λ d1, base_url d1 = base_url d ∧ max_concurrent d1 = max_concurrent d
                  ∧ dom (fragments d) ⊆ dom (fragments d1))
           (λ _, True) d d'); [| | |done|done].
  - intros i d1 H1. split; [|done].
    by destruct (fetch_fragment_frame srv i d1) as (-> & -> & _ & ->).
  - intros d1 g (? & ? & Hdom) _. cbn. split; [done|]. split; [done|].
    rewrite dom_insert_L. set_solver.
  - by intros line d1 H1.
Qed.

Lemma runs_keep_configuration_and_keys_witness :
  base_url (final_state (solve_puzzle blank sample0 0 fresh)) = base_url fresh
  ∧ max_concurrent (final_state (solve_puzzle blank sample0 0 fresh))
    = max_concurrent fresh
  ∧ dom (fragments fresh) ⊆ dom (fragments (final_state (solve_puzzle blank sample0 0 fresh))).
Proof.
  apply (runs_keep_configuration_and_keys blank fresh). apply run_solve.
Defined.

(** ** Phase 3: which identifiers of a window are probed *)

Lemma range_app (a m b : Z) : a ≤ m ≤ b → range a b = (range a m ++ range m b)%list.
Proof.
  intros H. remember (Z.to_nat (m - a)) as n eqn:Hn. revert a H Hn.
  induction n as [|n IH]; intros a H Hn.
  - assert (m = a) as -> by lia. by rewrite (range_nil a a) by lia.
  - rewrite (range_cons a b), (range_cons a m) by lia. cbn. f_equal. apply IH; lia.
Qed.

Lemma filter_app_prefix {A} (P : A → Prop) `{!∀ x, Decision (P x)} (l1 l2 : list A) :
  Forall P l1 → Forall (λ x, ¬ P x) l2 → filter P (l1 ++ l2)%list = l1.
Proof.
  intros H1 H2. rewrite filter_app.
  assert (filter P l1 = l1) as ->.
  { induction H1 as [|x l Hx _ IH]; [done|]. by rewrite filter_cons_True, IH. }
  assert (filter P l2 = []) as ->; [|by rewrite app_nil_r].
  induction H2 as [|x l Hx _ IH]; [done|]. by rewrite filter_cons_False.
Qed.

(** X10.  In phase 3 the batch is the list of unseen identifiers of the window
    [range(search_id, search_id + max_concurrent)].  The probe that follows
    requests exactly the members of the batch that lie below
    [batch_ids[0] + len(batch_ids)], and those all lie inside the window:
    nothing outside the batch is requested, and the members at or beyond
    that bound are skipped. *)
Theorem window_probe_requests (srv : service) (search_id stop first : Z)
    (rest : list Z) (d : PuzzleDecoder) :
  filter (λ x, x ∉ seen_ids d) (range search_id stop) = first :: rest →
  first + Z.of_nat (length (first :: rest)) ≤ stop
  ∧ requests (final_state (fetch_batch_of srv (first :: rest) d))
    = (requests d
       ++ filter (λ x, x < first + Z.of_nat (length (first :: rest)))
            (first :: rest))%list.
Proof.
  intros Hbatch. set (n := Z.of_nat (length (first :: rest))).
  assert (first ∈ filter (λ x, x ∉ seen_ids d) (range search_id stop)) as Hin
    by (rewrite Hbatch; apply list_elem_of_here).
  apply list_elem_of_filter in Hin as [Hunseen Hrange].
  apply elem_of_range in Hrange.
  (* no unseen identifier of the window lies below [first] *)
  assert (filter (λ x, x ∉ seen_ids d) (range first stop) = first :: rest) as Hfrom.
  { rewrite (range_app search_id first stop), filter_app in Hbatch by lia.
    destruct (filter (λ x, x ∉ seen_ids d) (range search_id first)) as [|h t] eqn:Hlow;
      [done|].
    exfalso. injection Hbatch as Hh _.
    assert (h ∈ filter (λ x, x ∉ seen_ids d) (range search_id first)) as Hhin
      by (rewrite Hlow; apply list_elem_of_here).
    apply list_elem_of_filter in Hhin as [_ Hhin]. apply elem_of_range in Hhin. lia. }
  assert (first + n ≤ stop) as Hn.
  { subst n. rewrite <- Hfrom.
    pose proof (length_filter (λ x, x ∉ seen_ids d) (range first stop)) as Hlen.
    rewrite length_range in Hlen. lia. }
  split; [done|].
  rewrite fetch_batch_of_requests. fold n. f_equal.
  rewrite <- Hfrom, (range_app first (first + n) stop), filter_app by lia.
  symmetry. apply filter_app_prefix.
  - apply Forall_forall. intros x Hx. apply list_elem_of_filter in Hx as [_ Hx].
    apply elem_of_range in Hx. lia.
  - apply Forall_forall. intros x Hx. apply list_elem_of_filter in Hx as [_ Hx].
    apply elem_of_range in Hx. lia.
Qed.

Lemma window_probe_requests_witness :
  2 + Z.of_nat (length (2 :: range 4 31)) ≤ 31
  ∧ requests (final_state (fetch_batch_of not_found (2 :: range 4 31)
                             (set_seen_ids {[1; 3]} fresh)))
    = (requests (set_seen_ids {[1; 3]} fresh)
       ++ filter (λ x, x < 2 + Z.of_nat (length (2 :: range 4 31)))
            (2 :: range 4 31))%list.
Proof.
  apply (window_probe_requests not_found 1 31 2 (range 4 31)
           (set_seen_ids {[1; 3]} fresh)).
  by vm_compute.
Defined.

(** ** Batches on a service with a fixed catalogue *)

Lemma gather_serves_seen (srv : service) (catalog : Z → option Fragment)
    (ids : list Z) (d : PuzzleDecoder) (x : Z) :
  serves srv catalog →
  x ∈ seen_ids (snd (gather srv ids d))
  ↔ x ∈ seen_ids d ∨ (x ∈ ids ∧ is_Some (catalog x)).
Proof.
  intros Hsrv. revert d. induction ids as [|k ids IH]; intros d.
  { cbn. split; [by left|]. intros [?|[Hx _]]; [done|]. by apply elem_of_nil in Hx. }
  cbn [gather].
  pose proof (fetch_fragment_seen_ids srv k d) as Hseen.
  pose proof (fetch_fragment_Some srv k d) as Hsome.
  pose proof (fetch_fragment_unseen srv k d) as Hun.
  destruct (fetch_fragment srv k d) as [r d1]. cbn [fst snd] in *.
  specialize (IH d1). destruct (gather srv ids d1) as [rs d2]. cbn [fst snd] in *.
  rewrite IH, Hseen, elem_of_cons. destruct r as [f|].
  - destruct (Hsome f eq_refl) as [Hk Hr]. rewrite Hsrv in Hr.
    rewrite elem_of_union, elem_of_singleton. split.
    + intros [[->|?]|[? ?]]; [right|by left|right].
      * split; [by left|by exists f].
      * split; [by right|done].
    + intros [?|[[->|?] ?]]; [by left; right|by left; left|by right].
  - split.
    + intros [?|[? ?]]; [by left|right]. split; [by right|done].
    + intros [?|[[->|?] Hc]]; [by left| |by right].
      left. destruct (decide (k ∈ seen_ids d)) as [|Hk]; [done|exfalso].
      specialize (Hun Hk). rewrite Hsrv in Hun. destruct Hc as [f Hc].
      rewrite Hc in Hun. by injection Hun.
Qed.

Lemma gather_serves_found (srv : service) (catalog : Z → option Fragment)
    (ids : list Z) (d : PuzzleDecoder) (f : Fragment) :
  serves srv catalog →
  f ∈ omap (λ r, r) (fst (gather srv ids d))
  ↔ ∃ k, k ∈ ids ∧ (k ∉ seen_ids d) ∧ catalog k = Some f.
Proof.
  intros Hsrv. revert d. induction ids as [|k ids IH]; intros d.
  { cbn. split; [by intros ?%elem_of_nil|]. by intros (k & ?%elem_of_nil & _). }
  cbn [gather].
  pose proof (fetch_fragment_seen_ids srv k d) as Hseen.
  pose proof (fetch_fragment_Some srv k d) as Hsome.
  pose proof (fetch_fragment_unseen srv k d) as Hun.
  destruct (fetch_fragment srv k d) as [r d1]. cbn [fst snd] in *.
  specialize (IH d1). destruct (gather srv ids d1) as [rs d2]. cbn [fst snd] in *.
  destruct r as [g|]; cbn [omap list_omap].
  - destruct (Hsome g eq_refl) as [Hk Hr]. rewrite Hsrv in Hr.
    rewrite elem_of_cons, IH, Hseen. split.
    + intros [->|(k' & Hk' & Hun' & Hc)].
      * exists k. split; [by left|done].
      * exists k'. split; [by right|]. split; [set_solver|done].
    + intros (k' & Hk' & Hun' & Hc). apply elem_of_cons in Hk' as [->|Hk'].
      * left. congruence.
      * destruct (decide (k' = k)) as [->|Hne]; [left; congruence|].
        right. exists k'. split; [done|]. split; [set_solver|done].
  - rewrite IH, Hseen. split.
    + intros (k' & Hk' & Hun' & Hc). exists k'. split; [by right|done].
    + intros (k' & Hk' & Hun' & Hc). apply elem_of_cons in Hk' as [->|Hk'].
      * exfalso. specialize (Hun Hun'). rewrite Hsrv, Hc in Hun. by injection Hun.
      * by exists k'.
Qed.

Lemma last_with_index_unique (k : pyval) (found : list Fragment) (f : Fragment) :
  (∀ g, g ∈ found → index g = k → g = f) → f ∈ found → index f = k →
  last_with_index k found = Some f.
Proof.
  intros Huniq Hf Hk. destruct (last_with_index k found) as [g|] eqn:Hl.
  - apply last_with_index_Some in Hl as [Hg Hgk]. f_equal. by apply Huniq.
  - apply last_with_index_None in Hl. exfalso. apply Hl. rewrite <- Hk.
    by apply list_elem_of_fmap_2.
Qed.

Lemma probe_frame (label : string) (srv : service) (start_id batch_size : Z)
    (d : PuzzleDecoder) :
  seen_ids (probe label srv start_id batch_size d)
  = seen_ids (snd (fetch_batch srv start_id batch_size d))
  ∧ max_concurrent (probe label srv start_id batch_size d) = max_concurrent d
  ∧ console (probe label srv start_id batch_size d) = console d.
Proof.
  unfold probe.
  destruct (ingested_frame label (fst (fetch_batch srv start_id batch_size d))
              (snd (fetch_batch srv start_id batch_size d)))
    as (_ & -> & -> & _ & -> & _).
  rewrite fetch_batch_unfold. cbn [snd].
  by destruct (gather_frame srv (range start_id (start_id + batch_size)) d)
    as (_ & -> & -> & _).
Qed.

Lemma probe_terminal (label : string) (srv : service) (start_id batch_size : Z)
    (d : PuzzleDecoder) :
  terminal (probe label srv start_id batch_size d) = terminal d.
Proof.
  unfold probe.
  destruct (ingested_frame label (fst (fetch_batch srv start_id batch_size d))
              (snd (fetch_batch srv start_id batch_size d)))
    as (_ & _ & _ & _ & _ & -> & _).
  by destruct (fetch_batch_output srv start_id batch_size d) as [-> _].
Qed.

Lemma probe_fragments (label : string) (srv : service) (start_id batch_size : Z)
    (d : PuzzleDecoder) :
  fragments (probe label srv start_id batch_size d)
  = fragments (store_all (fst (fetch_batch srv start_id batch_size d))
                 (snd (fetch_batch srv start_id batch_size d))).
Proof.
  unfold probe.
  by destruct (ingested_frame label (fst (fetch_batch srv start_id batch_size d))
                 (snd (fetch_batch srv start_id batch_size d))) as (-> & _).
Qed.

Section two_catalog.
Context (srv : service) (i0 i1 : Z) (a0 a1 : pyval) (t0 t1 : string).
#[local] Abbreviation f0 := (mkFragment a0 (VInt 0) (VStr t0)).
#[local] Abbreviation f1 := (mkFragment a1 (VInt 1) (VStr t1)).
Hypothesis Hsrv : serves srv (two_fragments i0 i1 f0 f1).
Hypothesis Hne : i0 ≠ i1.

Lemma two_fragments_Some (k : Z) (g : Fragment) :
  two_fragments i0 i1 f0 f1 k = Some g ↔ (k = i0 ∧ g = f0) ∨ (k = i1 ∧ g = f1).
Proof.
  unfold two_fragments. repeat case_bool_decide; split; try naive_solver.
Qed.

Lemma probe_seen (label : string) (start_id batch_size : Z) (d : PuzzleDecoder) (x : Z) :
  x ∈ seen_ids (probe label srv start_id batch_size d)
  ↔ x ∈ seen_ids d
    ∨ ((x = i0 ∨ x = i1) ∧ start_id ≤ x < start_id + batch_size).
Proof.
  destruct (probe_frame label srv start_id batch_size d) as (-> & _).
  rewrite fetch_batch_unfold. cbn [snd].
  rewrite (gather_serves_seen srv _ _ _ _ Hsrv), elem_of_range.
  assert (is_Some (two_fragments i0 i1 f0 f1 x) ↔ x = i0 ∨ x = i1) as ->; [|tauto].
  unfold two_fragments. repeat case_bool_decide; split; try naive_solver.
Qed.

Lemma found_two (start_id batch_size : Z) (d : PuzzleDecoder) (g : Fragment) :
  g ∈ fst (fetch_batch srv start_id batch_size d)
  ↔ (g = f0 ∧ (i0 ∉ seen_ids d) ∧ start_id ≤ i0 < start_id + batch_size)
    ∨ (g = f1 ∧ (i1 ∉ seen_ids d) ∧ start_id ≤ i1 < start_id + batch_size).
Proof.
  rewrite fetch_batch_unfold. cbn [fst].
  rewrite (gather_serves_found srv _ _ _ _ Hsrv). split.
  - intros (k & Hk & Hun & Hc). apply elem_of_range in Hk.
    apply two_fragments_Some in Hc as [[-> ->]|[-> ->]]; [by left|by right].
  - intros [(-> & Hun & Hr)|(-> & Hun & Hr)].
    + exists i0. rewrite elem_of_range, two_fragments_Some. naive_solver.
    + exists i1. rewrite elem_of_range, two_fragments_Some. naive_solver.
Qed.

Lemma store_of_lookup (seen : gset Z) (k : pyval) :
  store_of i0 i1 f0 f1 seen !! k
  = if decide (k = VInt 0) then (if decide (i0 ∈ seen) then Some f0 else None)
    else if decide (k = VInt 1) then (if decide (i1 ∈ seen) then Some f1 else None)
    else None.
Proof.
  unfold store_of. rewrite lookup_union.
  destruct (decide (i0 ∈ seen)), (decide (i1 ∈ seen));
    rewrite ?lookup_singleton, ?lookup_empty;
    repeat case_decide; subst; done.
Qed.

(** A probe keeps the store in step with the seen set. *)
Lemma probe_mirrors (label : string) (start_id batch_size : Z) (d : PuzzleDecoder) :
  mirrors i0 i1 f0 f1 d → mirrors i0 i1 f0 f1 (probe label srv start_id batch_size d).
Proof.
  unfold mirrors. intros Hm. apply map_eq. intros k.
  rewrite store_of_lookup, probe_fragments, store_all_lookup.
  assert (fragments (snd (fetch_batch srv start_id batch_size d)) = fragments d) as ->.
  { rewrite fetch_batch_unfold. cbn [snd].
    by destruct (gather_frame srv (range start_id (start_id + batch_size)) d). }
  rewrite Hm, store_of_lookup.
  set (found := fst (fetch_batch srv start_id batch_size d)).
  pose proof (probe_seen label start_id batch_size d i0) as Hs0.
  pose proof (probe_seen label start_id batch_size d i1) as Hs1.
  pose proof (found_two start_id batch_size d) as Hfound. fold found in Hfound.
  destruct (decide (k = VInt 0)) as [->|Hk0]; [|destruct (decide (k = VInt 1)) as [->|Hk1]].
  - destruct (decide ((i0 ∉ seen_ids d) ∧ start_id ≤ i0 < start_id + batch_size))
      as [[Hun Hr]|Hno].
    + rewrite (last_with_index_unique (VInt 0) found f0); cbn.
      * rewrite decide_True; [done|]. apply Hs0. right. split; [by left|done].
      * intros g Hg Hix. apply Hfound in Hg as [[-> _]|[-> _]]; [done|done].
      * apply Hfound. by left.
      * done.
    + assert (last_with_index (VInt 0) found = None) as ->.
      { apply last_with_index_None. intros Hin.
        apply list_elem_of_fmap in Hin as (g & Hix & Hg).
        apply Hfound in Hg as [(-> & ? & ?)|(-> & _)]; [by apply Hno|done]. }
      cbn. destruct (decide (i0 ∈ seen_ids d)) as [Hin|Hout].
      * rewrite decide_True; [done|]. apply Hs0. by left.
      * rewrite decide_False; [done|]. intros Hin. apply Hs0 in Hin as [?|[_ ?]]; [done|].
        by apply Hno.
  - destruct (decide ((i1 ∉ seen_ids d) ∧ start_id ≤ i1 < start_id + batch_size))
      as [[Hun Hr]|Hno].
    + rewrite (last_with_index_unique (VInt 1) found f1); cbn.
      * rewrite decide_True; [done|]. apply Hs1. right. split; [by right|done].
      * intros g Hg Hix. apply Hfound in Hg as [[-> _]|[-> _]]; [done|done].
      * apply Hfound. by right.
      * done.
    + assert (last_with_index (VInt 1) found = None) as ->.
      { apply last_with_index_None. intros Hin.
        apply list_elem_of_fmap in Hin as (g & Hix & Hg).
        apply Hfound in Hg as [(-> & _)|(-> & ? & ?)]; [done|by apply Hno]. }
      cbn. destruct (decide (i1 ∈ seen_ids d)) as [Hin|Hout].
      * rewrite decide_True; [done|]. apply Hs1. by left.
      * rewrite decide_False; [done|]. intros Hin. apply Hs1 in Hin as [?|[_ ?]]; [done|].
        by apply Hno.
  - assert (last_with_index k found = None) as ->; [|done].
    apply last_with_index_None. intros Hin.
    apply list_elem_of_fmap in Hin as (g & Hix & Hg).
    apply Hfound in Hg as [(-> & _)|(-> & _)]; cbn in Hix; congruence.
Qed.
Lemma complete_store_of (seen : gset Z) :
  is_puzzle_complete (store_of i0 i1 f0 f1 seen) = Ok (bool_decide (i0 ∈ seen)).
Proof.
  unfold store_of. destruct (decide (i0 ∈ seen)), (decide (i1 ∈ seen)).
  - by rewrite bool_decide_eq_true_2.
  - by rewrite bool_decide_eq_true_2.
  - by rewrite bool_decide_eq_false_2.
  - by rewrite bool_decide_eq_false_2.
Qed.

Lemma message_store_of (seen : gset Z) :
  i0 ∈ seen →
  get_assembled_message (store_of i0 i1 f0 f1 seen)
  = Ok (if decide (i1 ∈ seen) then t0 +:+ " " +:+ t1 else t0).
Proof.
  intros H0. unfold store_of. rewrite decide_True by done.
  by destruct (decide (i1 ∈ seen)).
Qed.
End two_catalog.

(** ** The phases, probe by probe *)

Lemma fetch_batch_of_probe (label : string) (srv : service) (first : Z) (rest : list Z)
    (d : PuzzleDecoder) :
  ∃ found d1,
    fetch_batch_of srv (first :: rest) d = Ret found d1
    ∧ found = fst (fetch_batch srv first (Z.of_nat (length (first :: rest))) d)
    ∧ terminal d1 = terminal d
    ∧ ingested label found d1
      = probe label srv first (Z.of_nat (length (first :: rest))) d.
Proof.
  rewrite fetch_batch_of_cons. eexists _, _. split; [done|]. split; [done|].
  split; [|done]. by destruct (fetch_batch_output srv first
                                 (Z.of_nat (length (first :: rest))) d).
Qed.

(** One probe when every line can be printed. *)
Lemma probe_run (label : string) (srv : service) (first : Z) (rest : list Z)
    (d : PuzzleDecoder) :
  shows_all d →
  ∃ found d1,
    fetch_batch_of srv (first :: rest) d = Ret found d1
    ∧ found = fst (fetch_batch srv first (Z.of_nat (length (first :: rest))) d)
    ∧ ingest label found d1
      = Ret tt (probe label srv first (Z.of_nat (length (first :: rest))) d).
Proof.
  intros Hout.
  destruct (fetch_batch_of_probe label srv first rest d)
    as (found & d1 & Hrun & Hfound & Hterm & Hp).
  exists found, d1. split; [done|]. split; [done|].
  rewrite ingest_shows_all; [by rewrite Hp|].
  intros line. rewrite Hterm. apply Hout.
Qed.

Lemma discover_batches_step (srv : service) (random_ids : list Z) (batch_size i : Z)
    (starts : list Z) (d : PuzzleDecoder) (first : Z) (rest : list Z) :
  shows_all d →
  py_slice random_ids i (i + batch_size) = first :: rest →
  discover_batches srv random_ids batch_size (i :: starts) d
  = match is_puzzle_complete
            (fragments (probe "Found fragment " srv first
                          (Z.of_nat (length (first :: rest))) d)) with
    | Ok true =>
        Ret Return (probe "Found fragment " srv first
                      (Z.of_nat (length (first :: rest))) d)
    | Ok false =>
        discover_batches srv random_ids batch_size starts
          (probe "Found fragment " srv first (Z.of_nat (length (first :: rest))) d)
    | Err e =>
        Raise e (probe "Found fragment " srv first
                   (Z.of_nat (length (first :: rest))) d)
    end.
Proof.
  intros Hout Hslice. cbn [discover_batches]. rewrite Hslice. unfold mbind, M_bind.
  destruct (probe_run "Found fragment " srv first rest d Hout)
    as (found & d1 & -> & _ & ->).
  unfold complete at 1, lift.
  by destruct (is_puzzle_complete _) as [[|]|].
Qed.

Lemma gap_batches_complete (srv : service) (remaining_ids starts : list Z)
    (d : PuzzleDecoder) :
  is_puzzle_complete (fragments d) = Ok true →
  gap_batches srv remaining_ids starts d = Ret tt d.
Proof.
  intros Hc. destruct starts as [|i starts]; [done|].
  cbn [gap_batches]. unfold mbind, M_bind, complete, lift. by rewrite Hc.
Qed.

Lemma gap_batches_step (srv : service) (remaining_ids : list Z) (i : Z)
    (starts : list Z) (d : PuzzleDecoder) (first : Z) (rest : list Z) :
  shows_all d →
  is_puzzle_complete (fragments d) = Ok false →
  py_slice remaining_ids i (i + max_concurrent d) = first :: rest →
  gap_batches srv remaining_ids (i :: starts) d
  = gap_batches srv remaining_ids starts
      (probe "Found missing fragment " srv first
         (Z.of_nat (length (first :: rest))) d).
Proof.
  intros Hout Hc Hslice. cbn [gap_batches]. unfold mbind, M_bind.
  unfold complete at 1, lift. rewrite Hc. unfold get at 1. rewrite Hslice.
  destruct (probe_run "Found missing fragment " srv first rest d Hout)
    as (found & d1 & -> & _ & ->).
  done.
Qed.

Lemma discovering_sample (srv : service) (random_ids : list Z) (d : PuzzleDecoder) :
  max_concurrent d = 30 → length random_ids = 50%nat →
  discovering srv random_ids d = discover_batches srv random_ids 30 [0; 30] d.
Proof.
  intros Hmc Hlen. unfold discovering, mbind, M_bind, get, lift.
  by rewrite Hmc, Hlen.
Qed.

(** The two batches of a sample of 50 identifiers when the limit is 30. *)
Lemma sample_slices (l : list Z) :
  length l = 50%nat →
  ∃ b1 r1 b2 r2,
    head l = Some b1
    ∧ py_slice l 0 (0 + 30) = b1 :: r1 ∧ length (b1 :: r1) = 30%nat
    ∧ py_slice l 30 (30 + 30) = b2 :: r2 ∧ length (b2 :: r2) = 20%nat
    ∧ b2 ∈ l.
Proof.
  intros Hlen. unfold py_slice, slice_bound. rewrite Hlen.
  change (Z.to_nat (if bool_decide (0 + 30 < 0) then Z.max 0 (0 + 30 + Z.of_nat 50)
                    else Z.min (0 + 30) (Z.of_nat 50))) with 30%nat.
  change (Z.to_nat (if bool_decide (0 < 0) then Z.max 0 (0 + Z.of_nat 50)
                    else Z.min 0 (Z.of_nat 50))) with 0%nat.
  change (Z.to_nat (if bool_decide (30 + 30 < 0) then Z.max 0 (30 + 30 + Z.of_nat 50)
                    else Z.min (30 + 30) (Z.of_nat 50))) with 50%nat.
  change (Z.to_nat (if bool_decide (30 < 0) then Z.max 0 (30 + Z.of_nat 50)
                    else Z.min 30 (Z.of_nat 50))) with 30%nat.
  change (30 - 0)%nat with 30%nat. change (50 - 30)%nat with 20%nat. rewrite drop_0.
  destruct l as [|b1 l]; [done|].
  destruct (drop 30 (b1 :: l)) as [|b2 r2] eqn:Hdrop.
  { apply (f_equal length) in Hdrop. rewrite length_drop, Hlen in Hdrop. done. }
  exists b1, (take 29 l), b2, (take 19 r2).
  assert (length (b2 :: r2) = 20%nat) as Hlen2.
  { rewrite <- Hdrop, length_drop, Hlen. done. }
  cbn in Hlen, Hlen2. repeat split.
  - cbn. rewrite length_take. lia.
  - cbn. rewrite length_take. lia.
  - apply (list_elem_of_lookup_2 _ 30).
    rewrite <- (Nat.add_0_r 30), <- lookup_drop, Hdrop. done.
Qed.

Lemma unseen_count (seen : gset Z) (l : list Z) :
  NoDup l → (length l ≤ length (filter (λ x, x ∉ seen) l) + size seen)%nat.
Proof.
  intros Hnd.
  pose proof (filter_app_complement (λ x, x ∉ seen) l) as Hp.
  apply Permutation_length in Hp. rewrite length_app in Hp.
  assert (length (filter (λ x : Z, ¬ (x ∉ seen)) l) ≤ size seen)%nat; [|lia].
  rewrite <- (size_list_to_set (C:=gset Z)) by by apply NoDup_filter.
  apply subseteq_size. intros x Hx. apply elem_of_list_to_set in Hx.
  apply list_elem_of_filter in Hx as [Hx _].
  destruct (decide (x ∈ seen)); [done|]. by exfalso.
Qed.

Lemma range_step_head (n step : Z) :
  0 < n → 0 < step → ∃ starts, range_step 0 n step = Ok (0 :: starts).
Proof.
  intros Hn Hstep. unfold range_step.
  rewrite bool_decide_eq_false_2 by lia. rewrite bool_decide_eq_true_2 by lia.
  assert (1 ≤ (n - 0 + step - 1) `div` step) by (apply Z.div_le_lower_bound; lia).
  destruct (Z.to_nat ((n - 0 + step - 1) `div` step)) as [|m] eqn:Hm; [lia|].
  cbn [seq fmap list_fmap]. eexists. do 2 f_equal. lia.
Qed.

Lemma py_slice_prefix (l : list Z) (first : Z) (l' : list Z) :
  l = first :: l' → (20 ≤ length l)%nat →
  ∃ rest, py_slice l 0 (0 + 30) = first :: rest
          ∧ (20 ≤ length (first :: rest))%nat.
Proof.
  intros -> Hlen. unfold py_slice, slice_bound.
  rewrite !bool_decide_eq_false_2 by lia.
  replace (Z.to_nat (Z.min 0 (Z.of_nat (length (first :: l'))))) with 0%nat by lia.
  rewrite drop_0, Nat.sub_0_r.
  destruct (Z.to_nat (Z.min (0 + 30) (Z.of_nat (length (first :: l'))))) as [|m] eqn:Hm.
  { cbn [length] in Hm. lia. }
  exists (take m l'). split; [done|]. cbn [length] in *. rewrite length_take. lia.
Qed.

(** What [gap_filling] does when an index is missing below the maximum. *)
Lemma gap_filling_missing (srv : service) (d : PuzzleDecoder) (M : Z) :
  fragments d ≠ ∅ → py_max (keys (fragments d)) = Ok (VInt M) →
  filter (λ i, ¬ is_Some (fragments d !! VInt i)) (range 0 (M + 1)) ≠ [] →
  gap_filling srv d
  = match range_step 0
            (Z.of_nat (length (filter (λ x, x ∉ seen_ids d) (range 1 10000))))
            (max_concurrent d) with
    | Ok starts =>
        gap_batches srv (filter (λ x, x ∉ seen_ids d) (range 1 10000)) starts d
    | Err e => Raise e d
    end.
Proof.
  intros Hne Hmax Hmiss. unfold gap_filling, mbind, M_bind, get, lift.
  rewrite bool_decide_eq_false_2 by done. rewrite Hmax. cbn [py_succ].
  destruct (filter _ (range 0 (M + 1))) as [|i missing]; [done|].
  by destruct (range_step _ _ _).
Qed.

Section two_catalog_runs.
Context (srv : service) (i0 i1 : Z) (a0 a1 : pyval) (t0 t1 : string).
#[local] Abbreviation f0 := (mkFragment a0 (VInt 0) (VStr t0)).
#[local] Abbreviation f1 := (mkFragment a1 (VInt 1) (VStr t1)).
Hypothesis Hsrv : serves srv (two_fragments i0 i1 f0 f1).
Hypothesis Hlow : 1 ≤ i0 < i1.
Hypothesis Hhigh : i1 ≤ 20.

Lemma ids_differ : i0 ≠ i1.
Proof. lia. Qed.

Lemma steady_complete (d : PuzzleDecoder) :
  steady i0 i1 f0 f1 d →
  is_puzzle_complete (fragments d) = Ok (bool_decide (i0 ∈ seen_ids d)).
Proof. intros (Hm & _). rewrite Hm. apply complete_store_of. Qed.

Lemma steady_unseen_one (d : PuzzleDecoder) :
  steady i0 i1 f0 f1 d → i0 ∉ seen_ids d → 1 ∉ seen_ids d.
Proof.
  intros (_ & _ & Hsub & _) Hi0 Hone. pose proof (Hsub _ Hone) as H.
  apply elem_of_union in H as [H|H]; apply elem_of_singleton in H; [|lia].
  apply Hi0. by rewrite <- H.
Qed.

Lemma steady_size (d : PuzzleDecoder) :
  steady i0 i1 f0 f1 d → (size (seen_ids d) ≤ 2)%nat.
Proof.
  intros (_ & _ & Hsub & _). apply subseteq_size in Hsub.
  rewrite (size_union (C:=gset Z)) in Hsub by (apply disjoint_singleton_l; set_solver by lia).
  by rewrite !size_singleton in Hsub.
Qed.

(** A probe that starts at 1 or later and spans at least 20 identifiers
    keeps the decoder steady: if it reaches [i0] it reaches [i1] too. *)
Lemma probe_steady (label : string) (start_id batch_size : Z) (d : PuzzleDecoder) :
  1 ≤ start_id → 20 ≤ batch_size → steady i0 i1 f0 f1 d →
  steady i0 i1 f0 f1 (probe label srv start_id batch_size d).
Proof.
  intros Hs Hn (Hm & Hmc & Hsub & Himp & Hout).
  split; [by apply probe_mirrors; [|apply ids_differ|]|]. split.
  { by destruct (probe_frame label srv start_id batch_size d) as (_ & -> & _). }
  split; [|split]; cycle 2.
  { intros line. rewrite probe_terminal. apply Hout. }
  - intros x Hx. apply (probe_seen srv i0 i1 a0 a1 t0 t1 Hsrv ids_differ) in Hx as [Hx|[Hx _]].
    + by apply Hsub.
    + destruct Hx as [->| ->]; set_solver.
  - intros H0. apply (probe_seen srv i0 i1 a0 a1 t0 t1 Hsrv ids_differ).
    apply (probe_seen srv i0 i1 a0 a1 t0 t1 Hsrv ids_differ) in H0 as [H0|[_ H0]].
    + left. by apply Himp.
    + right. split; [by right|lia].
Qed.

Lemma probe_reaches (label : string) (start_id batch_size : Z) (d : PuzzleDecoder) :
  start_id ≤ i0 < start_id + batch_size →
  i0 ∈ seen_ids (probe label srv start_id batch_size d).
Proof.
  intros H. apply (probe_seen srv i0 i1 a0 a1 t0 t1 Hsrv ids_differ). right. split; [by left|done].
Qed.

(** Phase 1 on a sample of 50 identifiers of the low range. *)
Lemma discovering_steady (random_ids : list Z) (d : PuzzleDecoder) :
  steady i0 i1 f0 f1 d → length random_ids = 50%nat →
  Forall (λ x, 1 ≤ x) random_ids →
  ∃ fl d1, discovering srv random_ids d = Ret fl d1 ∧ steady i0 i1 f0 f1 d1
           ∧ (fl = Return → i0 ∈ seen_ids d1).
Proof.
  intros Hd Hlen Hpos.
  destruct (sample_slices random_ids Hlen)
    as (b1 & r1 & b2 & r2 & Hhead & Hs1 & Hl1 & Hs2 & Hl2 & Hb2).
  assert (1 ≤ b1) as Hb1pos.
  { rewrite Forall_forall in Hpos. apply Hpos.
    destruct random_ids; [done|]. injection Hhead as ->. apply list_elem_of_here. }
  assert (1 ≤ b2) as Hb2pos by (rewrite Forall_forall in Hpos; by apply Hpos).
  rewrite discovering_sample by (done || apply Hd).
  rewrite (discover_batches_step _ _ _ _ _ _ b1 r1 (proj2 (proj2 (proj2 (proj2 Hd)))) Hs1).
  rewrite Hl1.
  set (d1 := probe "Found fragment " srv b1 (Z.of_nat 30) d).
  assert (steady i0 i1 f0 f1 d1) as Hd1 by (apply probe_steady; [done|lia|done]).
  rewrite (steady_complete d1 Hd1). case_bool_decide as H1.
  { exists Return, d1. done. }
  rewrite (discover_batches_step _ _ _ _ _ _ b2 r2 (proj2 (proj2 (proj2 (proj2 Hd1)))) Hs2).
  rewrite Hl2.
  set (d2 := probe "Found fragment " srv b2 (Z.of_nat 20) d1).
  assert (steady i0 i1 f0 f1 d2) as Hd2 by (apply probe_steady; [done|lia|done]).
  rewrite (steady_complete d2 Hd2). case_bool_decide as H2.
  { exists Return, d2. done. }
  exists Next, d2. done.
Qed.
(** Phase 2 ends with a steady decoder. *)
Lemma gap_filling_steady (d : PuzzleDecoder) :
  steady i0 i1 f0 f1 d →
  ∃ d2, gap_filling srv d = Ret tt d2 ∧ steady i0 i1 f0 f1 d2.
Proof.
  intros Hd. pose proof Hd as (Hm & Hmc & Hsub & Himp & Hout).
  destruct (decide (i0 ∈ seen_ids d)) as [H0|H0].
  { (* both indices are held: nothing is missing *)
    exists d. split; [|done]. pose proof (Himp H0) as H1.
    unfold gap_filling, mbind, M_bind, get, lift. rewrite Hm. unfold store_of.
    rewrite !decide_True by done. reflexivity. }
  destruct (decide (i1 ∈ seen_ids d)) as [H1|H1]; cycle 1.
  { (* the store is empty: phase 2 is skipped *)
    exists d. split; [|done].
    unfold gap_filling, mbind, M_bind, get, lift. rewrite Hm. unfold store_of.
    rewrite !decide_False by done. reflexivity. }
  (* index 1 is held, index 0 is missing *)
  assert (fragments d = ∅ ∪ {[ VInt 1 := f1 ]}) as Hfr.
  { rewrite Hm. unfold store_of. by rewrite decide_False, decide_True. }
  rewrite (gap_filling_missing srv d 1); cycle 1.
  { rewrite Hfr. intros Hempty. apply (f_equal (λ m, m !! VInt 1)) in Hempty.
    by vm_compute in Hempty. }
  { by rewrite Hfr. }
  { by rewrite Hfr. }
  set (remaining := filter (λ x, x ∉ seen_ids d) (range 1 10000)).
  assert (∃ l', remaining = 1 :: l') as [l' Hrem].
  { unfold remaining. rewrite (range_cons 1 10000) by lia.
    rewrite filter_cons_True by by apply steady_unseen_one. by eexists. }
  assert (20 ≤ length remaining)%nat as Hlen.
  { pose proof (unseen_count (seen_ids d) (range 1 10000) (NoDup_range _ _)) as Hc.
    pose proof (steady_size d Hd). rewrite length_range in Hc. fold remaining in Hc. lia. }
  destruct (range_step_head (Z.of_nat (length remaining)) (max_concurrent d))
    as [starts ->]; [lia|lia|].
  destruct (py_slice_prefix remaining 1 l' Hrem Hlen) as (rest & Hslice & Hn).
  rewrite (gap_batches_step srv remaining 0 starts d 1 rest); cycle 1.
  { exact Hout. }
  { rewrite (steady_complete d Hd). by rewrite bool_decide_eq_false_2. }
  { by rewrite Hmc. }
  set (d2 := probe "Found missing fragment " srv 1 (Z.of_nat (length (1 :: rest))) d).
  assert (steady i0 i1 f0 f1 d2) as Hd2 by (apply probe_steady; [lia|lia|done]).
  exists d2. split; [|done]. apply gap_batches_complete.
  rewrite (steady_complete d2 Hd2). rewrite bool_decide_eq_true_2; [done|].
  apply probe_reaches. lia.
Qed.

(** Phase 3 completes the puzzle in its first window at the latest. *)
Lemma extended_search_steady (fuel : nat) (d : PuzzleDecoder) :
  steady i0 i1 f0 f1 d → (2 ≤ fuel)%nat →
  ∃ r d3, extended_search srv fuel 1 0 d = Ret r d3
          ∧ steady i0 i1 f0 f1 d3 ∧ i0 ∈ seen_ids d3.
Proof.
  intros Hd Hfuel. pose proof Hd as (Hm & Hmc & Hsub & Himp & Hout).
  assert (∀ n search_id cf d', steady i0 i1 f0 f1 d' → i0 ∈ seen_ids d' →
            extended_search srv (S n) search_id cf d' = Ret (search_id, cf) d')
    as Hdone.
  { intros n search_id cf d' Hd' H0. cbn [extended_search].
    unfold mbind, M_bind, complete, lift.
    rewrite (steady_complete d' Hd'), bool_decide_eq_true_2 by done. done. }
  destruct fuel as [|[|fuel]]; [lia|lia|].
  destruct (decide (i0 ∈ seen_ids d)) as [H0|H0].
  { exists (1, 0), d. by rewrite Hdone. }
  rewrite extended_search_turn; [|by rewrite (steady_complete d Hd),
                                    bool_decide_eq_false_2|lia].
  rewrite Hmc.
  destruct (filter (λ x, x ∉ seen_ids d) (range 1 (1 + 30))) as [|first rest] eqn:Hb.
  { exfalso. rewrite (range_cons 1 (1 + 30)) in Hb by lia.
    by rewrite filter_cons_True in Hb by by apply steady_unseen_one. }
  assert (first = 1) as ->.
  { rewrite (range_cons 1 (1 + 30)) in Hb by lia.
    rewrite filter_cons_True in Hb by by apply steady_unseen_one. by injection Hb. }
  assert (28 ≤ length (1%Z :: rest))%nat as Hlen.
  { pose proof (unseen_count (seen_ids d) (range 1 (1 + 30)) (NoDup_range _ _)) as Hc.
    pose proof (steady_size d Hd). rewrite length_range, Hb in Hc. lia. }
  destruct (probe_run "Found fragment " srv 1 rest d Hout)
    as (found & d1 & -> & Hfound & Hp).
  set (d3 := probe "Found fragment " srv 1 (Z.of_nat (length (1 :: rest))) d) in *.
  assert (steady i0 i1 f0 f1 d3) as Hd3 by (apply probe_steady; [lia|lia|done]).
  assert (i0 ∈ seen_ids d3) as H3 by (apply probe_reaches; lia).
  assert (f0 ∈ found) as Hin.
  { rewrite Hfound. apply (found_two srv i0 i1 a0 a1 t0 t1 Hsrv ids_differ).
    left. split; [done|]. split; [done|lia]. }
  destruct found as [|g found']; [by apply elem_of_nil in Hin|].
  rewrite Hp. exists (1 + 30, 0), d3. by rewrite Hdone.
Qed.

Lemma smart_search_strategy_steady (random_ids : list Z) (fuel : nat) (d : PuzzleDecoder) :
  steady i0 i1 f0 f1 d → length random_ids = 50%nat →
  Forall (λ x, 1 ≤ x) random_ids → (2 ≤ fuel)%nat →
  ∃ d', smart_search_strategy srv random_ids fuel d = Ret tt d'
        ∧ steady i0 i1 f0 f1 d' ∧ i0 ∈ seen_ids d'.
Proof.
  intros Hd Hlen Hpos Hfuel. unfold smart_search_strategy, mbind, M_bind.
  destruct (discovering_steady random_ids d Hd Hlen Hpos) as (fl & d1 & -> & Hd1 & Hret).
  destruct fl; [|by exists d1; auto].
  destruct (gap_filling_steady d1 Hd1) as (d2 & -> & Hd2).
  destruct (extended_search_steady fuel d2 Hd2 Hfuel) as (r & d3 & -> & Hd3 & H3).
  by exists d3.
Qed.

Lemma solve_puzzle_steady (random_ids : list Z) (fuel : nat) (url : string)
    (stdout : string → bool) :
  (∀ line, stdout line = true) → is_sample random_ids → (2 ≤ fuel)%nat →
  ∃ d', solve_puzzle srv random_ids fuel (init url stdout)
        = Ret (t0 +:+ " " +:+ t1) d'
        ∧ console d' = ["Message: '" +:+ (t0 +:+ " " +:+ t1) +:+ "'"].
Proof.
  intros Hstdout (_ & Hlen & Hrange) Hfuel.
  assert (Forall (λ x, 1 ≤ x) random_ids) as Hpos
    by (eapply Forall_impl; [exact Hrange|]; intros x Hx; cbn in Hx; lia).
  assert (steady i0 i1 f0 f1 (init url stdout)) as H0.
  { split; [|split; [done|split; [|split; [|exact Hstdout]]]].
    - unfold mirrors, store_of. cbn [init seen_ids fragments].
      rewrite !decide_False by apply not_elem_of_empty. reflexivity.
    - intros x Hx. by apply not_elem_of_empty in Hx.
    - intros Hx. by apply not_elem_of_empty in Hx. }
  pose proof (smart_search_strategy_console srv random_ids fuel (init url stdout)) as Hcon.
  destruct (smart_search_strategy_steady random_ids fuel (init url stdout) H0 Hlen Hpos
              Hfuel) as (d' & Hrun & Hd' & Hseen).
  rewrite Hrun in Hcon. cbn [final_state] in Hcon.
  unfold solve_puzzle, mbind, M_bind. rewrite Hrun.
  unfold complete at 1, lift.
  rewrite (steady_complete d' Hd'), bool_decide_eq_true_2 by done.
  unfold get at 1. destruct Hd' as (Hm & _ & _ & Himp & Hout). rewrite Hm.
  rewrite message_store_of by done. rewrite decide_True by by apply Himp.
  cbn. unfold write. rewrite Hout.
  eexists. split; [reflexivity|]. cbn. by rewrite Hcon.
Qed.
End two_catalog_runs.

(** X11.  End to end.  When the service holds two fragments, index 0 under
    identifier [i0] and index 1 under [i1] with [1 <= i0 < i1 <= 20], and
    the standard output can encode every line, then for every sample that
    phase 1 can draw [solve_puzzle] returns the two texts joined by a
    space, and its outcome line carries that message; two evaluations of
    the loop condition of phase 3 are enough. *)
Theorem solve_puzzle_finds_both_fragments (srv : service) (i0 i1 : Z) (a0 a1 : pyval)
    (t0 t1 : string) (random_ids : list Z) (fuel : nat) (url : string)
    (stdout : string → bool) :
  serves srv (two_fragments i0 i1 (mkFragment a0 (VInt 0) (VStr t0))
                                  (mkFragment a1 (VInt 1) (VStr t1))) →
  1 ≤ i0 < i1 → i1 ≤ 20 → (∀ line, stdout line = true) →
  is_sample random_ids → (2 ≤ fuel)%nat →
  ∃ d', solve_puzzle srv random_ids fuel (init url stdout)
        = Ret (t0 +:+ " " +:+ t1) d'
        ∧ console d' = ["Message: '" +:+ (t0 +:+ " " +:+ t1) +:+ "'"].
Proof.
  intros Hsrv Hlow Hhigh.
  by apply (solve_puzzle_steady srv i0 i1 a0 a1 t0 t1 Hsrv Hlow Hhigh).
Qed.

Lemma hello_world_serves :
  serves hello_world (two_fragments 5 9 (frag 5 0 "Hello") (frag 9 1 "World")).
Proof.
  intros history k. unfold hello_world, two_fragments.
  by repeat case_bool_decide.
Qed.

Lemma solve_puzzle_finds_both_fragments_witness :
  ∃ d', solve_puzzle hello_world sample0 2 (init "http://localhost:8888" every_line)
        = Ret ("Hello" +:+ " " +:+ "World") d'
        ∧ console d' = ["Message: '" +:+ ("Hello" +:+ " " +:+ "World") +:+ "'"].
Proof.
  apply (solve_puzzle_finds_both_fragments hello_world 5 9 (VInt 5) (VInt 9)
           "Hello" "World" sample0 2 "http://localhost:8888" every_line).
  - apply hello_world_serves.
  - lia.
  - lia.
  - reflexivity.
  - apply sample0_is_sample.
  - lia.
Defined.

(** ** Completeness is judged on what is held, not on what the service has *)

Lemma filter_all {A} (P : A → Prop) `{!∀ x, Decision (P x)} (l : list A) :
  Forall P l → filter P l = l.
Proof.
  induction 1 as [|x l Hx _ IH]; [done|]. by rewrite filter_cons_True, IH.
Qed.

Lemma fetch_batch_count (srv : service) (start_id batch_size : Z) (d : PuzzleDecoder) :
  length (fst (fetch_batch srv start_id batch_size d))
  = size (seen_ids (snd (fetch_batch srv start_id batch_size d)) ∖ seen_ids d).
Proof. rewrite fetch_batch_unfold. cbn [fst snd]. apply gather_count. Qed.

Lemma probe_requests (label : string) (srv : service) (start_id batch_size : Z)
    (d : PuzzleDecoder) :
  requests (probe label srv start_id batch_size d)
  = (requests d
     ++ filter (λ x, x ∉ seen_ids d) (range start_id (start_id + batch_size)))%list.
Proof.
  unfold probe.
  destruct (ingested_frame label (fst (fetch_batch srv start_id batch_size d))
              (snd (fetch_batch srv start_id batch_size d)))
    as (_ & _ & _ & -> & _).
  apply fetch_batch_requests.
Qed.

Lemma solve_puzzle_prefix (srv : service) (i0 i1 : Z) (a0 a1 : pyval) (t0 t1 : string)
    (random_ids : list Z) (s : Z) (fuel : nat) (url : string) (stdout : string → bool) :
  serves srv (two_fragments i0 i1 (mkFragment a0 (VInt 0) (VStr t0))
                                  (mkFragment a1 (VInt 1) (VStr t1))) →
  i0 ≠ i1 → (∀ line, stdout line = true) →
  is_sample random_ids → head random_ids = Some s →
  s ≤ i0 < s + 30 → ¬ (s ≤ i1 < s + 30) →
  ∃ d', solve_puzzle srv random_ids fuel (init url stdout) = Ret t0 d'
        ∧ requests d' = range s (s + 30)
        ∧ progress d' = ["Found fragment 0: '" +:+ t0 +:+ "'"]
        ∧ console d' = ["Message: '" +:+ t0 +:+ "'"].
Proof.
  intros Hsrv Hne Hstdout (_ & Hlen & _) Hhead Hin Hout.
  set (f0 := mkFragment a0 (VInt 0) (VStr t0)) in *.
  set (f1 := mkFragment a1 (VInt 1) (VStr t1)) in *.
  set (d0 := init url stdout).
  assert (shows_all d0) as Hshow by exact Hstdout.
  destruct (sample_slices random_ids Hlen)
    as (b1 & r1 & b2 & r2 & Hhead' & Hs1 & Hl1 & _).
  rewrite Hhead in Hhead'. injection Hhead' as <-.
  assert (mirrors i0 i1 f0 f1 d0) as Hm0.
  { unfold mirrors, store_of. cbn [d0 init seen_ids fragments].
    rewrite !decide_False by apply not_elem_of_empty. reflexivity. }
  pose proof (probe_mirrors srv i0 i1 a0 a1 t0 t1 Hsrv Hne "Found fragment " s 30 d0 Hm0)
    as Hm1.
  pose proof (probe_seen srv i0 i1 a0 a1 t0 t1 Hsrv Hne "Found fragment " s 30 d0)
    as Hseen.
  pose proof (found_two srv i0 i1 a0 a1 t0 t1 Hsrv Hne s 30 d0) as Hfound.
  pose proof (probe_requests "Found fragment " srv s 30 d0) as Hreq.
  pose proof (probe_frame "Found fragment " srv s 30 d0) as (_ & _ & Hcon).
  pose proof (probe_terminal "Found fragment " srv s 30 d0) as Hterm.
  pose proof (discover_batches_step srv random_ids 30 0 [30] d0 s r1 Hshow Hs1) as Hstep.
  rewrite Hl1 in Hstep. change (Z.of_nat 30) with 30 in Hstep.
  fold f0 f1 in Hm1, Hseen, Hfound.
  assert (progress (probe "Found fragment " srv s 30 d0)
          = ["Found fragment 0: '" +:+ t0 +:+ "'"]) as Hpro.
  { unfold probe.
    destruct (ingested_frame "Found fragment " (fst (fetch_batch srv s 30 d0))
                (snd (fetch_batch srv s 30 d0))) as (_ & _ & _ & _ & _ & _ & ->).
    destruct (fetch_batch_output srv s 30 d0) as [_ ->].
    assert (fst (fetch_batch srv s 30 d0) = [f0]) as ->; [|done].
    assert (∀ g, g ∈ fst (fetch_batch srv s 30 d0) ↔ g = f0) as Hone.
    { intros g. rewrite Hfound. split.
      - intros [(-> & _)|(_ & _ & ?)]; done.
      - intros ->. left. split; [done|]. split; [apply not_elem_of_empty|done]. }
    pose proof (fetch_batch_count srv s 30 d0) as Hcount.
    assert (size (seen_ids (snd (fetch_batch srv s 30 d0)) ∖ seen_ids d0) = 1%nat)
      as Hsize.
    { assert (seen_ids (snd (fetch_batch srv s 30 d0)) ∖ seen_ids d0 = {[i0]}) as ->;
        [|apply size_singleton].
      destruct (probe_frame "Found fragment " srv s 30 d0) as (<- & _).
      apply set_eq. intros x. rewrite elem_of_difference, Hseen, elem_of_singleton.
      cbn [d0 init seen_ids]. split.
      - intros [[Hx|[[->| ->] Hx]] _]; [by apply not_elem_of_empty in Hx|done|done].
      - intros ->. split; [right; split; [by left|done]|apply not_elem_of_empty]. }
    rewrite Hsize in Hcount.
    destruct (fst (fetch_batch srv s 30 d0)) as [|g [|g' l]]; [done| |done].
    f_equal. apply Hone. apply list_elem_of_here. }
  set (d1 := probe "Found fragment " srv s 30 d0) in *.
  assert (i0 ∈ seen_ids d1) as H0 by (apply Hseen; right; split; [by left|done]).
  assert (i1 ∉ seen_ids d1) as H1.
  { intros H. apply Hseen in H as [H|[_ H]]; [|done].
    by apply not_elem_of_empty in H. }
  assert (is_puzzle_complete (fragments d1) = Ok true) as Hc.
  { rewrite Hm1. fold f0 f1.
    rewrite (complete_store_of i0 i1 a0 a1 t0 t1). by rewrite bool_decide_eq_true_2. }
  rewrite Hc in Hstep.
  assert (smart_search_strategy srv random_ids fuel d0 = Ret tt d1) as Hrun.
  { unfold smart_search_strategy, mbind, M_bind.
    rewrite (discovering_sample srv random_ids d0) by done.
    rewrite Hstep. reflexivity. }
  unfold solve_puzzle, mbind, M_bind. rewrite Hrun.
  unfold complete at 1, lift. rewrite Hc.
  unfold get at 1. rewrite Hm1.
  rewrite (message_store_of i0 i1 a0 a1 t0 t1) by done.
  rewrite decide_False by done.
  assert (requests d1 = range s (s + 30)) as Hreq'.
  { rewrite Hreq. cbn [d0 init requests seen_ids app]. apply filter_all.
    apply Forall_forall. intros x _. apply not_elem_of_empty. }
  cbn. unfold write. rewrite Hterm. cbn [d0 init terminal]. rewrite Hstdout.
  eexists. split; [reflexivity|]. cbn. by rewrite Hreq', Hcon, Hpro.
Qed.

(** X12.  The decoder declares the puzzle complete as soon as the indices it
    holds have no gap from 0: when the first batch of phase 1 reaches the
    fragment of index 0 but not the fragment of index 1, and the standard
    output can encode every line, [solve_puzzle] stops after that one
    batch (30 requests, whatever the loop budget); it announces the
    fragment of index 0, returns its text alone and carries it in its
    outcome line; the fragment of index 1 that the service holds is never
    requested. *)
Theorem solve_puzzle_stops_at_first_gapless_prefix (srv : service) (i0 i1 : Z)
    (a0 a1 : pyval) (t0 t1 : string) (random_ids : list Z) (s : Z) (fuel : nat)
    (url : string) (stdout : string → bool) :
  serves srv (two_fragments i0 i1 (mkFragment a0 (VInt 0) (VStr t0))
                                  (mkFragment a1 (VInt 1) (VStr t1))) →
  i0 ≠ i1 → (∀ line, stdout line = true) →
  is_sample random_ids → head random_ids = Some s →
  s ≤ i0 < s + 30 → ¬ (s ≤ i1 < s + 30) →
  ∃ d', solve_puzzle srv random_ids fuel (init url stdout) = Ret t0 d'
        ∧ requests d' = range s (s + 30)
        ∧ (i1 ∉ requests d')
        ∧ progress d' = ["Found fragment 0: '" +:+ t0 +:+ "'"]
        ∧ console d' = ["Message: '" +:+ t0 +:+ "'"].
Proof.
  intros Hsrv Hne Hstdout Hsample Hhead Hin Hout.
  destruct (solve_puzzle_prefix srv i0 i1 a0 a1 t0 t1 random_ids s fuel url stdout
              Hsrv Hne Hstdout Hsample Hhead Hin Hout)
    as (d' & Hrun & Hreq & Hpro & Hcon).
  exists d'. split; [done|]. split; [done|]. split; [|done].
  rewrite Hreq. intros H. by apply elem_of_range in H.
Qed.

Lemma hello_world_apart_serves :
  serves hello_world_apart (two_fragments 5 40 (frag 5 0 "Hello") (frag 40 1 "World")).
Proof.
  intros history k. unfold hello_world_apart, two_fragments.
  by repeat case_bool_decide.
Qed.

Lemma solve_puzzle_stops_at_first_gapless_prefix_witness :
  ∃ d', solve_puzzle hello_world_apart sample0 0
          (init "http://localhost:8888" every_line) = Ret "Hello" d'
        ∧ requests d' = range 5 (5 + 30)
        ∧ (40 ∉ requests d')
        ∧ progress d' = ["Found fragment 0: '" +:+ "Hello" +:+ "'"]
        ∧ console d' = ["Message: '" +:+ "Hello" +:+ "'"].
Proof.
  apply (solve_puzzle_stops_at_first_gapless_prefix hello_world_apart 5 40
           (VInt 5) (VInt 40) "Hello" "World" sample0 5 0 "http://localhost:8888"
           every_line).
  - apply hello_world_apart_serves.
  - lia.
  - reflexivity.
  - apply sample0_is_sample.
  - reflexivity.
  - lia.
  - lia.
Defined.

(** ** The script: what a printed final answer means *)

(** X13.  When the script prints a final answer, that answer is not empty, it is
    what [main] returned, the store is complete, the answer is the message
    assembled from it, every stored fragment was delivered by the service
    and sits under its own index, and the one outcome line [solve_puzzle]
    printed carries the same message. *)
Theorem final_answer_is_the_assembled_message (srv : service) (stdout : string → bool)
    (random_ids : list Z) (fuel : nat) (message : string) :
  script srv stdout random_ids fuel = Some (FinalAnswer message) →
  message ≠ "" ∧
  ∃ d', main srv stdout random_ids fuel = Ret message d'
        ∧ is_puzzle_complete (fragments d') = Ok true
        ∧ get_assembled_message (fragments d') = Ok message
        ∧ (∀ k f, fragments d' !! k = Some f → index f = k ∧ delivered srv f)
        ∧ console d' = ["Message: '" +:+ message +:+ "'"].
Proof.
  unfold script. intros Hs.
  pose proof (run_solve srv random_ids fuel (init "http://localhost:8888" stdout))
    as Hrun.
  fold (main srv stdout random_ids fuel) in Hrun.
  destruct (main srv stdout random_ids fuel) as [m d'|e d'|d'] eqn:Hmain; [|done..].
  unfold reports_answer in Hs. case_bool_decide as Hm; [done|].
  cbn [negb] in Hs. destruct (stdout (final_answer_line m)); [|done].
  injection Hs as ->. split; [done|]. exists d'. split; [done|].
  cbn [final_state] in Hrun.
  apply solve_puzzle_returns in Hmain as [(_ & Hempty & _)|(Hc & Hmsg & Hcon)]; [done|].
  split; [done|]. split; [done|]. split; [|done].
  apply (runs_to_inv srv
           (λ d1, ∀ k f, fragments d1 !! k = Some f → index f = k ∧ delivered srv f)
           (delivered srv) (init "http://localhost:8888" stdout) d'); [| | |done|].
  - intros i d1 H1. split.
    + by destruct (fetch_fragment_frame srv i d1) as (-> & _).
    + intros f Hf. apply fetch_fragment_Some in Hf as [_ Hf].
      by exists (requests d1), i.
  - intros d1 g H1 Hg k f. cbn. rewrite lookup_insert.
    destruct (decide (index g = k)) as [<-|]; [|apply H1].
    by intros [= <-].
  - by intros line d1 H1.
  - intros k f Hk. cbn [init fragments] in Hk. by apply lookup_empty_Some in Hk.
Qed.

Lemma final_answer_is_the_assembled_message_witness :
  "Hello World" ≠ "" ∧
  ∃ d', main hello_world ascii_only sample0 2 = Ret "Hello World" d'
        ∧ is_puzzle_complete (fragments d') = Ok true
        ∧ get_assembled_message (fragments d') = Ok "Hello World"
        ∧ (∀ k f, fragments d' !! k = Some f → index f = k ∧ delivered hello_world f)
        ∧ console d' = ["Message: '" +:+ "Hello World" +:+ "'"].
Proof.
  apply (final_answer_is_the_assembled_message hello_world ascii_only sample0 2
           "Hello World").
  by vm_compute.
Defined.

(** ** The seen set against the requests *)

Lemma size_list_to_set_le (l : list Z) : (size (list_to_set l : gset Z) ≤ length l)%nat.
Proof.
  induction l as [|x l IH]; [by rewrite list_to_set_nil, size_empty|].
  rewrite list_to_set_cons, size_union_alt, size_singleton. cbn [length].
  assert (size (list_to_set l ∖ {[x]} : gset Z) ≤ size (list_to_set l : gset Z))%nat
    by (apply subseteq_size; set_solver).
  lia.
Qed.

(** X14.  Over any batch, phase or whole run that starts with every seen
    identifier among the requests issued: every identifier in the seen set
    afterwards was requested, every identifier the run added is one for
    which the service delivered a fragment, and so the size of the seen
    set (the number [solve_puzzle] reports as "Requests made") never
    exceeds the number of requests issued. *)
Theorem seen_ids_were_requested_and_delivered (srv : service) (d d' : PuzzleDecoder) :
  runs_to srv d d' → seen_ids d ⊆ list_to_set (requests d) →
  seen_ids d' ⊆ list_to_set (requests d')
  ∧ (∀ k, k ∈ seen_ids d' →
          k ∈ seen_ids d ∨ ∃ history, is_Some (read_fragment (srv history k)))
  ∧ (size (seen_ids d') ≤ length (requests d'))%nat.
Proof.
  intros Hrun H0.
  assert (seen_ids d' ⊆ list_to_set (requests d')
          ∧ ∀ k, k ∈ seen_ids d' →
                 k ∈ seen_ids d ∨ ∃ history, is_Some (read_fragment (srv history k)))
    as [Hsub Hdel].
  { apply (runs_to_inv srv
             (λ d1, seen_ids d1 ⊆ list_to_set (requests d1)
                    ∧ ∀ k, k ∈ seen_ids d1 →
                           k ∈ seen_ids d
                           ∨ ∃ history, is_Some (read_fragment (srv history k)))
             (λ _, True) d d'); [| | |done|by split; [|left]].
    - intros i d1 [H1 H2]. split; [|done].
      destruct (decide (i ∈ seen_ids d1)) as [Hi|Hi].
      { by rewrite fetch_fragment_seen. }
      rewrite fetch_fragment_unseen by done.
      destruct (read_fragment (srv (requests d1) i)) as [f|] eqn:Hf; cbn.
      + split.
        * rewrite list_to_set_app_L. set_solver.
        * intros k Hk. apply elem_of_union in Hk as [Hk|Hk]; [|by apply H2].
          apply elem_of_singleton in Hk as ->. right. exists (requests d1).
          by rewrite Hf.
      + split; [|done]. rewrite list_to_set_app_L. set_solver.
    - by intros d1 g H1 _.
    - by intros line d1 H1. }
  split; [done|]. split; [done|].
  etransitivity; [apply (subseteq_size _ _ Hsub)|apply size_list_to_set_le].
Qed.

Lemma seen_ids_were_requested_and_delivered_witness :
  seen_ids (final_state (solve_puzzle hello_world sample0 2 fresh))
    ⊆ list_to_set (requests (final_state (solve_puzzle hello_world sample0 2 fresh)))
  ∧ (∀ k, k ∈ seen_ids (final_state (solve_puzzle hello_world sample0 2 fresh)) →
          k ∈ seen_ids fresh ∨ ∃ history, is_Some (read_fragment (hello_world history k)))
  ∧ (size (seen_ids (final_state (solve_puzzle hello_world sample0 2 fresh)))
     ≤ length (requests (final_state (solve_puzzle hello_world sample0 2 fresh))))%nat.
Proof.
  apply (seen_ids_were_requested_and_delivered hello_world fresh).
  - apply run_solve.
  - intros k Hk. by apply not_elem_of_empty in Hk.
Defined.

(** ** The identifiers the search can reach *)

Lemma fetch_batch_positive (srv : service) (start_id batch_size : Z) (d : PuzzleDecoder) :
  1 ≤ start_id → positive_requests d →
  positive_requests (snd (fetch_batch srv start_id batch_size d)).
Proof.
  intros Hs [Hreq Hmc]. split.
  - rewrite fetch_batch_requests. apply Forall_app. split; [done|].
    apply Forall_forall. intros x Hx. apply list_elem_of_filter in Hx as [_ Hx].
    apply elem_of_range in Hx. lia.
  - rewrite fetch_batch_unfold. cbn [snd].
    by destruct (gather_frame srv (range start_id (start_id + batch_size)) d)
      as (_ & -> & _).
Qed.

Lemma ingest_positive (label : string) (found : list Fragment) (d : PuzzleDecoder) :
  positive_requests d → positive_requests (final_state (ingest label found d)).
Proof.
  revert d. induction found as [|f found IH]; intros d Hd; [done|].
  cbn [ingest]. unfold mbind, M_bind. unfold modify at 1. unfold write at 1.
  destruct (terminal (store_fragment d f) (found_line label f)); [|exact Hd].
  apply IH. exact Hd.
Qed.

Lemma fetch_batch_of_positive (srv : service) (batch : list Z) (d : PuzzleDecoder) :
  Forall (λ k, 1 ≤ k) batch → positive_requests d →
  post (fetch_batch_of srv batch d)
       (λ found d1, positive_requests d1)
       (λ _ d1, positive_requests d1) positive_requests.
Proof.
  intros Hb Hd. destruct batch as [|first rest]; [done|].
  rewrite fetch_batch_of_cons. cbn [post].
  apply Forall_cons in Hb as [Hfirst _]. by apply fetch_batch_positive.
Qed.

Lemma py_slice_Forall {A} (P : A → Prop) (l : list A) (a b : Z) :
  Forall P l → Forall P (py_slice l a b).
Proof. intros H. unfold py_slice. by apply Forall_take, Forall_drop. Qed.

Lemma discover_batches_positive (srv : service) (random_ids : list Z) (batch_size : Z)
    (starts : list Z) (d : PuzzleDecoder) :
  Forall (λ k, 1 ≤ k) random_ids → positive_requests d →
  positive_requests (final_state (discover_batches srv random_ids batch_size starts d)).
Proof.
  intros Hids. revert d. induction starts as [|i starts IH]; intros d Hd; [done|].
  cbn [discover_batches]. unfold mbind, M_bind.
  pose proof (fetch_batch_of_positive srv
                (py_slice random_ids i (i + batch_size)) d
                (py_slice_Forall _ _ _ _ Hids) Hd) as H.
  destruct (fetch_batch_of srv _ d) as [found d1|e d1|d1]; cbn [post] in H;
    [|exact H..].
  pose proof (ingest_positive "Found fragment " found d1 H) as H2.
  destruct (ingest _ found d1) as [[] d2|e d2|d2]; cbn [final_state] in H2;
    [|exact H2..].
  unfold complete at 1, lift.
  destruct (is_puzzle_complete (fragments d2)) as [[|]|e];
    [exact H2|by apply IH|exact H2].
Qed.

Lemma discovering_positive (srv : service) (random_ids : list Z) (d : PuzzleDecoder) :
  Forall (λ k, 1 ≤ k) random_ids → positive_requests d →
  positive_requests (final_state (discovering srv random_ids d)).
Proof.
  intros Hids Hd. unfold discovering, mbind, M_bind, get, lift.
  destruct (range_step _ _ _) as [starts|e]; [|exact Hd].
  by apply discover_batches_positive.
Qed.

Lemma gap_batches_positive (srv : service) (remaining_ids starts : list Z)
    (d : PuzzleDecoder) :
  Forall (λ k, 1 ≤ k) remaining_ids → positive_requests d →
  positive_requests (final_state (gap_batches srv remaining_ids starts d)).
Proof.
  intros Hids. revert d. induction starts as [|i starts IH]; intros d Hd; [done|].
  cbn [gap_batches]. unfold mbind, M_bind. unfold complete at 1, lift.
  destruct (is_puzzle_complete (fragments d)) as [[|]|e]; [exact Hd| |exact Hd].
  unfold get at 1.
  pose proof (fetch_batch_of_positive srv
                (py_slice remaining_ids i (i + max_concurrent d)) d
                (py_slice_Forall _ _ _ _ Hids) Hd) as H.
  destruct (fetch_batch_of srv _ d) as [found d1|e d1|d1]; cbn [post] in H;
    [|exact H..].
  pose proof (ingest_positive "Found missing fragment " found d1 H) as H2.
  destruct (ingest _ found d1) as [[] d2|e d2|d2]; cbn [final_state] in H2;
    [|exact H2..].
  by apply IH.
Qed.

Lemma unseen_from (seen : gset Z) (a b : Z) :
  Forall (λ k, a ≤ k) (filter (λ x, x ∉ seen) (range a b)).
Proof.
  apply Forall_forall. intros x Hx. apply list_elem_of_filter in Hx as [_ Hx].
  apply elem_of_range in Hx. lia.
Qed.

Lemma gap_filling_positive (srv : service) (d : PuzzleDecoder) :
  positive_requests d → positive_requests (final_state (gap_filling srv d)).
Proof.
  intros Hd. unfold gap_filling, mbind, M_bind, get, lift.
  case_bool_decide; [exact Hd|].
  destruct (py_max (keys (fragments d))) as [m|e]; [|exact Hd].
  destruct (py_succ m) as [stop|e]; [|exact Hd].
  destruct (filter _ (range 0 stop)) as [|x l]; [exact Hd|].
  destruct (range_step _ _ _) as [starts|e]; [|exact Hd].
  apply gap_batches_positive; [apply unseen_from|exact Hd].
Qed.

Lemma extended_search_positive (srv : service) (fuel : nat) (search_id cf : Z)
    (d : PuzzleDecoder) :
  1 ≤ search_id → positive_requests d →
  positive_requests (final_state (extended_search srv fuel search_id cf d)).
Proof.
  revert search_id cf d. induction fuel as [|fuel IH]; intros search_id cf d Hs Hd;
    [exact Hd|].
  cbn [extended_search]. unfold mbind, M_bind. unfold complete at 1, lift.
  destruct (is_puzzle_complete (fragments d)) as [c|e]; [|exact Hd].
  destruct (negb c && bool_decide (cf < 100)); [|exact Hd].
  unfold get. pose proof Hd as [_ Hmc].
  pose proof (unseen_from (seen_ids d) search_id (search_id + max_concurrent d)) as Hb.
  destruct (filter _ (range search_id _)) as [|first rest].
  { apply IH; [lia|exact Hd]. }
  pose proof (fetch_batch_of_positive srv (first :: rest) d) as H.
  destruct (fetch_batch_of srv (first :: rest) d) as [found d1|e d1|d1];
    cbn [post] in H.
  - assert (positive_requests d1) as H1.
    { apply H; [|exact Hd].
      eapply Forall_impl; [exact Hb|]. intros x Hx. cbn in Hx. lia. }
    destruct found as [|f found].
    + apply IH; [lia|exact H1].
    + pose proof (ingest_positive "Found fragment " (f :: found) d1 H1) as H2.
      destruct (ingest _ (f :: found) d1) as [[] d2|e d2|d2]; cbn [final_state] in H2;
        [|exact H2..].
      apply IH; [lia|exact H2].
  - apply H; [|exact Hd].
    eapply Forall_impl; [exact Hb|]. intros x Hx. cbn in Hx. lia.
  - apply H; [|exact Hd].
    eapply Forall_impl; [exact Hb|]. intros x Hx. cbn in Hx. lia.
Qed.

Lemma smart_search_strategy_positive (srv : service) (random_ids : list Z) (fuel : nat)
    (d : PuzzleDecoder) :
  Forall (λ k, 1 ≤ k) random_ids → positive_requests d →
  positive_requests (final_state (smart_search_strategy srv random_ids fuel d)).
Proof.
  intros Hids Hd. unfold smart_search_strategy, mbind, M_bind.
  pose proof (discovering_positive srv random_ids d Hids Hd) as H1.
  destruct (discovering srv random_ids d) as [[|] d1|e d1|d1]; cbn [final_state] in H1;
    [|exact H1..].
  pose proof (gap_filling_positive srv d1 H1) as H2.
  destruct (gap_filling srv d1) as [[] d2|e d2|d2]; cbn [final_state] in H2;
    [|exact H2..].
  pose proof (extended_search_positive srv fuel 1 0 d2 ltac:(lia) H2) as H3.
  destruct (extended_search srv fuel 1 0 d2) as [r d3|e d3|d3]; exact H3.
Qed.

(** X15.  The search only ever asks for identifiers from 1 upward: started with a
    positive concurrency limit, a run of [solve_puzzle] on identifiers
    drawn from 1 upward requests no identifier below 1, whatever the
    service answers and however the run ends.  A fragment that the service
    holds only under identifier 0 or a negative identifier is out of
    reach. *)
Theorem identifiers_below_one_are_never_requested (srv : service) (random_ids : list Z)
    (fuel : nat) (d : PuzzleDecoder) :
  Forall (λ k, 1 ≤ k) random_ids → 0 < max_concurrent d →
  Forall (λ k, 1 ≤ k) (requests d) →
  Forall (λ k, 1 ≤ k) (requests (final_state (solve_puzzle srv random_ids fuel d))).
Proof.
  intros Hids Hmc Hreq.
  assert (positive_requests d) as Hd by done.
  assert (positive_requests (final_state (solve_puzzle srv random_ids fuel d)))
    as [H _]; [|exact H].
  unfold solve_puzzle, mbind, M_bind.
  pose proof (smart_search_strategy_positive srv random_ids fuel d Hids Hd) as H1.
  destruct (smart_search_strategy srv random_ids fuel d) as [[] d1|e d1|d1];
    cbn [final_state] in H1; [|exact H1..].
  unfold complete at 1, lift.
  destruct (is_puzzle_complete (fragments d1)) as [[|]|e]; [|exact H1..].
  unfold get at 1.
  destruct (get_assembled_message (fragments d1)) as [m|e]; [|exact H1].
  cbn. unfold write. destruct (terminal d1 _); exact H1.
Qed.

Lemma identifiers_below_one_are_never_requested_witness :
  Forall (λ k, 1 ≤ k) (requests (final_state (solve_puzzle hello_world sample0 2 fresh))).
Proof.
  apply (identifiers_below_one_are_never_requested hello_world sample0 2 fresh).
  - apply (bool_decide_unpack _). by vm_compute.
  - done.
  - apply Forall_nil_2.
Defined.

(** ** The seen set as a guard *)

Lemma snoc_split {A} (new before after : list A) (j k : A) :
  (new ++ [j])%list = (before ++ k :: after)%list →
  (after = [] ∧ before = new ∧ k = j)
  ∨ ∃ after', after = (after' ++ [j])%list ∧ new = (before ++ k :: after')%list.
Proof.
  destruct after as [|a after' _] using rev_ind.
  - intros H. apply app_inj_tail in H as [-> ->]. by left.
  - intros H. right. exists after'.
    change (before ++ k :: after' ++ [a])%list
      with (before ++ (k :: after') ++ [a])%list in H.
    rewrite app_assoc in H. apply app_inj_tail in H as [-> ->]. done.
Qed.

Lemma dedupes_refl (srv : service) (d : PuzzleDecoder) : dedupes srv d d [].
Proof.
  split; [by rewrite app_nil_r|]. split; [done|]. split.
  - intros before k after H. by destruct before.
  - intros k Hk. by left.
Qed.

Lemma dedupes_fetch (srv : service) (d d1 : PuzzleDecoder) (j : Z) :
  (∃ new, dedupes srv d d1 new) →
  ∃ new, dedupes srv d (snd (fetch_fragment srv j d1)) new.
Proof.
  intros (new & Hreq & Hsub & Hlast & Hjoin).
  destruct (decide (j ∈ seen_ids d1)) as [Hj|Hj].
  { rewrite fetch_fragment_seen by done. by exists new. }
  exists (new ++ [j])%list.
  pose proof (fetch_fragment_requests srv j d1) as Hreq'.
  rewrite decide_False in Hreq' by done.
  pose proof (fetch_fragment_seen_ids srv j d1) as Hseen'.
  pose proof (fetch_fragment_unseen srv j d1 Hj) as Hf.
  rewrite Hreq, <- app_assoc in Hreq'. rewrite Hreq in Hf.
  assert (seen_ids d1 ⊆ seen_ids (snd (fetch_fragment srv j d1))) as Hgrow.
  { rewrite Hseen'. destruct (fst (fetch_fragment srv j d1)); set_solver. }
  split; [done|]. split; [set_solver|]. split.
  - intros before k after Hsplit.
    apply snoc_split in Hsplit as [(-> & -> & ->)|(after' & -> & ->)].
    + split; [set_solver|]. intros Hsome. split; [apply not_elem_of_nil|].
      rewrite Hf. destruct (read_fragment _) as [f|]; [|by destruct Hsome].
      cbn. set_solver.
    + destruct (Hlast before k after' eq_refl) as [Hk Hdel].
      split; [done|]. intros Hsome. destruct (Hdel Hsome) as [Hafter Hin].
      split; [|by apply Hgrow].
      intros Hel. apply elem_of_app in Hel as [Hel|Hel]; [done|].
      apply list_elem_of_singleton in Hel as ->. done.
  - intros k Hk. rewrite Hseen' in Hk.
    assert (k ∈ seen_ids d1 ∨ (k = j ∧ is_Some (fst (fetch_fragment srv j d1))))
      as [Hin|[-> Hsome]].
    { destruct (fst (fetch_fragment srv j d1)); [|by left].
      apply elem_of_union in Hk as [Hk|Hk]; [|by left].
      apply elem_of_singleton in Hk as ->. right. by split. }
    + destruct (Hjoin k Hin) as [?|(before & after & -> & Hsome)]; [by left|].
      right. exists before, (after ++ [j])%list. split; [|done].
      by rewrite <- app_assoc.
    + right. exists new, []. split; [done|].
      rewrite Hf in Hsome. by destruct (read_fragment _).
Qed.

(** X16.  The seen set is a guard against asking twice.  Over any batch,
    phase or whole run, whatever the service does and however the run
    ends: the seen set only grows; no identifier that was seen at the
    start is requested; once the service has delivered a fragment for an
    identifier at some request, that identifier is in the seen set and is
    never requested again; and an identifier joins the seen set only at a
    request that delivered a fragment. *)
Theorem delivered_identifiers_are_not_requested_again (srv : service)
    (d d' : PuzzleDecoder) :
  runs_to srv d d' → ∃ new, dedupes srv d d' new.
Proof.
  intros Hrun.
  apply (runs_to_inv srv (λ d1, ∃ new, dedupes srv d d1 new) (λ _, True) d d');
    [| | |done|].
  - intros k d1 H1. split; [by apply dedupes_fetch|done].
  - intros d1 f H1 _. exact H1.
  - intros line d1 H1. split; exact H1.
  - exists []. apply dedupes_refl.
Qed.

Lemma delivered_identifiers_are_not_requested_again_witness :
  (∃ new, dedupes late_zero fresh
            (final_state (solve_puzzle late_zero sample0 2 fresh)) new)
  ∧ requests (final_state (discovering late_zero sample0 fresh))
    = (range 5 35 ++ range 128 148)%list
  ∧ seen_ids (final_state (discovering late_zero sample0 fresh)) = {[5]}.
Proof.
  split.
  - apply (delivered_identifiers_are_not_requested_again late_zero fresh).
    apply run_solve.
  - split; by vm_compute.
Defined.
